(** * Tool API: OpenAPI operations to Tool Handles

    A shallow embedding of the document graph ([src/api.ts]), the request
    template synthesizer ([src/handle/request.ts]), the schema-to-template
    engine ([src/handle/schema.ts]), the response synthesizer
    ([src/handle/responses.ts]) and the handle assembler
    ([src/handle/generate.ts]), with the properties the specification states
    about them. *)

From Stdlib Require Import Ascii String List Bool NArith ZArith Lia Sorted.
From stdpp Require Import base decidable option list gmap strings pretty.

Local Open Scope string_scope.
Local Open Scope list_scope.

Set Warnings "-register-all,-clear-no-such-hyp".

(** ** JavaScript values

    Documents, schemas and generated templates are JSON-like values.  A
    string of the model is a sequence of code units below 256.  A number is
    kept as the text [String(n)] gives for it: the synthesizers never compute
    with the numbers of a document, they only coerce them to strings.

    An object lists its own enumerable properties in property order (array
    indices ascending, then the other keys in insertion order), which is the
    order of [Object.keys] and [Object.entries].  An object literal and a
    spread define their properties ([js_set]); an assignment [o[k] = v] to an
    object made with [{}] does the same but for the key [__proto__], which
    names the accessor of [Object.prototype] and creates no own property
    ([js_assign]).  The prototype such an assignment installs is not kept:
    the properties the code enumerates are own properties, and it reads a
    property of such an object by name only in [pickTitleProperty].

    [getReference(context, node)?.target] of tool-json is the [target] carried
    by an object: the node a registered [$ref] of that object resolved to.
    Objects built by the code itself carry no reference.  A value is a finite
    tree: a schema that reaches itself through its references has no value
    here. *)
Module JS.

Inductive value : Type :=
| JUndefined
| JNull
| JBool (b : bool)
| JNum (repr : string)
| JStr (s : string)
| JArr (items : list value)
| JObj (props : list (string * value)) (target : option value).

(** *** Strings *)

Definition isDigit (c : ascii) : bool :=
  let n := N_of_ascii c in ((48 <=? n) && (n <=? 57))%N.

Definition isLower (c : ascii) : bool :=
  let n := N_of_ascii c in ((97 <=? n) && (n <=? 122))%N.

Definition isUpper (c : ascii) : bool :=
  let n := N_of_ascii c in ((65 <=? n) && (n <=? 90))%N.

Fixpoint mapChars (f : ascii -> ascii) (s : string) : string :=
  match s with
  | EmptyString => EmptyString
  | String c r => String (f c) (mapChars f r)
  end.

(** [s.toUpperCase()], on the letters a-z. *)
Definition toUpperCase (s : string) : string :=
  mapChars (fun c => if isLower c then ascii_of_N (N_of_ascii c - 32) else c) s.

(** [s.includes(c)] for a one-character needle. *)
Fixpoint includesChar (c : ascii) (s : string) : bool :=
  match s with
  | EmptyString => false
  | String d r => if Ascii.eqb d c then true else includesChar c r
  end.

(** [s.startsWith(p)]. *)
Definition startsWith (p s : string) : bool := String.prefix p s.

(** [parts.join(sep)] on strings. *)
Fixpoint join (sep : string) (parts : list string) : string :=
  match parts with
  | [] => ""
  | [p] => p
  | p :: rest => p +:+ sep +:+ join sep rest
  end.

Fixpoint digitsValue (acc : N) (s : string) : option N :=
  match s with
  | EmptyString => Some acc
  | String c r =>
      if isDigit c then digitsValue (acc * 10 + (N_of_ascii c - 48))%N r
      else None
  end.

(** An array index is the canonical decimal text of an integer below
    [2^32 - 1]. *)
Definition arrayIndex (k : string) : option N :=
  match k with
  | EmptyString => None
  | _ =>
      match digitsValue 0 k with
      | Some n =>
          if (String.eqb (pretty n) k && (n <? 4294967295)%N)%bool
          then Some n else None
      | None => None
      end
  end.

(** *** Objects as ordered property lists *)
Section Props.
Context {A : Type}.

Fixpoint js_get (k : string) (o : list (string * A)) : option A :=
  match o with
  | [] => None
  | (k', v) :: r => if String.eqb k' k then Some v else js_get k r
  end.

Definition js_has (k : string) (o : list (string * A)) : bool :=
  match js_get k o with Some _ => true | None => false end.

Fixpoint js_replace (k : string) (v : A) (o : list (string * A))
  : list (string * A) :=
  match o with
  | [] => []
  | (k', v') :: r =>
      if String.eqb k' k then (k', v) :: r else (k', v') :: js_replace k v r
  end.

Fixpoint js_insertIndex (n : N) (k : string) (v : A) (o : list (string * A))
  : list (string * A) :=
  match o with
  | [] => [(k, v)]
  | (k', v') :: r =>
      match arrayIndex k' with
      | Some n' =>
          if (n' <? n)%N then (k', v') :: js_insertIndex n k v r
          else (k, v) :: (k', v') :: r
      | None => (k, v) :: (k', v') :: r
      end
  end.

(** [o[k] = v]: an existing property keeps its place, a new array index
    goes among the indices, any other new key goes last. *)
Definition js_set (k : string) (v : A) (o : list (string * A))
  : list (string * A) :=
  if js_has k o then js_replace k v o
  else match arrayIndex k with
       | Some n => js_insertIndex n k v o
       | None => o ++ [(k, v)]
       end.

(** [o[k] = v] on an object the code created with [{}]: as above, except
    that [__proto__] names the accessor inherited from [Object.prototype], so
    that the assignment creates no own property. *)
Definition js_assign (k : string) (v : A) (o : list (string * A))
  : list (string * A) :=
  if String.eqb k "__proto__" then o else js_set k v o.

Definition js_keys (o : list (string * A)) : list string := map fst o.
End Props.

(** [v.k] for a property name [k] that is neither an index nor [length]
    (the names the code reads: type, title, items, ...), on a value that is
    not null or undefined. *)
Definition prop (k : string) (v : value) : value :=
  match v with
  | JObj props _ => match js_get k props with Some x => x | None => JUndefined end
  | _ => JUndefined
  end.

(** [Array.isArray(v)]. *)
Definition isArray (v : value) : bool :=
  match v with JArr _ => true | _ => false end.

Fixpoint indexed {A : Type} (i : N) (l : list A) : list (string * A) :=
  match l with
  | [] => []
  | x :: r => (pretty i, x) :: indexed (N.succ i) r
  end.

Fixpoint chars (s : string) : list value :=
  match s with
  | EmptyString => []
  | String c r => JStr (String c EmptyString) :: chars r
  end.

(** The own enumerable properties copied by a spread [{...v}]. *)
Definition ownProps (v : value) : list (string * value) :=
  match v with
  | JObj props _ => props
  | JArr items => indexed 0 items
  | JStr s => indexed 0 (chars s)
  | _ => []
  end.

(** The coercion applied by [+] with a string operand; [None] when it throws
    a [TypeError]: an object with an own property [toString] has no callable
    conversion left. *)
Fixpoint toString (v : value) : option string :=
  match v with
  | JUndefined => Some "undefined"
  | JNull => Some "null"
  | JBool true => Some "true"
  | JBool false => Some "false"
  | JNum repr => Some repr
  | JStr s => Some s
  | JArr items =>
      match (fix each (l : list value) : option (list string) :=
               match l with
               | [] => Some []
               | x :: r =>
                   match match x with
                         | JUndefined | JNull => Some ""
                         | _ => toString x
                         end with
                   | Some s =>
                       match each r with
                       | Some parts => Some (s :: parts)
                       | None => None
                       end
                   | None => None
                   end
               end) items with
      | Some parts => Some (join "," parts)
      | None => None
      end
  | JObj props _ => if js_has "toString" props then None else Some "[object Object]"
  end.

(** The nesting depth of a value, reference targets included. *)
Fixpoint height (v : value) : nat :=
  match v with
  | JArr items => S (fold_right (fun x h => Nat.max (height x) h) 0 items)
  | JObj props target =>
      S (Nat.max
           (fold_right (fun entry h => Nat.max (height (snd entry)) h) 0 props)
           (match target with Some t => height t | None => 0 end))
  | _ => 0
  end.

(** An object literal built by the code. *)
Definition obj (props : list (string * value)) : value := JObj props None.

End JS.

(** ** OpenAPI 3.1 objects ([src/3.1/*.ts])

    The interfaces of the validated document, with the fields the document
    graph and the synthesizers read.  A parameter, request body or response
    stands for the node [traverseReference] of tool-json ends at, which is why
    a parameter may lack its name and location.  A map of the document
    ([content], [responses], [variables]) lists its entries in
    [Object.entries] order. *)
Module OpenApi31.
Import JS.

Record ServerVariableObject := {
  sv_default : option string;
}.

Record ServerObject := {
  server_url : string;
  server_variables : option (list (string * ServerVariableObject));
}.

Record ParameterObject := {
  param_name : option string;
  param_in : option string;
  param_description : option string;
  param_required : option bool;
  param_schema : value;
}.

Record MediaTypeObject := {
  media_schema : value;
}.

Record RequestBodyObject := {
  body_description : option string;
  body_content : option (list (string * MediaTypeObject));
  body_required : option bool;
}.

Record ResponseObject := {
  response_content : option (list (string * MediaTypeObject));
}.

Record OperationObject := {
  op_summary : option string;
  op_description : option string;
  op_operationId : option string;
  op_parameters : option (list ParameterObject);
  op_requestBody : option RequestBodyObject;
  op_responses : option (list (string * ResponseObject));
  op_servers : option (list ServerObject);
}.

(** A path item: [pi_methods] are its operation-valued properties in property
    order (every other property of a validated path item, [parsePathItemField],
    has a key outside [OPERATIONS]); [pi_target] is the path item its [$ref]
    resolved to.  Resolution chains are finite. *)
Inductive PathItemObject := {
  pi_methods : list (string * OperationObject);
  pi_servers : option (list ServerObject);
  pi_parameters : option (list ParameterObject);
  pi_target : option PathItemObject;
}.

Record OpenApiObject := {
  api_servers : option (list ServerObject);
}.

End OpenApi31.

(** ** The document graph ([src/api.ts]) *)
Module Api.
Import JS OpenApi31.

Record ApiPathItem := {
  pathItem_key : string;
  pathItem_node : PathItemObject;
  pathItem_api : OpenApiObject;
}.

Record ApiOperation := {
  key : string;
  node : OperationObject;
  pathItem : ApiPathItem;
}.

(** [ApiPathItem.resolved]. *)
Definition resolved (p : ApiPathItem) : option ApiPathItem :=
  match pi_target (pathItem_node p) with
  | Some t => Some {| pathItem_key := pathItem_key p;
                      pathItem_node := t;
                      pathItem_api := pathItem_api p |}
  | None => None
  end.

(** [ApiPathItem.servers]: [this.node.servers ?? this.resolved?.servers]. *)
Fixpoint nodeServers (n : PathItemObject) : option (list ServerObject) :=
  match n with
  | Build_PathItemObject _ servers _ target =>
      match servers with
      | Some l => Some l
      | None => match target with
                | Some t => nodeServers t
                | None => None
                end
      end
  end.

Definition pathItemServers (p : ApiPathItem) : option (list ServerObject) :=
  nodeServers (pathItem_node p).

(** [ApiPathItem.parameters]. *)
Fixpoint nodeParameters (n : PathItemObject) : option (list ParameterObject) :=
  match n with
  | Build_PathItemObject _ _ parameters target =>
      match parameters with
      | Some l => Some l
      | None => match target with
                | Some t => nodeParameters t
                | None => None
                end
      end
  end.

Definition pathItemParameters (p : ApiPathItem) : option (list ParameterObject) :=
  nodeParameters (pathItem_node p).

Definition OPERATIONS : list string :=
  ["get"; "put"; "post"; "delete"; "options"; "head"; "patch"; "trace"].

(** [key in OPERATIONS]. *)
Definition inOPERATIONS (k : string) : bool :=
  existsb (String.eqb k) OPERATIONS.

(** The [for] loop of [operations] over the entries of one node. *)
Fixpoint scanEntries (this : ApiPathItem) (entries : list (string * OperationObject))
    (seen : gset string) : list ApiOperation * gset string :=
  match entries with
  | [] => ([], seen)
  | (k, v) :: rest =>
      if negb (inOPERATIONS k) || bool_decide (k ∈ seen)
      then scanEntries this rest seen
      else
        let '(ops, seen') := scanEntries this rest ({[ k ]} ∪ seen) in
        ({| key := k; node := v; pathItem := this |} :: ops, seen')
  end.

(** The [do ... while] loop of [operations] along the resolution chain. *)
Fixpoint operationsFrom (this : ApiPathItem) (n : PathItemObject)
    (seen : gset string) : list ApiOperation :=
  match n with
  | Build_PathItemObject methods _ _ target =>
      let '(ops, seen') := scanEntries this methods seen in
      ops ++ match target with
             | Some t => operationsFrom this t seen'
             | None => []
             end
  end.

(** The node behind the getters [get], [put], ..., [trace] of [ApiPathItem]:
    the node's own operation under the key, else the one of [resolved]. *)
Fixpoint operationAt (k : string) (n : PathItemObject) : option OperationObject :=
  match n with
  | Build_PathItemObject methods _ _ target =>
      match js_get k methods with
      | Some v => Some v
      | None => match target with
                | Some t => operationAt k t
                | None => None
                end
      end
  end.

(** [ApiPathItem.operations()]. *)
Definition operations (this : ApiPathItem) : list ApiOperation :=
  operationsFrom this (pathItem_node this) ∅.

(** [ApiOperation.method]. *)
Definition method (o : ApiOperation) : string := toUpperCase (key o).

(** [ApiOperation.path]. *)
Definition path (o : ApiOperation) : string := pathItem_key (pathItem o).

(** [ApiOperation.operationId]. *)
Definition operationId (o : ApiOperation) : option string := op_operationId (node o).

(** [ApiOperation.parameters]. *)
Definition parameters (o : ApiOperation) : option (list ParameterObject) :=
  op_parameters (node o).

(** [ApiOperation.servers]. *)
Definition servers (o : ApiOperation) : option (list ServerObject) :=
  op_servers (node o).

(** [ApiOperation.api.servers]. *)
Definition apiServers (o : ApiOperation) : option (list ServerObject) :=
  api_servers (pathItem_api (pathItem o)).

(** [a === b] on [string | undefined]. *)
Definition sameText (a b : option string) : bool :=
  match a, b with
  | Some x, Some y => String.eqb x y
  | None, None => true
  | _, _ => false
  end.

(** The pair by which parameters are told apart. *)
Definition paramKey (parameter : ParameterObject) : option string * option string :=
  (param_name parameter, param_in parameter).

(** [hasParameter(parameters, name, location)]. *)
Fixpoint hasParameter (parameters : list ParameterObject)
    (name location : option string) : bool :=
  match parameters with
  | [] => false
  | parameter :: rest =>
      if sameText (param_name parameter) name
         && sameText (param_in parameter) location
      then true
      else hasParameter rest name location
  end.

(** The loop of [allParameters] over the path item parameters. *)
Fixpoint includePathItemParameters (parameters inherited : list ParameterObject)
    : list ParameterObject :=
  match inherited with
  | [] => parameters
  | parameter :: rest =>
      if hasParameter parameters (param_name parameter) (param_in parameter)
      then includePathItemParameters parameters rest
      else includePathItemParameters (parameters ++ [parameter]) rest
  end.

(** [ApiOperation.allParameters]. *)
Definition allParameters (o : ApiOperation) : list ParameterObject :=
  let direct := match parameters o with Some ps => ps | None => [] end in
  match pathItemParameters (pathItem o) with
  | Some inherited => includePathItemParameters direct inherited
  | None => direct
  end.

End Api.

(** ** Results of calls and external collaborators *)
Module Run.
Import JS.

(** What the code throws: [ApiError] of [src/error.ts], or the [TypeError] of
    the runtime. *)
Inductive error :=
| ApiError (message : string)
| TypeError.

(** A call returns, throws, or exhausts the fuel of the model. *)
Inductive outcome (A : Type) :=
| Returned (a : A)
| Thrown (e : error)
| OutOfFuel.
Arguments Returned {A} a.
Arguments Thrown {A} e.
Arguments OutOfFuel {A}.

Definition bind {A B : Type} (m : outcome A) (k : A -> outcome B) : outcome B :=
  match m with
  | Returned a => k a
  | Thrown e => Thrown e
  | OutOfFuel => OutOfFuel
  end.

(** The query syntax of tool-query, which [formatQuery] prints. *)
Inductive Selector :=
| NameSelector (name : string)
| WildcardSelector.

Inductive Segment :=
| ChildSegment (selectors : list Selector).

Definition Query := list Segment.

Record TreeShakeResult := {
  roots : list value;
  defs : value;
}.

(** The functions of tool-json, tool-uri and tool-query the synthesizers call.
    Whether [isObject] of tool-json accepts an array is left open. *)
Record Collaborators := {
  arraysAreObjects : bool;
  treeShakeReferences :
    list value -> string -> option (value -> value) -> TreeShakeResult;
  expandUriTemplate : string -> (string -> option string) -> string;
  formatQuery : Query -> string;
}.

(** [isObject(v)] of tool-json. *)
Definition isObject (E : Collaborators) (v : value) : bool :=
  match v with
  | JObj _ _ => true
  | JArr _ => arraysAreObjects E
  | _ => false
  end.

End Run.

#[global] Instance outcome_bind : MBind Run.outcome := fun _ _ k m => Run.bind m k.

(** ** The request template synthesizer ([src/handle/request.ts]) *)
Module Request.
Import JS OpenApi31 Api Run.

Record ApiHandleRequestOptions := {
  server : option ServerObject;
  transform : option (value -> value);
}.

Record ApiHandleRequest := {
  parameters : value;
  request : value;
}.

(** The variables the parameter loop updates. *)
Record Collected := {
  required : option (list value);
  query : option (list (string * value));
  headers : option (list (string * value));
  cookies : option (list (string * value));
  body : option value;
  paramIndex : list (string * nat);
  schemaRoots : list value;
}.

Definition start : Collected :=
  {| required := None; query := None; headers := None; cookies := None;
     body := None; paramIndex := []; schemaRoots := [] |}.

(** [parameter.name!] as a property key and as a value. *)
Definition nameKey (parameter : ParameterObject) : string :=
  match param_name parameter with Some s => s | None => "undefined" end.

Definition nameValue (parameter : ParameterObject) : value :=
  match param_name parameter with Some s => JStr s | None => JUndefined end.

(** [{ ...schema, description }]. *)
Definition withDescription (schema : value) (description : option string) : value :=
  match description with
  | Some d => obj (js_set "description" (JStr d) (ownProps schema))
  | None => schema
  end.

(** [slots ??= {}; slots[name] = { $: name }]. *)
Definition addSlot (parameter : ParameterObject)
    (slots : option (list (string * value))) : option (list (string * value)) :=
  Some (js_assign (nameKey parameter) (obj [("$", nameValue parameter)])
          (match slots with Some o => o | None => [] end)).

(** [required ??= []; required.push(x)]. *)
Definition pushRequired (x : value) (required : option (list value))
    : option (list value) :=
  Some (match required with Some l => l | None => [] end ++ [x]).

Definition locationIs (parameter : ParameterObject) (location : string) : bool :=
  sameText (param_in parameter) (Some location).

Section WithCollaborators.
Context (E : Collaborators).

(** One turn of the loop over [operation.allParameters]. *)
Definition collectParameter (st : Collected) (parameter : ParameterObject)
    : Collected :=
  if negb (isObject E (param_schema parameter)) then st
  else
    let parameterSchema :=
      withDescription (param_schema parameter) (param_description parameter) in
    let '(query', headers', cookies') :=
      if locationIs parameter "query"
      then (addSlot parameter (query st), headers st, cookies st)
      else if locationIs parameter "header"
      then (query st, addSlot parameter (headers st), cookies st)
      else if locationIs parameter "path"
      then (query st, headers st, cookies st)
      else if locationIs parameter "cookie"
      then (query st, headers st, addSlot parameter (cookies st))
      else (query st, headers st, cookies st) in
    let required' :=
      match param_required parameter with
      | Some true => pushRequired (nameValue parameter) (required st)
      | _ => required st
      end in
    {| required := required';
       query := query';
       headers := headers';
       cookies := cookies';
       body := body st;
       paramIndex :=
         js_assign (nameKey parameter) (length (schemaRoots st)) (paramIndex st);
       schemaRoots := schemaRoots st ++ [parameterSchema] |}.

Definition collectParameters (ps : list ParameterObject) : Collected :=
  fold_left collectParameter ps start.

(** The [while] loop choosing the body key, from the key and index it has
    reached. *)
Fixpoint chooseBodyKey (fuel : nat) (index : list (string * nat))
    (bodyKey : string) (next : N) : option string :=
  if js_has bodyKey index then
    match fuel with
    | O => None
    | S fuel' => chooseBodyKey fuel' index ("body" +:+ pretty next) (next + 1)%N
    end
  else Some bodyKey.

(** The encoding of a supported media type. *)
Definition encodingOf (mediaType : string) : option string :=
  if String.eqb mediaType "application/json" then Some "json"
  else if String.eqb mediaType "application/x-www-form-urlencoded"
       then Some "urlencoded"
  else if String.eqb mediaType "multipart/form-data" then Some "multipart"
  else None.

(** The loop over [requestBody.content]: the body template and the schema of
    the content type it stops at. *)
Fixpoint selectContent (bodyKey : string) (description : option string)
    (content : list (string * MediaTypeObject)) : option (value * value) :=
  match content with
  | [] => None
  | (mediaType, contentType) :: rest =>
      if negb (isObject E (media_schema contentType))
      then selectContent bodyKey description rest
      else
        let contentSchema := withDescription (media_schema contentType) description in
        match encodingOf mediaType with
        | Some encode =>
            Some (obj [("$", JStr bodyKey); ("encode", JStr encode)], contentSchema)
        | None => selectContent bodyKey description rest
        end
  end.

(** The request body step. *)
Definition collectBody (st : Collected) (requestBody : option RequestBodyObject)
    : outcome Collected :=
  match requestBody with
  | None => Returned st
  | Some rb =>
      match chooseBodyKey (S (length (paramIndex st))) (paramIndex st) "body" 1 with
      | None => OutOfFuel
      | Some bodyKey =>
          match selectContent bodyKey (body_description rb)
                  (match body_content rb with Some c => c | None => [] end) with
          | None => Returned st
          | Some (template, contentSchema) =>
              Returned
                {| required :=
                     match body_required rb with
                     | Some true => pushRequired (JStr bodyKey) (required st)
                     | _ => required st
                     end;
                   query := query st;
                   headers := headers st;
                   cookies := cookies st;
                   body := Some template;
                   paramIndex :=
                     js_assign bodyKey (length (schemaRoots st)) (paramIndex st);
                   schemaRoots := schemaRoots st ++ [contentSchema] |}
          end
      end
  end.

(** [result.roots[index]!]. *)
Definition rootAt (result : TreeShakeResult) (index : nat) : value :=
  nth index (roots result) JUndefined.

(** The loop over [Object.entries(paramIndex)] building [properties]. *)
Definition buildProperties (result : TreeShakeResult) (index : list (string * nat))
    : option (list (string * value)) :=
  fold_left
    (fun properties entry =>
       Some (js_assign (fst entry) (rootAt result (snd entry))
               (match properties with Some o => o | None => [] end)))
    index None.

(** [operation.servers ?? operation.pathItem.servers ?? operation.api.servers]. *)
Definition declaredServers (operation : ApiOperation) : option (list ServerObject) :=
  match Api.servers operation with
  | Some l => Some l
  | None =>
      match pathItemServers (pathItem operation) with
      | Some l => Some l
      | None => apiServers operation
      end
  end.

(** [options?.server]. *)
Definition optionServer (options : option ApiHandleRequestOptions)
    : option ServerObject :=
  match options with Some o => server o | None => None end.

(** Server selection. *)
Definition selectServer (operation : ApiOperation)
    (options : option ApiHandleRequestOptions) : outcome ServerObject :=
  match optionServer options with
  | Some s => Returned s
  | None =>
      match declaredServers operation with
      | None => Thrown (ApiError "No servers defined for operation")
      | Some [] => Thrown (ApiError "No servers defined for operation")
      | Some (s :: _) => Returned s
      end
  end.

(** Expansion of the server URL with the defaults of its variables. *)
Definition expandServerUrl (s : ServerObject) : string :=
  match server_variables s with
  | Some variables =>
      expandUriTemplate E (server_url s)
        (fun varname =>
           match js_get varname variables with
           | Some variable => sv_default variable
           | None => None
           end)
  | None => server_url s
  end.

(** The loop over [Object.keys(query)]: a comma goes before a name only once
    [vars] is no longer empty. *)
Definition queryVars (names : list string) : string :=
  fold_left
    (fun vars name =>
       (if negb (String.length vars =? 0)%nat then vars +:+ "," else vars)
       +:+ name)
    names "".

(** The URL template: server URL, path and query expansion. *)
Definition requestUrl (serverUrl path : string)
    (query : option (list (string * value))) : string :=
  let url := serverUrl +:+ path in
  match query with
  | Some q =>
      let vars := queryVars (js_keys q) in
      if includesChar "?" url then url +:+ "{&" +:+ vars +:+ "}"
      else url +:+ "{?" +:+ vars +:+ "}"
  | None => url
  end.

(** The returned object. *)
Definition assemble (operation : ApiOperation) (st : Collected)
    (result : TreeShakeResult) (url : string) : ApiHandleRequest :=
  {| parameters :=
       obj ([("type", JStr "object")]
            ++ match buildProperties result (paramIndex st) with
               | Some properties => [("properties", obj properties)]
               | None => []
               end
            ++ match required st with
               | Some l => [("required", JArr l)]
               | None => []
               end
            ++ match defs result with
               | JUndefined => []
               | d => [("$defs", d)]
               end);
     request :=
       obj ([("method", JStr (method operation));
             ("url", obj [("$uri", JStr url)])]
            ++ match headers st with
               | Some h => [("headers", obj h)]
               | None => []
               end
            ++ match body st with
               | Some b => [("body", b)]
               | None => []
               end) |}.

(** [generateApiHandleRequest(operation, options)]. *)
Definition generateApiHandleRequest (operation : ApiOperation)
    (options : option ApiHandleRequestOptions) : outcome ApiHandleRequest :=
  st ← collectBody (collectParameters (allParameters operation))
         (op_requestBody (node operation));
  let result :=
    treeShakeReferences E (schemaRoots st) "#/$defs"
      (match options with Some o => transform o | None => None end) in
  selected ← selectServer operation options;
  let url := requestUrl (expandServerUrl selected) (path operation) (query st) in
  Returned (assemble operation st result url).

End WithCollaborators.
End Request.

(** ** The schema-to-template engine ([src/handle/schema.ts]) *)
Module Schema.
Import JS Run.

(** The state threaded through the engine.  Its [response] and [operation]
    fields are carried along and never read. *)
Record ApiSchemaState := {
  varname : string;
  depth : Z;
}.

(** [a ?? b]. *)
Definition orElse (a b : value) : value :=
  match a with
  | JUndefined | JNull => b
  | _ => a
  end.

(** [types.includes("string")]. *)
Definition includesString (types : list value) : bool :=
  existsb (fun t => match t with JStr s => String.eqb s "string" | _ => false end)
    types.

(** [v === text] for a string literal [text]. *)
Definition isText (text : string) (v : value) : bool :=
  match v with JStr s => String.eqb s text | _ => false end.

(** [v !== undefined]. *)
Definition isDefined (v : value) : bool :=
  match v with JUndefined => false | _ => true end.

(** [Object.entries(v)]. *)
Definition entries (v : value) : outcome (list (string * value)) :=
  match v with
  | JUndefined | JNull => Thrown TypeError
  | _ => Returned (ownProps v)
  end.

(** [{ ...base, ...v }] on top of the properties [base]. *)
Definition spreadOver (base : list (string * value)) (v : value)
    : list (string * value) :=
  fold_left (fun o entry => js_set (fst entry) (snd entry) o) (ownProps v) base.

Fixpoint beforeNewline (s : string) : string :=
  match s with
  | EmptyString => EmptyString
  | String c r => if Ascii.eqb c "010" then EmptyString else String c (beforeNewline r)
  end.

Fixpoint beforeNewlineItem (items : list value) : list value :=
  match items with
  | [] => []
  | x :: r =>
      if isText (String "010" EmptyString) x then [] else x :: beforeNewlineItem r
  end.

(** [firstLine(text)]: [indexOf] and [slice] exist on strings and arrays. *)
Definition firstLine (text : value) : outcome value :=
  match text with
  | JUndefined => Returned JUndefined
  | JStr s => Returned (JStr (beforeNewline s))
  | JArr items => Returned (JArr (beforeNewlineItem items))
  | _ => Thrown TypeError
  end.

(** The title or description kept by one turn of the loop of
    [traverseSchemaReference]: the one seen first. *)
Definition noteText (isObj : value -> bool) (name : string) (seen : option string)
    (schema : value) : option string :=
  match seen, isObj schema, prop name schema with
  | None, true, JStr text => Some text
  | _, _, _ => seen
  end.

(** [{ ...props, title, description }], for the ones that are defined. *)
Definition annotate (title description : option string)
    (props : list (string * value)) : list (string * value) :=
  let copy := match title with
              | Some t => js_set "title" (JStr t) props
              | None => props
              end in
  match description with
  | Some d => js_set "description" (JStr d) copy
  | None => copy
  end.

(** [traverseSchemaReference], from the title and description collected so
    far. *)
Fixpoint traverseFrom (isObj : value -> bool) (title description : option string)
    (schema : value) : value :=
  let title := noteText isObj "title" title schema in
  let description := noteText isObj "description" description schema in
  match schema with
  | JObj _ (Some target) => traverseFrom isObj title description target
  | _ => obj (annotate title description (ownProps schema))
  end.

Section WithCollaborators.
Context (E : Collaborators).

Definition isStringSchema (schema : value) : bool :=
  isObject E schema
  && (isText "string" (prop "type" schema)
      || match prop "type" schema with
         | JArr types => includesString types
         | _ => false
         end).

Definition isArraySchema (schema : value) : bool :=
  isObject E schema
  && (isText "array" (prop "type" schema) || isDefined (prop "items" schema)).

Definition isObjectSchema (schema : value) : bool :=
  isObject E schema
  && (isText "object" (prop "type" schema)
      || isObject E (prop "properties" schema)).

Definition traverseSchemaReference (schema : value) : value :=
  traverseFrom (isObject E) None None schema.

(** The loop of [resolveAllOfSchema] over the members still to visit, with
    [resolve] standing for [resolveSchema]. *)
Fixpoint mergeMembers (resolve : value -> outcome value) (schema : value)
    (title description : option string) (properties : list (string * value))
    (members : list value) : outcome value :=
  match members with
  | [] =>
      Returned
        (obj ([("type", JStr "object")]
              ++ match title with Some t => [("title", JStr t)] | None => [] end
              ++ match description with
                 | Some d => [("description", JStr d)]
                 | None => []
                 end
              ++ [("properties", obj properties)]))
  | member :: rest =>
      memberSchema ← resolve member;
      if negb (isObjectSchema memberSchema) then Returned schema
      else
        let title' :=
          match title, prop "title" memberSchema with
          | None, JStr t => Some t
          | _, _ => title
          end in
        let description' :=
          match description, prop "description" memberSchema with
          | None, JStr d => Some d
          | _, _ => description
          end in
        properties' ←
          (if isDefined (prop "properties" memberSchema)
           then
             declared ← entries (prop "properties" memberSchema);
             Returned (fold_left (fun o entry => js_assign (fst entry) (snd entry) o)
                         declared properties)
           else Returned properties);
        mergeMembers resolve schema title' description' properties' rest
  end.

Definition resolveAllOfWith (resolve : value -> outcome value) (schema : value)
    : outcome value :=
  if negb (isObject E schema) then Returned schema
  else
    match prop "allOf" schema with
    | JArr members => mergeMembers resolve schema None None [] members
    | _ => Returned schema
    end.

(** [resolveSchema(context, schema)]; one unit of fuel per call. *)
Fixpoint resolveSchema (fuel : nat) (schema : value) : outcome value :=
  match fuel with
  | O => OutOfFuel
  | S fuel' =>
      resolveAllOfWith (resolveSchema fuel') (traverseSchemaReference schema)
  end.

(** [resolveAllOfSchema(context, schema)]. *)
Definition resolveAllOfSchema (fuel : nat) (schema : value) : outcome value :=
  resolveAllOfWith (resolveSchema fuel) schema.

Definition currentQuery (state : ApiSchemaState) : string :=
  formatQuery E [ChildSegment [NameSelector (varname state)]].

Definition childrenQuery (state : ApiSchemaState) : string :=
  formatQuery E [ChildSegment [NameSelector (varname state)];
                 ChildSegment [WildcardSelector]].

Definition childQuery (state : ApiSchemaState) (name : string) : string :=
  formatQuery E [ChildSegment [NameSelector (varname state)];
                 ChildSegment [NameSelector name]].

(** The fenced JSON block bound to the current path. *)
Definition jsonBlock (state : ApiSchemaState) : value :=
  obj [("$lang", JStr "json");
       ("$code", obj [("$encode", JStr "json");
                      ("$indent", JBool true);
                      ("$content", obj [("$", JStr (currentQuery state))])])].

Definition generateFallbackTemplate (state : ApiSchemaState) (schema : value)
    : value :=
  jsonBlock state.

(** [schema.properties?.name]. *)
Definition propertyOf (name : string) (schema : value) : value :=
  match prop "properties" schema with
  | JUndefined | JNull => JUndefined
  | properties => prop name properties
  end.

Definition pickTitleProperty (schema : value) : option string * value :=
  if isStringSchema (propertyOf "title" schema)
  then (Some "title", propertyOf "title" schema)
  else if isStringSchema (propertyOf "name" schema)
  then (Some "name", propertyOf "name" schema)
  else if isStringSchema (propertyOf "id" schema)
  then (Some "id", propertyOf "id" schema)
  else (None, JUndefined).

(** The summary line of one property. *)
Definition propertySummary (propName : string) (propSchema : value)
    : outcome string :=
  let summary := "" +:+ "**" +:+ propName +:+ "**" in
  let summary :=
    match prop "description" propSchema with
    | JStr d => summary +:+ ": " +:+ beforeNewline d
    | _ => summary
    end in
  summary ←
    (if isDefined (prop "default" propSchema)
     then
       match toString (prop "default" propSchema) with
       | Some text => Returned (summary +:+ " (default: " +:+ text +:+ ")")
       | None => Thrown TypeError
       end
     else Returned summary);
  Returned
    (if (String.length summary =? 0)%nat then String "010" EmptyString
     else summary).

(** The loop of [generateKeyPropertyItems] over the properties still to
    visit, with [resolve] standing for [resolveSchema] and [nested] for the
    recursive call. *)
Fixpoint eachProperty (resolve : value -> outcome value)
    (nested : value -> outcome (list value)) (todo : list (string * value))
    (propertyItems : list value) : outcome (list value) :=
  match todo with
  | [] => Returned propertyItems
  | (propName, propSchema) :: rest =>
      propSchema ← resolve propSchema;
      if negb (isObject E propSchema)
      then eachProperty resolve nested rest propertyItems
      else
        summary ← propertySummary propName propSchema;
        subPropertyItems ←
          (if isObjectSchema propSchema then nested propSchema else Returned []);
        let propertyItem :=
          match subPropertyItems with
          | [] => JStr summary
          | _ => JArr [JStr summary; obj [("$ul", JArr subPropertyItems)]]
          end in
        eachProperty resolve nested rest (propertyItems ++ [propertyItem])
  end.

(** [generateKeyPropertyItems(context, schema)]; one unit of fuel per level
    of nesting. *)
Fixpoint generateKeyPropertyItems (fuel : nat) (schema : value)
    : outcome (list value) :=
  match fuel with
  | O => OutOfFuel
  | S fuel' =>
      if negb (isDefined (prop "properties" schema)) then Returned []
      else
        declared ← entries (prop "properties" schema);
        eachProperty (resolveSchema fuel') (generateKeyPropertyItems fuel')
          declared []
  end.

(** [["**Key properties:**", { $ul: items }]], or nothing. *)
Definition keyPropertiesBlock (keyPropertyItems : list value) : list value :=
  match keyPropertyItems with
  | [] => []
  | _ => [JStr "**Key properties:**"; obj [("$ul", JArr keyPropertyItems)]]
  end.

(** [{ ["$h" + state.depth]: title }]; the depth is an integer, 1 at the top
    and one more at each level. *)
Definition heading (state : ApiSchemaState) (title : value) : value :=
  obj [("$h" +:+ pretty (depth state), title)].

Definition generateObjectMasterTemplate (fuel : nat) (state : ApiSchemaState)
    (schema : value) : outcome value :=
  let title := orElse (prop "title" schema) (JStr "Object") in
  let description := prop "description" schema in
  keyPropertyItems ← generateKeyPropertyItems fuel schema;
  line ← firstLine title;
  Returned
    (obj [("$block",
           JArr ([heading state line]
                 ++ (if isDefined description then [description] else [])
                 ++ keyPropertiesBlock keyPropertyItems
                 ++ [jsonBlock state]))]).

Definition generateObjectElementTemplate (state : ApiSchemaState) (schema : value)
    : value :=
  let title :=
    match fst (pickTitleProperty schema) with
    | Some titleProperty => obj [("$", JStr (childQuery state titleProperty))]
    | None => JStr "Item"
    end in
  obj [("$block", JArr [heading state title; jsonBlock state])].

Definition generateElementTemplate (fuel : nat) (state : ApiSchemaState)
    (schema : value) : outcome value :=
  schema ← resolveSchema fuel schema;
  if (6 <? depth state)%Z then Returned (generateFallbackTemplate state schema)
  else if isObjectSchema schema
  then Returned (generateObjectElementTemplate state schema)
  else Returned (generateFallbackTemplate state schema).

(** [schema.title ?? (itemSchema.title !== undefined ? itemSchema.title + " list" : "List")]. *)
Definition arrayTitle (schema itemSchema : value) : outcome value :=
  match prop "title" schema with
  | JUndefined | JNull =>
      if isDefined (prop "title" itemSchema)
      then
        match toString (prop "title" itemSchema) with
        | Some text => Returned (JStr (text +:+ " list"))
        | None => Thrown TypeError
        end
      else Returned (JStr "List")
  | title => Returned title
  end.

Definition generateArrayMasterTemplate (fuel : nat) (state : ApiSchemaState)
    (schema : value) : outcome value :=
  itemSchema ← resolveSchema fuel (prop "items" schema);
  title ← arrayTitle schema itemSchema;
  let description :=
    orElse (prop "description" schema) (prop "description" itemSchema) in
  keyPropertyItems ← generateKeyPropertyItems fuel itemSchema;
  itemTemplate ←
    generateElementTemplate fuel
      {| varname := "item"; depth := depth state + 1 |} itemSchema;
  let itemTemplate :=
    if isArray itemTemplate || negb (isObject E itemTemplate)
    then obj [("$value", itemTemplate)]
    else itemTemplate in
  line ← firstLine title;
  Returned
    (obj [("$block",
           JArr ([heading state line]
                 ++ (if isDefined description then [description] else [])
                 ++ keyPropertiesBlock keyPropertyItems
                 ++ [obj (spreadOver [("$each", JStr (childrenQuery state));
                                      ("$as", JStr "item")] itemTemplate)]))]).

Definition generateMasterTemplate (fuel : nat) (state : ApiSchemaState)
    (schema : value) : outcome value :=
  schema ← resolveSchema fuel schema;
  if isArraySchema schema then generateArrayMasterTemplate fuel state schema
  else if isObjectSchema schema then generateObjectMasterTemplate fuel state schema
  else Returned (generateFallbackTemplate state schema).

(** [generateSchemaTemplate(context, state, schema)]. *)
Definition generateSchemaTemplate (fuel : nat) (state : ApiSchemaState)
    (schema : value) : outcome value :=
  content ← generateMasterTemplate fuel state schema;
  let content :=
    if isArray content || negb (isObject E content)
    then obj [("$block", content)]
    else content in
  Returned (obj (spreadOver [("$encode", JStr "markdown")] content)).

End WithCollaborators.
End Schema.

(** ** The response template synthesizer ([src/handle/responses.ts]) *)
Module Responses.
Import JS OpenApi31 Api Run Request Schema.

Record ApiHandleResponses := {
  responses : value;
}.

(** The loop over [response.content]: the schema of the first content type
    whose schema is an object. *)
Fixpoint firstObjectSchema (E : Collaborators)
    (content : list (string * MediaTypeObject)) : option value :=
  match content with
  | [] => None
  | (_, contentType) :: rest =>
      if negb (isObject E (media_schema contentType))
      then firstObjectSchema E rest
      else Some (media_schema contentType)
  end.

Section WithCollaborators.
Context (E : Collaborators).

(** The iteration of [ApiResponses] and the loop extracting the schemas. *)
Fixpoint collectResponses (todo : list (string * ResponseObject))
    (responseIndex : list (string * (nat * ResponseObject)))
    (schemaRoots : list value)
    : list (string * (nat * ResponseObject)) * list value :=
  match todo with
  | [] => (responseIndex, schemaRoots)
  | (code, response) :: rest =>
      if startsWith "x-" code then collectResponses rest responseIndex schemaRoots
      else
        match firstObjectSchema E
                (match response_content response with Some c => c | None => [] end)
        with
        | Some schema =>
            collectResponses rest
              (js_assign code (length schemaRoots, response) responseIndex)
              (schemaRoots ++ [schema])
        | None => collectResponses rest responseIndex schemaRoots
        end
  end.

(** The loop over [Object.entries(responseIndex)]. *)
Fixpoint buildResponses (fuel : nat) (result : TreeShakeResult)
    (todo : list (string * (nat * ResponseObject)))
    (responses : list (string * value)) : outcome (list (string * value)) :=
  match todo with
  | [] => Returned responses
  | (code, (index, response)) :: rest =>
      template ←
        generateSchemaTemplate E fuel {| varname := "body"; depth := 1 |}
          (rootAt result index);
      buildResponses fuel result rest (js_assign code template responses)
  end.

(** [generateApiHandleResponses(operation, options)]. *)
Definition generateApiHandleResponses (fuel : nat) (operation : ApiOperation)
    (options : option ApiHandleRequestOptions) : outcome ApiHandleResponses :=
  let '(responseIndex, schemaRoots) :=
    collectResponses
      (match op_responses (node operation) with Some r => r | None => [] end)
      [] [] in
  let result :=
    treeShakeReferences E schemaRoots "#/$defs"
      (match options with Some o => transform o | None => None end) in
  responses ← buildResponses fuel result responseIndex [];
  Returned {| responses := obj responses |}.

End WithCollaborators.
End Responses.

(** ** The handle assembler ([src/handle/generate.ts]) *)
Module Generate.
Import JS OpenApi31 Api Run Request Schema Responses.

Record ApiHandle := {
  name : string;
  description : option string;
  parameters : value;
  handler : string;
  request : value;
  responses : value;
}.

(** The characters [/[^a-zA-Z0-9_-]/] does not match. *)
Definition isNameChar (c : ascii) : bool :=
  isLower c || isUpper c || isDigit c || Ascii.eqb c "_" || Ascii.eqb c "-".

(** [name.replace(/[^a-zA-Z0-9_-]/g, "_")]. *)
Definition sanitize (name : string) : string :=
  mapChars (fun c => if isNameChar c then c else "_"%char) name.

(** [operation.operationId ?? operation.method + " " + operation.path]. *)
Definition rawName (operation : ApiOperation) : option string :=
  match operationId operation with
  | Some id => Some id
  | None => Some (method operation +:+ " " +:+ path operation)
  end.

(** The name step of [generateApiHandle]. *)
Definition handleName (operation : ApiOperation) : outcome string :=
  match rawName operation with
  | None => Thrown (ApiError "Unnamed operation")
  | Some name => Returned (sanitize name)
  end.

Section WithCollaborators.
Context (E : Collaborators).

(** [generateApiHandle(operation, options)]. *)
Definition generateApiHandle (fuel : nat) (operation : ApiOperation)
    (options : option ApiHandleRequestOptions) : outcome ApiHandle :=
  name ← handleName operation;
  let description :=
    match op_description (node operation) with
    | Some d => Some d
    | None => op_summary (node operation)
    end in
  req ← generateApiHandleRequest E operation options;
  resp ← generateApiHandleResponses E fuel operation options;
  Returned {| name := name;
              description := description;
              parameters := Request.parameters req;
              handler := "http";
              request := Request.request req;
              responses := Responses.responses resp |}.

End WithCollaborators.
End Generate.

(** ** Example documents *)
Module Examples.
Import JS OpenApi31 Api Run Request Schema.

(** A printer standing for [formatQuery]. *)
Definition printSelector (s : Selector) : string :=
  match s with
  | NameSelector name => "'" +:+ name +:+ "'"
  | WildcardSelector => "*"
  end.

Definition printQuery (q : Query) : string :=
  fold_left
    (fun text segment =>
       match segment with
       | ChildSegment selectors =>
           text +:+ "[" +:+ join "," (map printSelector selectors) +:+ "]"
       end)
    q "$".

(** Collaborators for schemas without references: the tree shaker returns
    its roots, the server URL has no variable to expand. *)
Definition plain : Collaborators :=
  {| arraysAreObjects := false;
     treeShakeReferences := fun roots _ _ => {| roots := roots; defs := JUndefined |};
     expandUriTemplate := fun url _ => url;
     formatQuery := printQuery |}.

Definition parameter (name location : string) (required : option bool)
    (schema : value) : ParameterObject :=
  {| param_name := Some name; param_in := Some location;
     param_description := None; param_required := required;
     param_schema := schema |}.

Definition operationObject (operationId : option string)
    (parameters : option (list ParameterObject))
    (requestBody : option RequestBodyObject)
    (servers : option (list ServerObject)) : OperationObject :=
  {| op_summary := None; op_description := None; op_operationId := operationId;
     op_parameters := parameters; op_requestBody := requestBody;
     op_responses := None; op_servers := servers |}.

Definition pathItemObject (methods : list (string * OperationObject))
    (parameters : option (list ParameterObject))
    (target : option PathItemObject) : PathItemObject :=
  {| pi_methods := methods; pi_servers := None; pi_parameters := parameters;
     pi_target := target |}.

Definition exampleServer : ServerObject :=
  {| server_url := "https://api.example.com"; server_variables := None |}.

Definition stringSchema : value := obj [("type", JStr "string")].
Definition integerSchema : value := obj [("type", JStr "integer")].

(** An operation [method] of the path [path] whose path item declares
    [inherited] and whose API declares [apiLevel]. *)
Definition operationOn (method path : string) (o : OperationObject)
    (inherited : option (list ParameterObject))
    (apiLevel : option (list ServerObject)) : ApiOperation :=
  {| key := method; node := o;
     pathItem := {| pathItem_key := path;
                    pathItem_node := pathItemObject [(method, o)] inherited None;
                    pathItem_api := {| api_servers := apiLevel |} |} |}.

(** The parameter [id] in [query], declared twice by the operation. *)
Definition idQuery : ParameterObject := parameter "id" "query" None stringSchema.

Definition twiceDeclared : ApiOperation :=
  operationOn "get" "/items"
    (operationObject None (Some [idQuery; idQuery]) None None)
    None (Some [exampleServer]).

(** An operation overriding one of the two parameters of its path item. *)
Definition overriding : ApiOperation :=
  operationOn "get" "/items"
    (operationObject None (Some [parameter "id" "query" (Some true) integerSchema])
       None None)
    (Some [idQuery; parameter "limit" "query" None integerSchema])
    (Some [exampleServer]).

(** An operation whose path item declares [limit] twice, then the [id] the
    operation overrides. *)
Definition shadowing : ApiOperation :=
  operationOn "get" "/items"
    (operationObject None (Some [parameter "id" "query" (Some true) integerSchema])
       None None)
    (Some [parameter "limit" "query" None integerSchema;
           parameter "limit" "query" None stringSchema;
           idQuery])
    (Some [exampleServer]).

(** A path item defining [get] and referring to one defining [get] and [post]. *)
Definition nearGet : OperationObject := operationObject (Some "near") None None None.
Definition farGet : OperationObject := operationObject (Some "far") None None None.
Definition farPost : OperationObject := operationObject (Some "post") None None None.

Definition referring : ApiPathItem :=
  {| pathItem_key := "/items";
     pathItem_node :=
       pathItemObject [("get", nearGet)] None
         (Some (pathItemObject [("get", farGet); ("post", farPost)] None None));
     pathItem_api := {| api_servers := None |} |}.


Definition objectSchema : value :=
  obj [("type", JStr "object"); ("properties", obj [("a", obj [])])].

(** A request body offering text/plain, then application/json. *)
Definition textThenJson : RequestBodyObject :=
  {| body_description := None;
     body_content :=
       Some [("text/plain", {| media_schema := objectSchema |});
             ("application/json", {| media_schema := objectSchema |})];
     body_required := Some true |}.

Definition posting : ApiOperation :=
  operationOn "post" "/items" (operationObject None None (Some textThenJson) None)
    None (Some [exampleServer]).

(** A cookie parameter and a header parameter of the same name. *)
Definition sessionCookie : ParameterObject :=
  parameter "session" "cookie" (Some true) stringSchema.

Definition sessionHeader : ParameterObject :=
  parameter "session" "header" None integerSchema.

Definition cookieThenHeader : ApiOperation :=
  operationOn "get" "/items"
    (operationObject None (Some [sessionCookie; sessionHeader]) None None)
    None (Some [exampleServer]).

(** A cookie parameter next to a query parameter of another name. *)
Definition cookieAndQuery : ApiOperation :=
  operationOn "get" "/items"
    (operationObject None (Some [sessionCookie; idQuery]) None None)
    None (Some [exampleServer]).



Definition emptyNameQuery : ApiOperation :=
  operationOn "get" "/items"
    (operationObject None
       (Some [parameter "" "query" None stringSchema;
              parameter "a" "query" None stringSchema])
       None None)
    None (Some [exampleServer]).

(** A state deeper than six levels, and two [allOf] schemas. *)
Definition deep : ApiSchemaState := {| varname := "body"; depth := 7 |}.

Definition mixed : value := obj [("allOf", JArr [objectSchema; stringSchema])].

Definition titled : value :=
  obj [("type", JStr "object"); ("title", JStr "First");
       ("properties", obj [("a", stringSchema); ("b", stringSchema)])].

Definition described : value :=
  obj [("description", JStr "Second"); ("title", JStr "Other");
       ("properties", obj [("b", integerSchema); ("c", integerSchema)])].

Definition both : value := obj [("allOf", JArr [titled; described])].





(** The operation [get] of the path [/users/{id}], without an operationId. *)
Definition getUser : ApiOperation :=
  operationOn "get" "/users/{id}" (operationObject None None None None)
    None (Some [exampleServer]).

End Examples.

(** ** Notions used to state the properties *)
Module Notions.
Import JS OpenApi31 Api Run Request Schema.

(** The content types of a request body, in document order. *)
Definition contentOf (requestBody : RequestBodyObject)
    : list (string * MediaTypeObject) :=
  match body_content requestBody with Some c => c | None => [] end.

(** A content type the body loop passes over: no object schema, or none of
    the three supported media types. *)
Definition passedOver (E : Collaborators) (entry : string * MediaTypeObject) : Prop :=
  isObject E (media_schema (snd entry)) = false
  \/ (fst entry <> "application/json"
      /\ fst entry <> "application/x-www-form-urlencoded"
      /\ fst entry <> "multipart/form-data").

Definition slotsOf (slots : option (list (string * value))) : list (string * value) :=
  match slots with Some o => o | None => [] end.

(** A query-located parameter with an object-valued schema. *)
Definition isQueryParameter (E : Collaborators) (parameter : ParameterObject) : bool :=
  isObject E (param_schema parameter) && locationIs parameter "query".

(** The parameters whose schema is collected, and the root each submits to
    the tree shaker. *)
Definition collected (E : Collaborators) (ps : list ParameterObject)
    : list ParameterObject :=
  List.filter (fun p => isObject E (param_schema p)) ps.

Definition rootOf (parameter : ParameterObject) : value :=
  withDescription (param_schema parameter) (param_description parameter).



(** The path-item parameters [allParameters] keeps: those whose name and
    location are neither those of a parameter of the operation nor those of an
    earlier parameter of the path item.  [taken] lists the keys met so far. *)
Fixpoint keptInherited (taken : list (option string * option string))
    (inherited : list ParameterObject) : list ParameterObject :=
  match inherited with
  | [] => []
  | p :: rest =>
      if bool_decide (paramKey p ∈ taken) then keptInherited taken rest
      else p :: keptInherited (paramKey p :: taken) rest
  end.









(** The names of a list, each at its first occurrence, but for those already
    [seen]. *)
Fixpoint firstOccurrences (seen names : list string) : list string :=
  match names with
  | [] => []
  | k :: rest =>
      if bool_decide (k ∈ seen) then firstOccurrences seen rest
      else k :: firstOccurrences (k :: seen) rest
  end.





(** The reference chain of a value, and its end. *)
Fixpoint chainOf (v : value) : list value :=
  v :: match v with
       | JObj _ (Some target) => chainOf target
       | _ => []
       end.

Fixpoint chainEnd (v : value) : value :=
  match v with
  | JObj _ (Some target) => chainEnd target
  | _ => v
  end.

(** The first string found under [name] in the objects of a chain. *)
Fixpoint firstText (isObj : value -> bool) (name : string) (chain : list value)
    : option string :=
  match chain with
  | [] => None
  | v :: rest =>
      match isObj v, prop name v with
      | true, JStr text => Some text
      | _, _ => firstText isObj name rest
      end
  end.

(** A call that does not throw an [ApiError]. *)
Definition noApiError {A : Type} (m : outcome A) : Prop :=
  forall message, m <> Thrown (ApiError message).

End Notions.

(** ** More of the document graph ([src/api.ts]): paths and method getters *)
Module Graph.
Import JS OpenApi31 Api.

(** The class [ApiPaths]: the raw paths node, its entries in property order,
    and the API it belongs to. *)
Record ApiPaths := {
  paths_node : option (list (string * PathItemObject));
  paths_api : OpenApiObject;
}.

(** The entries of the paths node. *)
Definition pathEntries (paths : ApiPaths) : list (string * PathItemObject) :=
  match paths_node paths with Some entries => entries | None => [] end.

(** [ApiPaths.get(template)], for a template that is an own key of the node
    or names nothing on it; a name the node inherits from [Object.prototype]
    is not a template of a document. *)
Definition pathsGet (paths : ApiPaths) (template : string) : option ApiPathItem :=
  match match paths_node paths with
        | Some entries => js_get template entries
        | None => None
        end with
  | None => None
  | Some pathItem =>
      if startsWith "x-" template then None
      else Some {| pathItem_key := template;
                   pathItem_node := pathItem;
                   pathItem_api := paths_api paths |}
  end.

(** The loop of the iterator of [ApiPaths] over the entries of the node. *)
Fixpoint pathItemsOf (api : OpenApiObject) (entries : list (string * PathItemObject))
    : list ApiPathItem :=
  match entries with
  | [] => []
  | (k, v) :: rest =>
      if startsWith "x-" k then pathItemsOf api rest
      else {| pathItem_key := k; pathItem_node := v; pathItem_api := api |}
           :: pathItemsOf api rest
  end.

(** [ApiPaths[Symbol.iterator]()]. *)
Definition pathItems (paths : ApiPaths) : list ApiPathItem :=
  match paths_node paths with
  | None => []
  | Some entries => pathItemsOf (paths_api paths) entries
  end.

(** [Api.operations()], from [this.paths]. *)
Definition apiOperations (paths : ApiPaths) : list ApiOperation :=
  flat_map operations (pathItems paths).

(** The getters [get], [put], [post], [delete], [options], [head], [patch] and
    [trace] of [ApiPathItem], for the method [m] each is written for: the
    operation of the node, else that of [resolved]. *)
Fixpoint getterFrom (m : string) (template : string) (api : OpenApiObject)
    (n : PathItemObject) : option ApiOperation :=
  match n with
  | Build_PathItemObject methods servers parameters target =>
      match js_get m methods with
      | Some v =>
          Some {| key := m; node := v;
                  pathItem := {| pathItem_key := template;
                                 pathItem_node :=
                                   Build_PathItemObject methods servers parameters
                                     target;
                                 pathItem_api := api |} |}
      | None =>
          match target with
          | Some t => getterFrom m template api t
          | None => None
          end
      end
  end.

Definition methodGetter (m : string) (this : ApiPathItem) : option ApiOperation :=
  getterFrom m (pathItem_key this) (pathItem_api this) (pathItem_node this).

End Graph.

(** ** The validators ([src/3.1/parser.ts], [src/3.1/security-requirement.ts])

    A validator returns nothing or throws an [ApiError].  The frames of
    tool-json it opens ([nestFrame]) only record where in the document an
    error lies; the model keeps the message of the error. *)
Module Parser.
Import JS Run.

(** [key ?? "value"], for the key of a property or the index of an item. *)
Definition subject (key : option string) : string :=
  match key with Some k => k | None => "value" end.

(** [parseString(context, parser, value, key)]. *)
Definition parseString (value : value) (key : option string) : outcome unit :=
  match value with
  | JStr _ => Returned tt
  | _ => Thrown (ApiError (subject key +:+ " must be a string"))
  end.

(** The loop of [parseArray] from the index [index]. *)
Fixpoint eachItem (parseItem : value -> N -> outcome unit) (items : list value)
    (index : N) : outcome unit :=
  match items with
  | [] => Returned tt
  | item :: rest =>
      match item with
      | JUndefined => eachItem parseItem rest (index + 1)
      | _ => _ ← parseItem item index; eachItem parseItem rest (index + 1)
      end
  end.

(** [parseArray(context, parser, node, name, parseItem)]. *)
Definition parseArray (node : value) (name : string)
    (parseItem : value -> N -> outcome unit) : outcome unit :=
  match node with
  | JArr items => eachItem parseItem items 0
  | _ => Thrown (ApiError (name +:+ " must be an array"))
  end.

(** The loop of [parseObject] over [Object.entries(node)]. *)
Fixpoint eachEntry (parseProperty : value -> string -> outcome unit)
    (todo : list (string * value)) : outcome unit :=
  match todo with
  | [] => Returned tt
  | (key, value) :: rest =>
      match value with
      | JUndefined => eachEntry parseProperty rest
      | _ => _ ← parseProperty value key; eachEntry parseProperty rest
      end
  end.

(** [parseObject(context, parser, node, name, parseProperty)]. *)
Definition parseObject (E : Collaborators) (node : value) (name : string)
    (parseProperty : value -> string -> outcome unit) : outcome unit :=
  if negb (isObject E node)
  then Thrown (ApiError (name +:+ " must be an object"))
  else eachEntry parseProperty (ownProps node).

(** [parseSecurityRequirementField(context, parser, value, key)]. *)
Definition parseSecurityRequirementField (value : value) (key : string)
    : outcome unit :=
  parseArray value key (fun item index => parseString item (Some (pretty index))).

(** [parseSecurityRequirementObject(context, parser, node)]. *)
Definition parseSecurityRequirementObject (E : Collaborators) (node : value)
    : outcome unit :=
  parseObject E node "Security Requirement Object" parseSecurityRequirementField.

End Parser.

(** ** More notions to state properties with *)
Module MoreNotions.
Import JS OpenApi31 Api Run Request Schema Notions.

(** [parameter.required === true]. *)
Definition isRequired (parameter : ParameterObject) : bool :=
  match param_required parameter with Some true => true | _ => false end.

(** A header-located parameter with an object-valued schema. *)
Definition isHeaderParameter (E : Collaborators) (parameter : ParameterObject) : bool :=
  isObject E (param_schema parameter) && locationIs parameter "header".

(** Some parameter whose schema is collected has the name [k]. *)
Definition named (E : Collaborators) (ps : list ParameterObject) (k : string) : Prop :=
  exists p, p ∈ collected E ps /\ nameKey p = k.

(** The candidates the body key loop tries before ["body" + n]. *)
Definition earlierCandidates (n : N) : list string :=
  "body" :: map (fun j => "body" +:+ pretty (N.of_nat j)) (seq 1 (N.to_nat n - 1)).

(** An item of the key properties list made for the property [entry]: a
    summary starting with the name of the property in bold, alone or followed
    by the list of the key properties of the resolved property, when that is
    an object schema with such items. *)
Definition keyPropertyItem (E : Collaborators) (fuel : nat)
    (entry : string * value) (item : value) : Prop :=
  exists resolved summary nested,
    resolveSchema E fuel (snd entry) = Returned resolved
    /\ String.prefix ("**" +:+ fst entry +:+ "**") summary = true
    /\ (if isObjectSchema E resolved
        then generateKeyPropertyItems E fuel resolved = Returned nested
        else nested = [])
    /\ item = match nested with
              | [] => JStr summary
              | _ => JArr [JStr summary; obj [("$ul", JArr nested)]]
              end.

(** A value in which no object carries a reference: a finite tree in the
    code as well. *)
Fixpoint referenceFree (v : value) : bool :=
  match v with
  | JArr items => forallb referenceFree items
  | JObj props None => forallb (fun entry => referenceFree (snd entry)) props
  | JObj _ (Some _) => false
  | _ => true
  end.

(** The content types of a response, in document order. *)
Definition responseContent (response : ResponseObject)
    : list (string * MediaTypeObject) :=
  match response_content response with Some c => c | None => [] end.

(** The responses a template is made for, each with the schema submitted to
    the tree shaker, in the order of submission. *)
Fixpoint responseSchemas (E : Collaborators)
    (declared : list (string * ResponseObject)) : list (string * value) :=
  match declared with
  | [] => []
  | (code, response) :: rest =>
      if startsWith "x-" code then responseSchemas E rest
      else
        match Responses.firstObjectSchema E (responseContent response) with
        | Some schema => (code, schema) :: responseSchemas E rest
        | None => responseSchemas E rest
        end
  end.

(** A list of strings, with holes: what [parseArray] with [parseString]
    accepts. *)
Definition stringList (v : value) : Prop :=
  exists items,
    v = JArr items
    /\ Forall (fun item => item = JUndefined \/ exists s, item = JStr s) items.

(** A title [firstLine] cannot take the first line of: a number, a boolean
    or an object. *)
Definition noText (title : value) : Prop :=
  match title with
  | JNum _ | JBool _ | JObj _ _ => True
  | _ => False
  end.

(** The state every response template starts from. *)
Definition responseState : ApiSchemaState := {| varname := "body"; depth := 1 |}.

End MoreNotions.

(** ** More example documents *)
Module MoreExamples.
Import JS OpenApi31 Api Run Request Schema Graph Examples.

(** A path item with parameters of its own, referring to the path item that
    defines [get] and has other parameters. *)
Definition limitQuery : ParameterObject := parameter "limit" "query" None integerSchema.

Definition referringWithParameters : ApiPathItem :=
  {| pathItem_key := "/items";
     pathItem_node :=
       pathItemObject [] (Some [idQuery])
         (Some (pathItemObject [("get", farGet)] (Some [limitQuery]) None));
     pathItem_api := {| api_servers := None |} |}.

(** Paths with an extension key between two paths. *)
(** A request body next to parameters named [body] and [body1]. *)
Definition bodyQuery : ParameterObject := parameter "body" "query" (Some true) stringSchema.

Definition body1Header : ParameterObject := parameter "body1" "header" None integerSchema.

Definition postingBody : ApiOperation :=
  operationOn "post" "/items"
    (operationObject None (Some [bodyQuery; body1Header]) (Some textThenJson) None)
    None (Some [exampleServer]).

(** A parameter without a schema, and one whose schema has a description of
    its own. *)
Definition noSchema : ParameterObject := parameter "limit" "query" (Some true) JUndefined.

Definition describedQuery : ParameterObject :=
  {| param_name := Some "id"; param_in := Some "query";
     param_description := Some "of the parameter"; param_required := None;
     param_schema := obj [("type", JStr "string"); ("description", JStr "of the schema");
                          ("format", JStr "uuid")] |}.

(** An object schema with a described property and a nested object. *)
Definition account : value :=
  obj [("type", JStr "object");
       ("title", JStr "Account");
       ("properties",
        obj [("id", obj [("type", JStr "string");
                         ("description", JStr "The identifier")]);
             ("owner", obj [("type", JStr "object");
                            ("properties", obj [("name", stringSchema)])])])].

(** An operation with two responses and an extension among them. *)
Definition listing : ApiOperation :=
  operationOn "get" "/accounts"
    {| op_summary := Some "List accounts"; op_description := None;
       op_operationId := Some "listAccounts"; op_parameters := None;
       op_requestBody := None;
       op_responses :=
         Some [("200", {| response_content :=
                            Some [("text/plain", {| media_schema := JUndefined |});
                                  ("application/xml", {| media_schema := account |})] |});
               ("x-internal", {| response_content :=
                                   Some [("application/json",
                                          {| media_schema := account |})] |});
               ("204", {| response_content := None |});
               ("default", {| response_content :=
                                Some [("application/json",
                                       {| media_schema := stringSchema |})] |})];
       op_servers := None |}
    None (Some [exampleServer]).

(** An array of accounts, and an object schema whose title is a number. *)
Definition accounts : value := obj [("type", JStr "array"); ("items", account)].

Definition numbered : value := obj [("type", JStr "object"); ("title", JNum "5")].

Definition somePaths : ApiPaths :=
  {| paths_node :=
       Some [("/items", pathItem_node referring);
             ("x-internal", pathItemObject [("get", farGet)] None None);
             ("/users", pathItemObject [("post", farPost)] None None)];
     paths_api := {| api_servers := None |} |}.

End MoreExamples.

(** * Properties *)
(** ** Property lists *)
Module JSFacts.
Import JS Notions.

Lemma append_cons c a b : String c a +:+ b = String c (a +:+ b).
Proof. reflexivity. Qed.

Lemma append_assoc (a b c : string) : (a +:+ b) +:+ c = a +:+ (b +:+ c).
Proof.
  induction a as [|x a IH]; [done |]. rewrite !append_cons. by rewrite IH.
Qed.

(** *** Characters and numerals *)










Section Props.
Context {A : Type}.
Implicit Types (o : list (string * A)) (k : string) (v : A).

Lemma js_has_keys k o : js_has k o = true <-> k ∈ js_keys o.
Proof.
  unfold js_has, js_keys. induction o as [|[k' v'] r IH]; simpl.
  - split; [discriminate | intros H; inversion H].
  - destruct (String.eqb_spec k' k) as [->|Hne].
    + split; [intros _; constructor | reflexivity].
    + rewrite IH. split; [intros H; by constructor |].
      intros H. inversion H; subst; [congruence | done].
Qed.

Lemma js_get_None k o : js_get k o = None <-> k ∉ js_keys o.
Proof.
  rewrite <- js_has_keys. unfold js_has.
  destruct (js_get k o); split; try done; intros H; by destruct H.
Qed.

Lemma js_get_In k v o : js_get k o = Some v -> (k, v) ∈ o.
Proof.
  induction o as [|[k' v'] r IH]; simpl; [discriminate |].
  destruct (String.eqb_spec k' k) as [->|Hne].
  - intros [= ->]. constructor.
  - intros H. constructor. by apply IH.
Qed.

Lemma js_get_NoDup k v o : NoDup (js_keys o) -> (k, v) ∈ o -> js_get k o = Some v.
Proof.
  unfold js_keys. induction o as [|[k' v'] r IH]; simpl; intros Hnd Hin.
  - inversion Hin.
  - apply NoDup_cons in Hnd as [Hnotin Hnd].
    destruct (String.eqb_spec k' k) as [->|Hne].
    + apply elem_of_cons in Hin as [[= ->]|Hin]; [done |].
      exfalso. apply Hnotin. change k with (fst (k, v)). by apply list_elem_of_fmap_2.
    + apply elem_of_cons in Hin as [[= -> ->]|Hin]; [done | by apply IH].
Qed.

Lemma js_keys_replace k v o : js_keys (js_replace k v o) = js_keys o.
Proof.
  unfold js_keys. induction o as [|[k' v'] r IH]; simpl; [done |].
  destruct (String.eqb k' k); simpl; by rewrite ?IH.
Qed.

Lemma js_get_replace k v o k' :
  js_get k' (js_replace k v o) =
  if String.eqb k k' then (if js_has k o then Some v else None) else js_get k' o.
Proof.
  unfold js_has. induction o as [|[k0 v0] r IH]; simpl.
  - by destruct (String.eqb k k').
  - destruct (String.eqb_spec k0 k) as [->|Hne]; simpl.
    + destruct (String.eqb_spec k k') as [->|Hne']; [done | done].
    + rewrite IH. destruct (String.eqb_spec k k') as [->|Hne'].
      * destruct (String.eqb_spec k0 k'); [congruence | done].
      * done.
Qed.

Lemma js_keys_insertIndex n k v o :
  js_keys (js_insertIndex n k v o) ≡ₚ k :: js_keys o.
Proof.
  unfold js_keys. induction o as [|[k' v'] r IH]; simpl; [done |].
  destruct (arrayIndex k') as [n'|]; [| done].
  destruct (n' <? n)%N; simpl; [| done].
  rewrite IH. apply Permutation_swap.
Qed.

Lemma js_get_insertIndex n k v o k' :
  k ∉ js_keys o ->
  js_get k' (js_insertIndex n k v o) = if String.eqb k k' then Some v else js_get k' o.
Proof.
  unfold js_keys. induction o as [|[k0 v0] r IH]; simpl; intros Hnotin.
  - done.
  - apply not_elem_of_cons in Hnotin as [Hne Hnotin].
    destruct (arrayIndex k0) as [n'|]; [destruct (n' <? n)%N |]; simpl; try done.
    rewrite (IH Hnotin).
    destruct (String.eqb_spec k0 k') as [->|]; [| done].
    destruct (String.eqb_spec k k'); [congruence | done].
Qed.

Lemma js_get_app k o1 o2 :
  js_get k (o1 ++ o2) = match js_get k o1 with Some v => Some v | None => js_get k o2 end.
Proof.
  induction o1 as [|[k' v'] r IH]; simpl; [done |]. by destruct (String.eqb k' k).
Qed.

(** The keys after an assignment. *)
Lemma js_keys_set k v o k' : k' ∈ js_keys (js_set k v o) <-> k' = k \/ k' ∈ js_keys o.
Proof.
  unfold js_set. destruct (js_has k o) eqn:Hhas.
  - rewrite js_keys_replace. apply js_has_keys in Hhas. split; [auto |].
    intros [->|H]; done.
  - destruct (arrayIndex k) as [n|].
    + rewrite js_keys_insertIndex. by rewrite elem_of_cons.
    + unfold js_keys. rewrite map_app. simpl. rewrite elem_of_app, list_elem_of_singleton.
      tauto.
Qed.

Lemma js_keys_set_NoDup k v o : NoDup (js_keys o) -> NoDup (js_keys (js_set k v o)).
Proof.
  intros Hnd. unfold js_set. destruct (js_has k o) eqn:Hhas.
  - by rewrite js_keys_replace.
  - assert (k ∉ js_keys o) as Hnotin.
    { intros H. apply js_has_keys in H. congruence. }
    destruct (arrayIndex k) as [n|].
    + rewrite js_keys_insertIndex. by constructor.
    + unfold js_keys. rewrite map_app. simpl.
      apply NoDup_app. split; [done |]. split; [| apply NoDup_singleton].
      intros x Hx Hx'. apply list_elem_of_singleton in Hx'. by subst.
Qed.

(** Reading after an assignment. *)
Lemma js_get_set k v o k' :
  js_get k' (js_set k v o) = if String.eqb k k' then Some v else js_get k' o.
Proof.
  unfold js_set. destruct (js_has k o) eqn:Hhas.
  - rewrite js_get_replace, Hhas. done.
  - assert (k ∉ js_keys o) as Hnotin.
    { intros H. apply js_has_keys in H. congruence. }
    destruct (arrayIndex k) as [n|].
    + by apply js_get_insertIndex.
    + rewrite js_get_app. simpl.
      destruct (String.eqb_spec k k') as [->|Hne].
      * apply js_get_None in Hnotin. by rewrite Hnotin.
      * by destruct (js_get k' o).
Qed.

(** Assignment on an object the code made with [{}]. *)
Lemma js_keys_assign k v o k' :
  k' ∈ js_keys (js_assign k v o)
  <-> (k' = k /\ k <> "__proto__") \/ k' ∈ js_keys o.
Proof.
  unfold js_assign. destruct (String.eqb_spec k "__proto__") as [->|Hne].
  - split; [auto |]. intros [[_ ?]|?]; done.
  - rewrite js_keys_set. split; (intros [H|H]; [left | by right]); [by subst | tauto].
Qed.

Lemma js_keys_assign_NoDup k v o :
  NoDup (js_keys o) -> NoDup (js_keys (js_assign k v o)).
Proof.
  unfold js_assign. destruct (String.eqb k "__proto__"); [done |].
  apply js_keys_set_NoDup.
Qed.

Lemma js_get_assign k v o k' :
  js_get k' (js_assign k v o)
  = if String.eqb k "__proto__" then js_get k' o
    else if String.eqb k k' then Some v else js_get k' o.
Proof.
  unfold js_assign. destruct (String.eqb k "__proto__"); [done |]. apply js_get_set.
Qed.

Lemma js_assign_nonempty k v o : o <> [] -> js_assign k v o <> [].
Proof.
  intros Hne Hnil. destruct o as [|[k0 v0] r]; [done |].
  assert (k0 ∈ js_keys (js_assign k v ((k0, v0) :: r))) as Hin.
  { apply js_keys_assign. right. constructor. }
  rewrite Hnil in Hin. inversion Hin.
Qed.

Lemma js_assign_keeps_proto_out k v o :
  "__proto__" ∉ js_keys o -> "__proto__" ∉ js_keys (js_assign k v o).
Proof. intros Hout Hin. apply js_keys_assign in Hin as [[-> ?]|?]; done. Qed.

(** *** The order of the keys *)






Lemma firstOccurrences_NoDup (names : list string) : forall seen,
  NoDup (firstOccurrences seen names)
  /\ forall x, x ∈ firstOccurrences seen names <-> x ∈ names /\ x ∉ seen.
Proof.
  induction names as [|k rest IH]; intros seen; simpl.
  - split; [constructor |]. intros x. split; [inversion 1 | intros [H _]; inversion H].
  - destruct (bool_decide_reflect (k ∈ seen)) as [Hin|Hout].
    + destruct (IH seen) as [Hnd Hmem]. split; [done |].
      intros x. rewrite Hmem, elem_of_cons. split; [tauto |].
      intros [[->|?] ?]; done.
    + destruct (IH (k :: seen)) as [Hnd Hmem]. split.
      * constructor; [| done]. rewrite Hmem, elem_of_cons. tauto.
      * intros x. rewrite !elem_of_cons, Hmem, elem_of_cons. split.
        -- intros [->|[? ?]]; [tauto |]. split; [tauto |]. tauto.
        -- intros [[->|?] ?]; [by left |].
           destruct (decide (x = k)) as [->|]; [by left |]. right. tauto.
Qed.


(** *** Assignments that change nothing *)

Lemma js_replace_same k (v : A) o :
  js_get k o = Some v -> js_replace k v o = o.
Proof.
  induction o as [|[k' v'] r IH]; simpl; [done |].
  destruct (String.eqb_spec k' k) as [->|Hne].
  - by intros [= ->].
  - intros H. by rewrite IH.
Qed.

Lemma js_set_same k (v : A) o : js_get k o = Some v -> js_set k v o = o.
Proof.
  intros H. unfold js_set, js_has. rewrite H. by apply js_replace_same.
Qed.

End Props.
End JSFacts.

(** ** The document graph *)
Module ApiFacts.
Import JS OpenApi31 Api Notions.

Lemma sameText_eq (a b : option string) : sameText a b = true <-> a = b.
Proof.
  destruct a as [x|], b as [y|]; simpl; try (split; congruence).
  rewrite String.eqb_eq. split; congruence.
Qed.

Lemma hasParameter_keys ps name location :
  hasParameter ps name location = true <-> (name, location) ∈ map paramKey ps.
Proof.
  induction ps as [|p r IH]; simpl.
  - split; [discriminate | intros H; inversion H].
  - destruct (sameText (param_name p) name && sameText (param_in p) location)
      eqn:Hsame.
    + apply andb_true_iff in Hsame as [Hn Hl].
      apply sameText_eq in Hn, Hl. subst. split; [intros _; constructor | done].
    + rewrite IH, elem_of_cons. split; [auto |]. intros [Heq|H]; [| done].
      unfold paramKey in Heq. injection Heq as -> ->.
      rewrite !(proj2 (sameText_eq _ _) eq_refl) in Hsame. discriminate.
Qed.

Lemma hasParameter_false ps name location :
  hasParameter ps name location = false <-> (name, location) ∉ map paramKey ps.
Proof.
  rewrite <- hasParameter_keys. destruct (hasParameter ps name location); split; try done;
    intros H; by destruct H.
Qed.

(** The loop over the path item parameters appends, in order, those whose
    key is not yet in the list. *)
Lemma includePathItemParameters_spec inherited : forall parameters,
  exists kept,
    includePathItemParameters parameters inherited = parameters ++ kept
    /\ sublist kept inherited
    /\ (forall p, p ∈ kept -> paramKey p ∉ map paramKey parameters)
    /\ NoDup (map paramKey kept)
    /\ (forall p, p ∈ inherited -> paramKey p ∈ map paramKey (parameters ++ kept)).
Proof.
  induction inherited as [|q rest IH]; intros parameters; simpl.
  - exists []. rewrite app_nil_r. repeat split; try done; try constructor.
    + intros p H. inversion H.
    + intros p H. inversion H.
  - destruct (hasParameter parameters (param_name q) (param_in q)) eqn:Hhas.
    + destruct (IH parameters) as (kept & Heq & Hsub & Hfresh & Hnd & Hcover).
      exists kept. repeat split; try done.
      * by apply sublist_cons.
      * intros p Hp. apply elem_of_cons in Hp as [->|Hp]; [| by apply Hcover].
        apply hasParameter_keys in Hhas. rewrite map_app, elem_of_app. by left.
    + destruct (IH (parameters ++ [q])) as (kept & Heq & Hsub & Hfresh & Hnd & Hcover).
      apply hasParameter_false in Hhas.
      exists (q :: kept). rewrite Heq, <- app_assoc. simpl. repeat split.
      * by apply sublist_skip.
      * intros p Hp. apply elem_of_cons in Hp as [->|Hp]; [done |].
        intros Hin. apply (Hfresh p Hp). rewrite map_app, elem_of_app. by left.
      * simpl. constructor; [| done].
        intros Hin. apply list_elem_of_fmap in Hin as (p & Hkey & Hp).
        apply (Hfresh p Hp). rewrite <- Hkey, map_app, elem_of_app. right.
        simpl. constructor.
      * intros p Hp. apply elem_of_cons in Hp as [->|Hp].
        -- rewrite map_app, elem_of_app. right. simpl. constructor.
        -- specialize (Hcover p Hp). by rewrite <- app_assoc in Hcover.
Qed.

Lemma keptInherited_taken inherited : forall taken taken',
  (forall key, key ∈ taken <-> key ∈ taken') ->
  keptInherited taken inherited = keptInherited taken' inherited.
Proof.
  induction inherited as [|p rest IH]; intros taken taken' Hsame; simpl; [done |].
  rewrite (bool_decide_ext (paramKey p ∈ taken) (paramKey p ∈ taken')) by apply Hsame.
  destruct (bool_decide (paramKey p ∈ taken')); [by apply IH |].
  f_equal. apply IH. intros key. rewrite !elem_of_cons, Hsame. done.
Qed.

(** The loop keeps the first path-item parameter of each key not yet taken. *)
Lemma includePathItemParameters_kept inherited : forall parameters,
  includePathItemParameters parameters inherited
  = parameters ++ keptInherited (map paramKey parameters) inherited.
Proof.
  induction inherited as [|q rest IH]; intros parameters; simpl.
  - by rewrite app_nil_r.
  - destruct (hasParameter parameters (param_name q) (param_in q)) eqn:Hhas.
    + apply hasParameter_keys in Hhas. rewrite bool_decide_true by done. apply IH.
    + apply hasParameter_false in Hhas. rewrite bool_decide_false by done.
      rewrite IH, <- app_assoc. simpl. do 2 f_equal.
      apply keptInherited_taken. intros key.
      rewrite map_app, elem_of_app, elem_of_cons. simpl.
      rewrite list_elem_of_singleton. tauto.
Qed.

(** C1 (as the code has it): [allParameters] is the operation's own
    parameters, all of them and in order, followed, in order, by exactly those
    parameters of the path item whose (name, location) is neither that of a
    parameter of the operation nor that of an earlier parameter of the path
    item: of several path-item parameters with one key the first is kept.  The
    ones kept share no key with the operation's own parameters or with each
    other, every parameter of the path item is represented by an entry of its
    key, and when the operation's own parameters have distinct keys no two
    entries of the result have the same key. *)
Theorem allParameters_operation_first (o : ApiOperation) :
  let direct := match parameters o with Some ps => ps | None => [] end in
  let inherited :=
    match pathItemParameters (pathItem o) with Some ps => ps | None => [] end in
  exists kept,
    allParameters o = direct ++ kept
    /\ kept = keptInherited (map paramKey direct) inherited
    /\ sublist kept inherited
    /\ (forall p, p ∈ kept -> hasParameter direct (param_name p) (param_in p) = false)
    /\ NoDup (map paramKey kept)
    /\ (forall p, p ∈ inherited ->
          hasParameter (allParameters o) (param_name p) (param_in p) = true)
    /\ (NoDup (map paramKey direct) -> NoDup (map paramKey (allParameters o))).
Proof.
  intros direct inherited. unfold allParameters. fold direct.
  assert (exists kept,
    includePathItemParameters direct inherited = direct ++ kept
    /\ sublist kept inherited
    /\ (forall p, p ∈ kept -> paramKey p ∉ map paramKey direct)
    /\ NoDup (map paramKey kept)
    /\ (forall p, p ∈ inherited -> paramKey p ∈ map paramKey (direct ++ kept)))
    as (kept & Heq & Hsub & Hfresh & Hnd & Hcover)
    by apply includePathItemParameters_spec.
  assert (kept = keptInherited (map paramKey direct) inherited) as Hkept.
  { rewrite includePathItemParameters_kept in Heq. by apply app_inv_head in Heq. }
  assert (match pathItemParameters (pathItem o) with
          | Some inherited => includePathItemParameters direct inherited
          | None => direct
          end = direct ++ kept) as ->.
  { subst inherited. destruct (pathItemParameters (pathItem o)); [done |].
    simpl in Heq. done. }
  exists kept. repeat split; try done.
  - intros p Hp. apply hasParameter_false. by apply Hfresh.
  - intros p Hp. apply hasParameter_keys. by apply Hcover.
  - intros Hdirect. rewrite map_app. apply NoDup_app. repeat split; try done.
    intros x Hx Hx'. apply list_elem_of_fmap in Hx' as (p & -> & Hp).
    by apply (Hfresh p Hp).
Qed.

(** The theorem at an operation overriding [id] of its path item, which
    declares [limit] twice: the result is the operation's [id] and the first
    [limit] of the path item. *)
Lemma allParameters_operation_first_witness :
  allParameters Examples.shadowing
  = [Examples.parameter "id" "query" (Some true) Examples.integerSchema;
     Examples.parameter "limit" "query" None Examples.integerSchema]
  /\ NoDup (map paramKey (allParameters Examples.shadowing)).
Proof.
  destruct (allParameters_operation_first Examples.shadowing)
    as (kept & Heq & Hkept & _ & _ & _ & _ & Hdistinct).
  split.
  - rewrite Heq, Hkept. reflexivity.
  - apply Hdistinct. simpl. apply NoDup_singleton.
Defined.

(** The operation of the specification's scenario: [id] of the operation
    replaces [id] of the path item, [limit] is inherited. *)
Example allParameters_of_overriding :
  allParameters Examples.overriding
  = [Examples.parameter "id" "query" (Some true) Examples.integerSchema;
     Examples.parameter "limit" "query" None Examples.integerSchema].
Proof. reflexivity. Qed.

(** C1 (as stated) fails: an operation declaring the same query parameter
    twice keeps both entries. *)
Lemma allParameters_keeps_repeated_declaration :
  allParameters Examples.twiceDeclared = [Examples.idQuery; Examples.idQuery]
  /\ ~ NoDup (map paramKey (allParameters Examples.twiceDeclared)).
Proof.
  split; [reflexivity |].
  intros H. simpl in H. apply NoDup_cons in H as [H _]. apply H. constructor.
Qed.

(** Induction along the resolution chain of a path item. *)
Lemma PathItemObject_chain_ind (P : PathItemObject -> Prop) :
  (forall methods servers parameters,
      P (Build_PathItemObject methods servers parameters None)) ->
  (forall methods servers parameters target,
      P target -> P (Build_PathItemObject methods servers parameters (Some target))) ->
  forall n, P n.
Proof.
  intros Hend Hstep. fix IH 1. intros [methods servers parameters [target|]].
  - apply Hstep, IH.
  - apply Hend.
Qed.

(** The loop over the entries of one node. *)
Lemma scanEntries_spec this entries : forall seen ops seen',
  scanEntries this entries seen = (ops, seen') ->
  seen' = (list_to_set (map key ops) ∪ seen)
  /\ NoDup (map key ops)
  /\ (forall o, o ∈ ops ->
        (key o ∉ seen) /\ inOPERATIONS (key o) = true /\ pathItem o = this
        /\ js_get (key o) entries = Some (node o))
  /\ (forall k v, inOPERATIONS k = true -> k ∉ seen -> js_get k entries = Some v ->
        {| key := k; node := v; pathItem := this |} ∈ ops).
Proof.
  induction entries as [|[k0 v0] rest IH]; intros seen ops seen'; simpl.
  - intros [= <- <-]. split; [set_solver |]. split; [constructor |].
    split; [intros o Ho; inversion Ho | intros k v _ _ Hget; discriminate].
  - destruct (negb (inOPERATIONS k0) || bool_decide (k0 ∈ seen)) eqn:Hskip.
    + intros Hscan. destruct (IH _ _ _ Hscan) as (Hseen & Hnd & Hsound & Hcomplete).
      assert (forall k, inOPERATIONS k = true -> k ∉ seen -> k0 <> k) as Hother.
      { intros k Hop Hfresh ->. apply orb_true_iff in Hskip as [Hskip|Hskip].
        - rewrite Hop in Hskip. discriminate.
        - apply bool_decide_eq_true in Hskip. done. }
      split; [done |]. split; [done |]. split.
      * intros o Ho. destruct (Hsound o Ho) as (Hfresh & Hop & Hthis & Hget).
        split; [done |]. split; [done |]. split; [done |].
        destruct (String.eqb_spec k0 (key o)) as [Heq|Hne]; [| done].
        exfalso. by apply (Hother (key o)).
      * intros k v Hop Hfresh Hget.
        destruct (String.eqb_spec k0 k) as [Heq|Hne]; [| by eapply Hcomplete].
        exfalso. by apply (Hother k).
    + apply orb_false_iff in Hskip as [Hop0 Hseen0].
      apply negb_false_iff in Hop0. apply bool_decide_eq_false in Hseen0.
      destruct (scanEntries this rest ({[k0]} ∪ seen)) as [ops0 seen0] eqn:Hscan.
      intros [= <- <-].
      destruct (IH _ _ _ Hscan) as (Hseen & Hnd & Hsound & Hcomplete).
      split; [simpl; set_solver |]. split.
      * simpl. constructor; [| done].
        intros Hin. apply list_elem_of_fmap in Hin as (o & Hkey & Ho).
        destruct (Hsound o Ho) as (Hfresh & _). set_solver.
      * split.
        -- intros o Ho. apply elem_of_cons in Ho as [->|Ho].
           ++ simpl. split; [done |]. split; [done |]. split; [done |].
              by rewrite String.eqb_refl.
           ++ destruct (Hsound o Ho) as (Hfresh & Hop & Hthis & Hget).
              split; [set_solver |]. split; [done |]. split; [done |].
              destruct (String.eqb_spec k0 (key o)) as [Heq|Hne]; [| done].
              exfalso. set_solver.
        -- intros k v Hop Hfresh Hget.
           destruct (String.eqb_spec k0 k) as [->|Hne].
           ++ injection Hget as ->. constructor.
           ++ apply elem_of_cons. right. apply Hcomplete; [done | set_solver | done].
Qed.

(** The walk along the chain, from any set of keys already seen. *)
Lemma operationsFrom_spec this n : forall seen,
  NoDup (map key (operationsFrom this n seen))
  /\ (forall o, o ∈ operationsFrom this n seen ->
        (key o ∉ seen) /\ inOPERATIONS (key o) = true /\ pathItem o = this
        /\ operationAt (key o) n = Some (node o))
  /\ (forall k v, inOPERATIONS k = true -> k ∉ seen -> operationAt k n = Some v ->
        {| key := k; node := v; pathItem := this |} ∈ operationsFrom this n seen).
Proof.
  induction n as [methods servers parameters|methods servers parameters target IH]
    using PathItemObject_chain_ind; intros seen; simpl;
    destruct (scanEntries this methods seen) as [ops seen'] eqn:Hscan;
    destruct (scanEntries_spec _ _ _ _ _ Hscan) as (Hseen & Hnd & Hsound & Hcomplete).
  - rewrite app_nil_r. split; [done |]. split.
    + intros o Ho. destruct (Hsound o Ho) as (Hfresh & Hop & Hthis & Hget).
      rewrite Hget. done.
    + intros k v Hop Hfresh Hat. apply Hcomplete; try done.
      destruct (js_get k methods); [done | discriminate].
  - destruct (IH seen') as (Hnd' & Hsound' & Hcomplete').
    assert (forall o, o ∈ operationsFrom this target seen' ->
                      (key o ∉ seen) /\ js_get (key o) methods = None) as Hfar.
    { intros o Ho. destruct (Hsound' o Ho) as (Hfresh & Hop & _).
      assert (key o ∉ seen) as Hnew by set_solver.
      split; [done |].
      destruct (js_get (key o) methods) as [v|] eqn:Hget; [| done].
      exfalso. apply Hfresh. rewrite Hseen.
      specialize (Hcomplete _ _ Hop Hnew Hget).
      apply elem_of_union. left. apply elem_of_list_to_set.
      apply list_elem_of_fmap. eexists. split; [| exact Hcomplete]. done. }
    split; [| split].
    + rewrite map_app. apply NoDup_app. split; [done |]. split; [| done].
      intros k Hk Hk'. apply list_elem_of_fmap in Hk' as (o & -> & Ho).
      destruct (Hsound' o Ho) as (Hfresh & _). set_solver.
    + intros o Ho. apply elem_of_app in Ho as [Ho|Ho].
      * destruct (Hsound o Ho) as (Hfresh & Hop & Hthis & Hget).
        rewrite Hget. done.
      * destruct (Hsound' o Ho) as (Hfresh & Hop & Hthis & Hat).
        destruct (Hfar o Ho) as (Hnew & ->). done.
    + intros k v Hop Hfresh Hat. apply elem_of_app.
      destruct (js_get k methods) as [v'|] eqn:Hget.
      * left. injection Hat as ->. by apply Hcomplete.
      * right. apply Hcomplete'; try done.
        rewrite Hseen. intros Hin. apply elem_of_union in Hin as [Hin|Hin]; [| done].
        apply elem_of_list_to_set, list_elem_of_fmap in Hin as (o & -> & Ho).
        destruct (Hsound o Ho) as (_ & _ & _ & Hget'). congruence.
Qed.

(** C2: [operations()] yields at most one operation per key, every yielded
    key is one of the eight methods, and the operation yielded for a method is
    the one of the closest path item of the chain that has the method; a
    method present anywhere along the chain is yielded. *)
Theorem operations_first_along_chain (this : ApiPathItem) :
  NoDup (map key (operations this))
  /\ (forall o, o ∈ operations this ->
        (key o ∈ OPERATIONS) /\ pathItem o = this
        /\ operationAt (key o) (pathItem_node this) = Some (node o))
  /\ (forall k v, k ∈ OPERATIONS -> operationAt k (pathItem_node this) = Some v ->
        {| key := k; node := v; pathItem := this |} ∈ operations this).
Proof.
  assert (forall k, inOPERATIONS k = true <-> k ∈ OPERATIONS) as Hin.
  { intros k. unfold inOPERATIONS. rewrite existsb_exists. split.
    - intros (x & Hx & Heq). apply String.eqb_eq in Heq as ->.
      by apply list_elem_of_In.
    - intros Hk. exists k. split; [by apply list_elem_of_In | apply String.eqb_refl]. }
  destruct (operationsFrom_spec this (pathItem_node this) ∅)
    as (Hnd & Hsound & Hcomplete).
  unfold operations. split; [done |]. split.
  - intros o Ho. destruct (Hsound o Ho) as (_ & Hop & Hthis & Hat).
    split; [by apply Hin | done].
  - intros k v Hk Hat. apply Hcomplete; [by apply Hin | set_solver | done].
Qed.

(** The theorem at a path item defining [get] and referring to one that
    defines [get] and [post]: its own [get] and the [post] it refers to. *)
Lemma operations_first_along_chain_witness :
  operations Examples.referring
  = [{| key := "get"; node := Examples.nearGet; pathItem := Examples.referring |};
     {| key := "post"; node := Examples.farPost; pathItem := Examples.referring |}]
  /\ NoDup (map key (operations Examples.referring)).
Proof.
  split; [vm_compute; reflexivity |].
  apply (operations_first_along_chain Examples.referring).
Defined.

End ApiFacts.

(** ** The request template synthesizer *)
Module RequestFacts.
Import JS OpenApi31 Api Run Request Notions MoreNotions JSFacts ApiFacts.

Section WithCollaborators.
Context (E : Collaborators).

(** *** The body key *)

Lemma later_keys_differ (i j : N) : "body" +:+ pretty i = "body" +:+ pretty j -> i = j.
Proof. simpl. intros [= H]. by apply (inj pretty). Qed.

Lemma chooseBodyKey_later index : forall fuel (i : N) (taken : gset string),
  size taken <= fuel ->
  (forall j, (i <= j)%N -> js_has ("body" +:+ pretty j) index = true ->
             "body" +:+ pretty j ∈ taken) ->
  exists bodyKey,
    chooseBodyKey fuel index ("body" +:+ pretty i) (i + 1) = Some bodyKey
    /\ js_has bodyKey index = false.
Proof.
  induction fuel as [|fuel IH]; intros i taken Hsize Htaken.
  - simpl. destruct (js_has ("body" +:+ pretty i) index) eqn:Hhas.
    + apply Htaken in Hhas; [| lia].
      apply Nat.le_0_r, size_empty_inv in Hsize. set_solver.
    + eauto.
  - cbn [chooseBodyKey]. destruct (js_has ("body" +:+ pretty i) index) eqn:Hhas.
    + apply Htaken in Hhas; [| lia].
      apply (IH (i + 1)%N (taken ∖ {["body" +:+ pretty i]})).
      * rewrite size_difference by set_solver. rewrite size_singleton.
        assert (size taken <> 0) as Hpos.
        { intros Hz. apply size_empty_inv in Hz. set_solver. }
        lia.
      * intros j Hj Hhas'. apply elem_of_difference. split; [apply Htaken; [lia | done] |].
        intros Heq. apply elem_of_singleton in Heq.
        apply later_keys_differ in Heq. lia.
    + eauto.
Qed.

Lemma length_remove_dups_le (l : list string) : length (remove_dups l) <= length l.
Proof.
  induction l as [|x l IH]; simpl; [done |]. destruct (decide_rel elem_of x l); simpl; lia.
Qed.

(** The loop choosing the body key ends, on a key no parameter has. *)
Lemma chooseBodyKey_total (index : list (string * nat)) :
  exists bodyKey,
    chooseBodyKey (S (length index)) index "body" 1 = Some bodyKey
    /\ js_has bodyKey index = false.
Proof.
  cbn [chooseBodyKey]. destruct (js_has "body" index) eqn:Hhas; [| eauto].
  apply (chooseBodyKey_later index (length index) 1%N
           (list_to_set (remove_dups (js_keys index)))).
  - rewrite size_list_to_set by apply NoDup_remove_dups.
    etrans; [apply length_remove_dups_le |]. unfold js_keys. by rewrite length_map.
  - intros j _ Hj. apply elem_of_list_to_set, elem_of_remove_dups.
    by apply js_has_keys.
Qed.

(** *** The body step *)

(** The body step returns; it leaves the query, header and cookie slots as
    they are and only adds to the roots, the index and the required names. *)
Lemma collectBody_returns st requestBody :
  exists st',
    collectBody E st requestBody = Returned st'
    /\ query st' = query st /\ headers st' = headers st /\ cookies st' = cookies st
    /\ (exists extra, schemaRoots st' = schemaRoots st ++ extra)
    /\ (forall k, js_has k (paramIndex st) = true ->
                  js_get k (paramIndex st') = js_get k (paramIndex st))
    /\ (NoDup (js_keys (paramIndex st)) -> NoDup (js_keys (paramIndex st')))
    /\ (forall x l, required st = Some l -> x ∈ l ->
                    exists l', required st' = Some l' /\ x ∈ l')
    /\ (paramIndex st <> [] -> paramIndex st' <> [])
    /\ ("__proto__" ∉ js_keys (paramIndex st) ->
        "__proto__" ∉ js_keys (paramIndex st')).
Proof.
  unfold collectBody. destruct requestBody as [rb|].
  - destruct (chooseBodyKey_total (paramIndex st)) as (bodyKey & -> & Hfresh).
    destruct (selectContent E bodyKey (body_description rb) _) as [[template schema]|].
    + eexists. split; [done |]. simpl. repeat split; try done.
      * eauto.
      * intros k Hk. rewrite js_get_assign.
        destruct (String.eqb bodyKey "__proto__"); [done |].
        destruct (String.eqb_spec bodyKey k) as [->|]; [congruence | done].
      * apply js_keys_assign_NoDup.
      * intros x l Hl Hx. rewrite Hl. destruct (body_required rb) as [[]|]; eauto.
        eexists. split; [done |]. apply elem_of_app. by left.
      * apply js_assign_nonempty.
      * apply js_assign_keeps_proto_out.
    + exists st. repeat split; try done; eauto.
      exists []. by rewrite app_nil_r.
  - exists st. repeat split; try done; eauto.
    exists []. by rewrite app_nil_r.
Qed.

(** The body template the body step leaves. *)
Lemma collectBody_body st requestBody st' :
  collectBody E st (Some requestBody) = Returned st' ->
  exists bodyKey,
    body st' =
      match selectContent E bodyKey (body_description requestBody)
              (contentOf requestBody) with
      | Some (template, _) => Some template
      | None => body st
      end.
Proof.
  unfold collectBody, contentOf.
  destruct (chooseBodyKey_total (paramIndex st)) as (bodyKey & -> & _).
  intros H. exists bodyKey.
  destruct (selectContent E bodyKey _ _) as [[template schema]|];
    injection H as <-; done.
Qed.

(** *** Generation as a whole *)

(** The synthesizer returns exactly when a server is selected, and then
    returns the assembled object. *)
Lemma generateApiHandleRequest_unfold operation options :
  exists st,
    collectBody E (collectParameters E (allParameters operation))
      (op_requestBody (node operation)) = Returned st
    /\ generateApiHandleRequest E operation options =
         match selectServer operation options with
         | Returned selected =>
             Returned
               (assemble operation st
                  (treeShakeReferences E (schemaRoots st) "#/$defs"
                     (match options with Some o => transform o | None => None end))
                  (requestUrl (expandServerUrl E selected) (path operation) (query st)))
         | Thrown e => Thrown e
         | OutOfFuel => OutOfFuel
         end.
Proof.
  destruct (collectBody_returns (collectParameters E (allParameters operation))
              (op_requestBody (node operation))) as (st & Hst & _).
  exists st. split; [done |].
  unfold generateApiHandleRequest. rewrite Hst. simpl.
  by destruct (selectServer operation options).
Qed.

Lemma selectServer_cases operation options :
  selectServer operation options =
    match optionServer options, declaredServers operation with
    | Some s, _ => Returned s
    | None, Some (s :: _) => Returned s
    | None, _ => Thrown (ApiError "No servers defined for operation")
    end.
Proof.
  unfold selectServer. destruct (optionServer options); [done |].
  by destruct (declaredServers operation) as [[|]|].
Qed.

(** *** Server selection *)


(** *** The body slot *)

Lemma encodingOf_Some mediaType encode :
  encodingOf mediaType = Some encode <->
  (mediaType = "application/json" /\ encode = "json")
  \/ (mediaType = "application/x-www-form-urlencoded" /\ encode = "urlencoded")
  \/ (mediaType = "multipart/form-data" /\ encode = "multipart").
Proof.
  unfold encodingOf.
  destruct (String.eqb_spec mediaType "application/json") as [->|H1].
  { split; [intros [= <-]; auto |]. intros [[_ ->]|[[? _]|[? _]]]; done. }
  destruct (String.eqb_spec mediaType "application/x-www-form-urlencoded") as [->|H2].
  { split; [intros [= <-]; auto |]. intros [[? _]|[[_ ->]|[? _]]]; done. }
  destruct (String.eqb_spec mediaType "multipart/form-data") as [->|H3].
  { split; [intros [= <-]; auto |]. intros [[? _]|[[? _]|[_ ->]]]; done. }
  split; [discriminate |]. intros [[? _]|[[? _]|[? _]]]; done.
Qed.

Lemma encodingOf_None mediaType :
  encodingOf mediaType = None <->
  mediaType <> "application/json"
  /\ mediaType <> "application/x-www-form-urlencoded"
  /\ mediaType <> "multipart/form-data".
Proof.
  unfold encodingOf.
  destruct (String.eqb_spec mediaType "application/json") as [->|H1].
  { split; [discriminate | intros (? & _); done]. }
  destruct (String.eqb_spec mediaType "application/x-www-form-urlencoded") as [->|H2].
  { split; [discriminate | intros (_ & ? & _); done]. }
  destruct (String.eqb_spec mediaType "multipart/form-data") as [->|H3].
  { split; [discriminate | intros (_ & _ & ?); done]. }
  done.
Qed.

Lemma selectContent_first bodyKey description before mediaType contentType after encode :
  Forall (passedOver E) before ->
  isObject E (media_schema contentType) = true ->
  encodingOf mediaType = Some encode ->
  selectContent E bodyKey description (before ++ (mediaType, contentType) :: after)
  = Some (obj [("$", JStr bodyKey); ("encode", JStr encode)],
          withDescription (media_schema contentType) description).
Proof.
  intros Hbefore Hobject Hencode.
  induction Hbefore as [|[mt ct] rest Hskip _ IH]; simpl.
  - by rewrite Hobject, Hencode.
  - destruct Hskip as [Hno|Hno]; simpl in Hno.
    + by rewrite Hno.
    + apply encodingOf_None in Hno. rewrite Hno.
      by destruct (negb (isObject E (media_schema ct))).
Qed.

(** C3: the body slot comes from the first content type, in document order,
    that has an object schema and one of the three supported media types;
    content types before it that lack one or the other are passed over and
    the content types after it play no part. *)
Theorem body_slot_of_first_supported_content operation options requestBody
    before mediaType contentType after encode selected :
  op_requestBody (node operation) = Some requestBody ->
  body_content requestBody = Some (before ++ (mediaType, contentType) :: after) ->
  Forall (passedOver E) before ->
  isObject E (media_schema contentType) = true ->
  (mediaType = "application/json" /\ encode = "json")
  \/ (mediaType = "application/x-www-form-urlencoded" /\ encode = "urlencoded")
  \/ (mediaType = "multipart/form-data" /\ encode = "multipart") ->
  selectServer operation options = Returned selected ->
  exists r bodyKey,
    generateApiHandleRequest E operation options = Returned r
    /\ prop "body" (request r) = obj [("$", JStr bodyKey); ("encode", JStr encode)].
Proof.
  intros Hbody Hcontent Hbefore Hobject Hencode Hserver.
  apply encodingOf_Some in Hencode.
  destruct (generateApiHandleRequest_unfold operation options) as (st & Hst & ->).
  rewrite Hserver, Hbody in *.
  apply collectBody_body in Hst as (bodyKey & Hslot).
  unfold contentOf in Hslot. rewrite Hcontent in Hslot.
  rewrite (selectContent_first _ _ _ _ _ _ encode) in Hslot by done.
  eexists _, bodyKey. split; [done |].
  unfold assemble. simpl. rewrite Hslot. by destruct (headers st).
Qed.

(** *** The parameter loop *)

Lemma collectParameter_skip st p :
  isObject E (param_schema p) = false -> collectParameter E st p = st.
Proof. intros H. unfold collectParameter. by rewrite H. Qed.


Lemma collectParameter_roots st p :
  isObject E (param_schema p) = true ->
  schemaRoots (collectParameter E st p) = schemaRoots st ++ [rootOf p]
  /\ paramIndex (collectParameter E st p)
     = js_assign (nameKey p) (length (schemaRoots st)) (paramIndex st)
  /\ required (collectParameter E st p)
     = match param_required p with
       | Some true => pushRequired (nameValue p) (required st)
       | _ => required st
       end.
Proof.
  intros H. unfold collectParameter. rewrite H. simpl.
  destruct (locationIs p "query"); [done |].
  destruct (locationIs p "header"); [done |].
  destruct (locationIs p "path"); [done |].
  by destruct (locationIs p "cookie").
Qed.




Lemma collect_roots ps : forall st,
  schemaRoots (fold_left (collectParameter E) ps st)
  = schemaRoots st ++ map rootOf (collected E ps).
Proof.
  induction ps as [|p rest IH]; intros st; simpl.
  - by rewrite app_nil_r.
  - rewrite IH. destruct (isObject E (param_schema p)) eqn:Hp.
    + destruct (collectParameter_roots st p Hp) as (-> & _). simpl.
      by rewrite <- app_assoc.
    + by rewrite collectParameter_skip.
Qed.

Lemma collect_index_untouched ps k : forall st,
  (forall q, q ∈ collected E ps -> nameKey q <> k) ->
  js_get k (paramIndex (fold_left (collectParameter E) ps st))
  = js_get k (paramIndex st).
Proof.
  induction ps as [|p rest IH]; intros st Hother; simpl; [done |].
  simpl in Hother. destruct (isObject E (param_schema p)) eqn:Hp.
  - rewrite IH.
    + destruct (collectParameter_roots st p Hp) as (_ & -> & _).
      rewrite js_get_assign. destruct (String.eqb (nameKey p) "__proto__"); [done |].
      destruct (String.eqb_spec (nameKey p) k) as [Heq|]; [| done].
      exfalso. apply (Hother p); [constructor | done].
    + intros q Hq. apply Hother. by constructor.
  - rewrite collectParameter_skip by done. by apply IH.
Qed.

Lemma collect_index ps : forall st,
  (NoDup (js_keys (paramIndex st)) ->
   NoDup (js_keys (paramIndex (fold_left (collectParameter E) ps st))))
  /\ ("__proto__" ∉ js_keys (paramIndex st) ->
      "__proto__" ∉ js_keys (paramIndex (fold_left (collectParameter E) ps st)))
  /\ (forall i p,
        collected E ps !! i = Some p ->
        nameKey p <> "__proto__" ->
        (forall j q, i < j -> collected E ps !! j = Some q -> nameKey q <> nameKey p) ->
        js_get (nameKey p) (paramIndex (fold_left (collectParameter E) ps st))
        = Some (length (schemaRoots st) + i)).
Proof.
  induction ps as [|x rest IH]; intros st; simpl.
  - split; [done |]. split; [done |]. intros i p H. inversion H.
  - destruct (IH (collectParameter E st x)) as (Hnd & Hout & Hlast).
    destruct (isObject E (param_schema x)) eqn:Hx.
    + destruct (collectParameter_roots st x Hx) as (Hroots & Hindex & _).
      split; [| split].
      * intros H. apply Hnd. rewrite Hindex. by apply js_keys_assign_NoDup.
      * intros H. apply Hout. rewrite Hindex. by apply js_assign_keeps_proto_out.
      * intros [|i] p Hp Hproto Hlater; simpl in Hp.
        -- injection Hp as <-. rewrite collect_index_untouched.
           ++ rewrite Hindex, js_get_assign, String.eqb_refl.
              destruct (String.eqb_spec (nameKey x) "__proto__"); [done |].
              f_equal. lia.
           ++ intros q Hq. apply list_elem_of_lookup in Hq as (j & Hj).
              apply (Hlater (S j) q); [lia | done].
        -- rewrite (Hlast i p Hp Hproto).
           ++ rewrite Hroots, length_app. simpl. f_equal. lia.
           ++ intros j q Hj Hq. apply (Hlater (S j) q); [lia | done].
    + rewrite collectParameter_skip in * by done. split; [done |]. split; [done |].
      apply Hlast.
Qed.

Lemma collect_required ps : forall st,
  (forall x l, required st = Some l -> x ∈ l ->
     exists l', required (fold_left (collectParameter E) ps st) = Some l' /\ x ∈ l')
  /\ (forall p, p ∈ collected E ps -> param_required p = Some true ->
        exists l', required (fold_left (collectParameter E) ps st) = Some l'
                   /\ nameValue p ∈ l').
Proof.
  induction ps as [|x rest IH]; intros st; simpl.
  - split; [eauto |]. intros p H. inversion H.
  - destruct (IH (collectParameter E st x)) as (Hkeep & Hnew).
    destruct (isObject E (param_schema x)) eqn:Hx.
    + destruct (collectParameter_roots st x Hx) as (_ & _ & Hreq).
      split.
      * intros y l Hl Hy. rewrite Hreq, Hl in Hkeep.
        destruct (param_required x) as [[]|]; [| by eapply Hkeep..].
        eapply Hkeep; [done |]. apply elem_of_app. by left.
      * intros p Hp Hrequired. apply elem_of_cons in Hp as [->|Hp]; [| by apply Hnew].
        rewrite Hreq, Hrequired in Hkeep. eapply Hkeep; [done |].
        apply elem_of_app. right. constructor.
    + rewrite collectParameter_skip in * by done. done.
Qed.

Lemma buildProperties_lookup result index : forall properties,
  NoDup (js_keys index) ->
  "__proto__" ∉ js_keys index ->
  forall k,
    js_get k (slotsOf (fold_left
                         (fun properties entry =>
                            Some (js_assign (fst entry) (rootAt result (snd entry))
                                    (match properties with
                                     | Some o => o
                                     | None => []
                                     end)))
                         index properties))
    = match js_get k index with
      | Some i => Some (rootAt result i)
      | None => js_get k (slotsOf properties)
      end.
Proof.
  induction index as [|[k0 i0] rest IH]; intros properties Hnd Hout k; simpl; [done |].
  unfold js_keys in Hnd, Hout. simpl in Hnd, Hout.
  apply NoDup_cons in Hnd as [Hfresh Hnd].
  apply not_elem_of_cons in Hout as [Hproto Hout].
  rewrite IH by done. simpl. rewrite js_get_assign.
  destruct (String.eqb_spec k0 "__proto__"); [done |].
  destruct (String.eqb_spec k0 k) as [->|Hne]; [| done].
  apply (js_get_None k rest) in Hfresh. by rewrite Hfresh.
Qed.

Lemma buildProperties_Some result index :
  index <> [] -> exists properties, buildProperties result index = Some properties.
Proof.
  unfold buildProperties. destruct index as [|entry rest]; [done |]. intros _. simpl.
  generalize (js_assign (fst entry) (rootAt result (snd entry)) (@nil (string * value))).
  induction rest as [|e rest IH]; intros acc; simpl; eauto.
Qed.

(** *** Reading the assembled object *)

Lemma assemble_required operation st result url :
  prop "required" (parameters (assemble operation st result url))
  = match required st with Some l => JArr l | None => JUndefined end.
Proof.
  unfold assemble. simpl.
  destruct (buildProperties result (paramIndex st)), (required st), (defs result);
    reflexivity.
Qed.

Lemma assemble_properties operation st result url :
  prop "properties" (parameters (assemble operation st result url))
  = match buildProperties result (paramIndex st) with
    | Some properties => obj properties
    | None => JUndefined
    end.
Proof.
  unfold assemble. simpl.
  destruct (buildProperties result (paramIndex st)), (required st), (defs result);
    reflexivity.
Qed.

Lemma assemble_headers operation st result url :
  prop "headers" (request (assemble operation st result url))
  = match headers st with Some h => obj h | None => JUndefined end.
Proof. unfold assemble. simpl. by destruct (headers st), (body st). Qed.

Lemma assemble_body operation st result url :
  prop "body" (request (assemble operation st result url))
  = match body st with Some b => b | None => JUndefined end.
Proof. unfold assemble. simpl. by destruct (headers st), (body st). Qed.

(** *** The parameter loop, field by field *)

Lemma collectParameter_headers st p :
  headers (collectParameter E st p)
  = if isHeaderParameter E p then addSlot p (headers st) else headers st.
Proof.
  unfold collectParameter, isHeaderParameter.
  destruct (isObject E (param_schema p)); simpl; [| done].
  destruct (locationIs p "query") eqn:Hq.
  - apply sameText_eq in Hq. unfold locationIs. by rewrite Hq.
  - destruct (locationIs p "header"); [done |].
    destruct (locationIs p "path"); [done |].
    by destruct (locationIs p "cookie").
Qed.

Lemma collectParameter_body st p : body (collectParameter E st p) = body st.
Proof.
  unfold collectParameter. destruct (isObject E (param_schema p)); simpl; [| done].
  destruct (locationIs p "query"); [done |].
  destruct (locationIs p "header"); [done |].
  destruct (locationIs p "path"); [done |].
  by destruct (locationIs p "cookie").
Qed.

Lemma collect_body ps : forall st,
  body (fold_left (collectParameter E) ps st) = body st.
Proof.
  induction ps as [|p rest IH]; intros st; simpl; [done |].
  by rewrite IH, collectParameter_body.
Qed.

(** The header slots: one per name of a header parameter, holding the
    variable of that name; the name [__proto__] gets no slot. *)
Lemma collect_headers ps : forall st,
  let h := headers (fold_left (collectParameter E) ps st) in
  (h = None <-> headers st = None /\ existsb (isHeaderParameter E) ps = false)
  /\ (forall k, k ∈ js_keys (slotsOf h) <->
        k ∈ js_keys (slotsOf (headers st))
        \/ (k <> "__proto__"
            /\ exists p, p ∈ ps /\ isHeaderParameter E p = true /\ nameKey p = k))
  /\ (NoDup (js_keys (slotsOf (headers st))) -> NoDup (js_keys (slotsOf h)))
  /\ (forall k v, js_get k (slotsOf h) = Some v ->
        js_get k (slotsOf (headers st)) = Some v
        \/ exists p, p ∈ ps /\ isHeaderParameter E p = true /\ nameKey p = k
                     /\ v = obj [("$", nameValue p)]).
Proof.
  induction ps as [|p rest IH]; intros st; simpl.
  - split; [tauto |]. split; [| split; [done | auto]]. intros k. split; [auto |].
    intros [H|(_ & p & Hp & _)]; [done | inversion Hp].
  - destruct (IH (collectParameter E st p)) as (Hnone & Hkeys & Hnd & Hval).
    rewrite collectParameter_headers in Hnone, Hkeys, Hnd, Hval.
    destruct (isHeaderParameter E p) eqn:Hh; simpl in *.
    + split; [split; [intros H; apply Hnone in H as [? _]; done | intros [_ ?]; done] |].
      split; [| split].
      * intros k. rewrite Hkeys, js_keys_assign. split.
        -- intros [[[-> Hproto]|H]|(Hproto & q & Hq' & Hq'' & Hk)];
             [right | by left | right]; (split; [done |]).
           ++ exists p. split; [constructor | done].
           ++ exists q. split; [by constructor | done].
        -- intros [H|(Hproto & q & Hq' & Hq'' & Hk)]; [left; by right |].
           apply elem_of_cons in Hq' as [->|Hq']; [left; left; by subst |].
           right. split; [done |]. by exists q.
      * intros H. apply Hnd. by apply js_keys_assign_NoDup.
      * intros k v Hget. apply Hval in Hget as [Hget|(q & Hq & Hq' & Hk & Hv)].
        -- rewrite js_get_assign in Hget.
           destruct (String.eqb (nameKey p) "__proto__"); [by left |].
           destruct (String.eqb_spec (nameKey p) k) as [Hk|Hk]; [| by left].
           injection Hget as <-. right. exists p. split; [constructor | done].
        -- right. exists q. split; [by constructor | done].
    + split; [done |]. split; [| split; [done |]].
      * intros k. rewrite Hkeys. split.
        -- intros [H|(Hproto & q & Hq' & Hq'' & Hk)]; [by left | right].
           split; [done |]. exists q. split; [by constructor | done].
        -- intros [H|(Hproto & q & Hq' & Hq'' & Hk)]; [by left |].
           apply elem_of_cons in Hq' as [->|Hq']; [congruence |].
           right. split; [done |]. by exists q.
      * intros k v Hget. apply Hval in Hget as [Hget|(q & Hq & Hq' & Hk & Hv)];
          [by left | right].
        exists q. split; [by constructor | done].
Qed.

(** The names pushed to [required], in the order of the parameters. *)
Lemma collect_required_exact ps : forall st,
  required (fold_left (collectParameter E) ps st)
  = match map nameValue (List.filter isRequired (collected E ps)) with
    | [] => required st
    | names => Some (match required st with Some l => l | None => [] end ++ names)
    end.
Proof.
  induction ps as [|p rest IH]; intros st; simpl; [done |].
  rewrite IH. destruct (isObject E (param_schema p)) eqn:Hp.
  - destruct (collectParameter_roots st p Hp) as (_ & _ & ->).
    simpl. unfold isRequired at 2.
    destruct (param_required p) as [[]|]; simpl; [| done..].
    destruct (map nameValue (List.filter isRequired (collected E rest))); simpl.
    + done.
    + by rewrite <- app_assoc.
  - by rewrite collectParameter_skip.
Qed.

(** The names indexed by the parameter loop. *)
Lemma collect_index_keys ps : forall st k,
  k ∈ js_keys (paramIndex (fold_left (collectParameter E) ps st))
  <-> k ∈ js_keys (paramIndex st) \/ (k <> "__proto__" /\ named E ps k).
Proof.
  unfold named. induction ps as [|p rest IH]; intros st k; simpl.
  - split; [auto |]. intros [H|(_ & p & Hp & _)]; [done | inversion Hp].
  - rewrite IH. destruct (isObject E (param_schema p)) eqn:Hp.
    + destruct (collectParameter_roots st p Hp) as (_ & -> & _).
      rewrite js_keys_assign. split.
      * intros [[[-> Hproto]|H]|(Hproto & q & Hq & Hk)]; [right | by left | right];
          (split; [done |]).
        -- exists p. split; [constructor | done].
        -- exists q. split; [by constructor | done].
      * intros [H|(Hproto & q & Hq & Hk)]; [left; by right |].
        apply elem_of_cons in Hq as [->|Hq]; [left; left; by subst |].
        right. split; [done |]. by exists q.
    + by rewrite collectParameter_skip.
Qed.

(** *** The body step *)

Lemma chooseBodyKey_least index : forall fuel (i : N) bodyKey,
  chooseBodyKey fuel index ("body" +:+ pretty i) (i + 1) = Some bodyKey ->
  exists n : N,
    (i <= n)%N /\ bodyKey = "body" +:+ pretty n
    /\ forall j : N, (i <= j < n)%N -> js_has ("body" +:+ pretty j) index = true.
Proof.
  induction fuel as [|fuel IH]; intros i bodyKey; cbn [chooseBodyKey];
    destruct (js_has ("body" +:+ pretty i) index) eqn:Hhas; try discriminate.
  - intros [= <-]. exists i. split; [lia |]. split; [done |]. intros j Hj. lia.
  - intros H. apply IH in H as (n & Hle & -> & Htaken).
    exists n. split; [lia |]. split; [done |]. intros j Hj.
    destruct (decide (j = i)) as [->|Hne]; [done |]. apply Htaken. lia.
  - intros [= <-]. exists i. split; [lia |]. split; [done |]. intros j Hj. lia.
Qed.

Lemma earlierCandidates_elem (n : N) candidate :
  candidate ∈ earlierCandidates n
  <-> candidate = "body"
      \/ exists j : N, (1 <= j < n)%N /\ candidate = "body" +:+ pretty j.
Proof.
  unfold earlierCandidates. rewrite elem_of_cons, list_elem_of_fmap.
  split; (intros [H|H]; [by left | right]).
  - destruct H as (j & -> & Hj). apply elem_of_seq in Hj.
    exists (N.of_nat j). split; [lia | done].
  - destruct H as (j & Hj & ->). exists (N.to_nat j). rewrite N2Nat.id.
    split; [done |]. apply elem_of_seq. lia.
Qed.

(** The body step: the key it chooses and the state it leaves. *)
Lemma collectBody_spec st requestBody :
  exists bodyKey,
    js_has bodyKey (paramIndex st) = false
    /\ (bodyKey = "body"
        \/ exists n : N,
             (1 <= n)%N /\ bodyKey = "body" +:+ pretty n
             /\ forall candidate,
                  candidate ∈ earlierCandidates n ->
                  js_has candidate (paramIndex st) = true)
    /\ collectBody E st (Some requestBody)
       = Returned
           match selectContent E bodyKey (body_description requestBody)
                   (contentOf requestBody) with
           | Some (template, contentSchema) =>
               {| required :=
                    match body_required requestBody with
                    | Some true => pushRequired (JStr bodyKey) (required st)
                    | _ => required st
                    end;
                  query := query st;
                  headers := headers st;
                  cookies := cookies st;
                  body := Some template;
                  paramIndex :=
                    js_set bodyKey (length (schemaRoots st)) (paramIndex st);
                  schemaRoots := schemaRoots st ++ [contentSchema] |}
           | None => st
           end.
Proof.
  assert (forall candidate (index : list (string * nat)) i,
            candidate = "body" \/ (exists n : N, candidate = "body" +:+ pretty n) ->
            js_assign candidate i index = js_set candidate i index) as Hassign.
  { intros candidate index i Hcandidate. unfold js_assign.
    destruct (String.eqb_spec candidate "__proto__") as [->|]; [| done].
    destruct Hcandidate as [?|(n & ?)]; discriminate. }
  destruct (chooseBodyKey_total (paramIndex st)) as (bodyKey & Hkey & Hfresh).
  exists bodyKey. split; [done |]. split.
  - cbn [chooseBodyKey] in Hkey.
    destruct (js_has "body" (paramIndex st)) eqn:Hbody; [| left; congruence].
    right. apply (chooseBodyKey_least _ _ 1%N) in Hkey as (n & Hle & -> & Htaken).
    exists n. split; [done |]. split; [done |].
    intros candidate [->|(j & Hj & ->)]%earlierCandidates_elem; [done |].
    by apply Htaken.
  - unfold collectBody, contentOf. rewrite Hkey.
    destruct (selectContent E bodyKey _ _) as [[template schema]|]; [| done].
    rewrite Hassign; [done |].
    cbn [chooseBodyKey] in Hkey.
    destruct (js_has "body" (paramIndex st)) eqn:Hbody; [| left; congruence].
    right. apply (chooseBodyKey_least _ _ 1%N) in Hkey as (n & _ & -> & _). eauto.
Qed.

(** The content type the body loop stops at is the first supported one. *)
Lemma selectContent_Some bodyKey description content template schema :
  selectContent E bodyKey description content = Some (template, schema) ->
  exists before mediaType contentType after encode,
    content = before ++ (mediaType, contentType) :: after
    /\ Forall (passedOver E) before
    /\ isObject E (media_schema contentType) = true
    /\ encodingOf mediaType = Some encode
    /\ template = obj [("$", JStr bodyKey); ("encode", JStr encode)]
    /\ schema = withDescription (media_schema contentType) description.
Proof.
  induction content as [|[mt ct] rest IH]; simpl; [discriminate |].
  destruct (isObject E (media_schema ct)) eqn:Hobject; simpl.
  - destruct (encodingOf mt) as [encode|] eqn:Hencode.
    + intros [= <- <-]. by exists [], mt, ct, rest, encode.
    + intros H. destruct (IH H) as (before & mt' & ct' & after & encode & -> & Hb & Hrest).
      exists ((mt, ct) :: before), mt', ct', after, encode.
      split; [done |]. split; [| done]. constructor; [| done].
      right. by apply encodingOf_None.
  - intros H. destruct (IH H) as (before & mt' & ct' & after & encode & -> & Hb & Hrest).
    exists ((mt, ct) :: before), mt', ct', after, encode.
    split; [done |]. split; [| done]. constructor; [| done]. by left.
Qed.

(** *** The properties *)

Lemma buildProperties_NoDup result index : forall properties,
  NoDup (js_keys (slotsOf properties)) ->
  NoDup (js_keys (slotsOf (fold_left
                             (fun properties entry =>
                                Some (js_assign (fst entry) (rootAt result (snd entry))
                                        (match properties with
                                         | Some o => o
                                         | None => []
                                         end)))
                             index properties))).
Proof.
  induction index as [|entry rest IH]; intros properties Hnd; simpl; [done |].
  apply IH. simpl. by apply js_keys_assign_NoDup.
Qed.

Lemma buildProperties_keys result index k :
  NoDup (js_keys index) ->
  "__proto__" ∉ js_keys index ->
  k ∈ js_keys (slotsOf (buildProperties result index)) <-> k ∈ js_keys index.
Proof.
  intros Hnd Hout.
  pose proof (buildProperties_lookup result index None Hnd Hout k) as Hget.
  fold (buildProperties result index) in Hget.
  rewrite <- !js_has_keys. unfold js_has. rewrite Hget.
  by destruct (js_get k index).
Qed.

Lemma buildProperties_None result index :
  buildProperties result index = None <-> index = [].
Proof.
  split; [| by intros ->]. intros Hnone.
  destruct index as [|entry rest]; [done |].
  destruct (buildProperties_Some result (entry :: rest)) as (properties & Hsome);
    congruence.
Qed.

(** The state the two loops leave for an operation. *)
Lemma collected_state operation :
  let ps := allParameters operation in
  let st0 := collectParameters E ps in
  schemaRoots st0 = map rootOf (collected E ps)
  /\ body st0 = None
  /\ NoDup (js_keys (paramIndex st0))
  /\ (forall k, k ∈ js_keys (paramIndex st0) <-> k <> "__proto__" /\ named E ps k)
  /\ required st0
     = match map nameValue (List.filter isRequired (collected E ps)) with
       | [] => None
       | names => Some names
       end.
Proof.
  intros ps st0. subst st0. unfold collectParameters.
  split; [apply (collect_roots ps start) |].
  split; [apply (collect_body ps start) |].
  split; [apply (collect_index ps start); constructor |].
  split.
  - intros k. rewrite collect_index_keys. simpl. split; [| auto].
    intros [H|H]; [inversion H | done].
  - rewrite collect_required_exact. simpl.
    by destruct (map nameValue (List.filter isRequired (collected E ps))).
Qed.

(** *** The URL template *)




(** *** Cookie parameters *)

Lemma collected_elem ps p :
  p ∈ collected E ps <-> p ∈ ps /\ isObject E (param_schema p) = true.
Proof. unfold collected. rewrite !list_elem_of_In. apply filter_In. Qed.

(** What the body step adds to the roots, with the body slot it leaves. *)
Lemma collectBody_roots st requestBody st' :
  body st = None ->
  collectBody E st requestBody = Returned st' ->
  exists bodyRoots,
    schemaRoots st' = schemaRoots st ++ bodyRoots
    /\ match body st' with
       | Some slot =>
           (exists bodyKey encode,
              slot = obj [("$", JStr bodyKey); ("encode", JStr encode)])
           /\ length bodyRoots = 1
       | None => bodyRoots = []
       end.
Proof.
  intros Hnone Hst. destruct requestBody as [requestBody|].
  - destruct (collectBody_spec st requestBody) as (bodyKey & _ & _ & Hspec).
    rewrite Hst in Hspec. injection Hspec as ->.
    destruct (selectContent E bodyKey _ _) as [[template schema]|] eqn:Hselect.
    + apply selectContent_Some in Hselect
        as (_ & _ & _ & _ & encode & _ & _ & _ & _ & -> & _).
      exists [schema]. simpl. eauto.
    + exists []. by rewrite app_nil_r, Hnone.
  - simpl in Hst. injection Hst as <-. exists []. by rewrite app_nil_r, Hnone.
Qed.

(** C9 (as the code has it): once a server is selected the synthesizer
    returns.  No cookie slot appears in the request template: the request is
    exactly the method, the URL template, then [headers] if there are header
    slots and [body] if there is a body slot; every header slot is that of a
    header parameter, and the body slot holds the body key and the encoding.
    The schemas of the parameters with an object schema, cookie parameters
    among them, are submitted to the tree shaker in the order of the
    parameters, before the schema of the body.  A required cookie parameter
    with an object schema has its name in [required]; the property under its
    name is the rewritten root of its schema when its name is not [__proto__]
    and no parameter collected after it has the same name. *)
Theorem cookie_parameters_not_in_request operation options selected :
  selectServer operation options = Returned selected ->
  let ps := collected E (allParameters operation) in
  exists r url headerSlots bodySlot bodyRoots,
    generateApiHandleRequest E operation options = Returned r
    /\ request r
       = obj ([("method", JStr (method operation));
               ("url", obj [("$uri", JStr url)])]
              ++ match headerSlots with
                 | Some slots => [("headers", obj slots)]
                 | None => []
                 end
              ++ match bodySlot with
                 | Some slot => [("body", slot)]
                 | None => []
                 end)
    /\ (forall slots k slot,
          headerSlots = Some slots -> (k, slot) ∈ slots ->
          exists q, q ∈ ps /\ locationIs q "header" = true /\ nameKey q = k
                    /\ slot = obj [("$", nameValue q)])
    /\ match bodySlot with
       | Some slot =>
           (exists bodyKey encode,
              slot = obj [("$", JStr bodyKey); ("encode", JStr encode)])
           /\ length bodyRoots = 1
       | None => bodyRoots = []
       end
    /\ let result :=
         treeShakeReferences E (map rootOf ps ++ bodyRoots) "#/$defs"
           (match options with Some o => transform o | None => None end) in
       prop "$defs" (parameters r) = defs result
       /\ forall i p,
            ps !! i = Some p ->
            locationIs p "cookie" = true ->
            (param_required p = Some true ->
             exists l, prop "required" (parameters r) = JArr l /\ nameValue p ∈ l)
            /\ (nameKey p <> "__proto__" ->
                (forall j q, i < j -> ps !! j = Some q -> nameKey q <> nameKey p) ->
                prop (nameKey p) (prop "properties" (parameters r))
                = rootAt result i).
Proof.
  intros Hserver ps.
  destruct (generateApiHandleRequest_unfold operation options) as (st & Hst & ->).
  rewrite Hserver.
  set (all := allParameters operation) in *.
  destruct (collectBody_returns (collectParameters E all)
              (op_requestBody (node operation)))
    as (st' & Hst' & _ & Hheaders & _ & _ & Hindex & Hnd & Hreq & Hne & Hout).
  rewrite Hst in Hst'. injection Hst' as <-.
  destruct (collected_state operation) as (Hroots0 & Hbody0 & Hnd0 & Hkeys0 & _).
  fold all in Hroots0, Hbody0, Hnd0, Hkeys0. fold ps in Hroots0.
  destruct (collectBody_roots _ _ _ Hbody0 Hst) as (bodyRoots & Hroots & Hslot).
  rewrite Hroots0 in Hroots.
  eexists _, _, (headers st), (body st), bodyRoots.
  split; [reflexivity |]. split; [reflexivity |]. split; [| split; [done |]].
  - intros slots k slot Hslots Hin.
    destruct (collect_headers all start) as (_ & _ & Hndh & Hval).
    fold (collectParameters E all) in Hndh, Hval.
    rewrite <- Hheaders, Hslots in Hndh, Hval. simpl in Hndh, Hval.
    apply js_get_NoDup in Hin; [| apply Hndh; constructor].
    apply Hval in Hin as [Hin|(q & Hq & Hheader & Hk & Hv)]; [discriminate |].
    unfold isHeaderParameter in Hheader. apply andb_true_iff in Hheader as [Hobject ?].
    exists q. split; [by apply collected_elem |]. done.
  - cbv zeta. rewrite <- Hroots.
    set (result := treeShakeReferences E (schemaRoots st) "#/$defs"
                     (match options with Some o => transform o | None => None end)).
    split.
    { unfold assemble. simpl. fold result.
      destruct (buildProperties result (paramIndex st)), (required st),
        (defs result); reflexivity. }
    intros i p Hp Hcookie.
    unfold collectParameters in *.
    destruct (collect_index all start) as (_ & Hout0 & Hlast).
    destruct (collect_required all start) as (_ & Hrequired).
    split.
    + intros Hrequired'.
      destruct (Hrequired p) as (l & Hl & Hin);
        [by eapply list_elem_of_lookup_2 | done |].
      destruct (Hreq _ _ Hl Hin) as (l' & Hl' & Hin').
      exists l'. split; [| done]. rewrite assemble_required. by rewrite Hl'.
    + intros Hproto Hlater. specialize (Hlast i p Hp Hproto Hlater). simpl in Hlast.
      assert (js_get (nameKey p) (paramIndex st) = Some i) as Hi.
      { rewrite Hindex; [done |]. unfold js_has. by rewrite Hlast. }
      assert (paramIndex st <> []) as Hne'.
      { intros Hnil. rewrite Hnil in Hi. discriminate. }
      destruct (buildProperties_Some result (paramIndex st) Hne')
        as (properties & Hprops).
      rewrite assemble_properties. fold result. rewrite Hprops.
      pose proof (buildProperties_lookup result (paramIndex st) None
                    (Hnd Hnd0) (Hout (Hout0 (not_elem_of_nil _))) (nameKey p))
        as Hlookup.
      unfold buildProperties in Hprops. rewrite Hprops, Hi in Hlookup.
      simpl in Hlookup. unfold prop. simpl. by rewrite Hlookup.
Qed.

End WithCollaborators.

(** *** At example operations *)



Lemma body_slot_of_first_supported_content_witness :
  exists r bodyKey,
    generateApiHandleRequest Examples.plain Examples.posting None = Returned r
    /\ prop "body" (request r) = obj [("$", JStr bodyKey); ("encode", JStr "json")].
Proof.
  apply (body_slot_of_first_supported_content Examples.plain Examples.posting None
           Examples.textThenJson
           [("text/plain", {| media_schema := Examples.objectSchema |})]
           "application/json" {| media_schema := Examples.objectSchema |} []
           "json" Examples.exampleServer).
  - reflexivity.
  - reflexivity.
  - constructor; [| constructor]. right. simpl. repeat split; discriminate.
  - reflexivity.
  - left. split; reflexivity.
  - reflexivity.
Defined.

(** The scenario of C3, evaluated. *)
Example text_then_json_encodes_json :
  (r ← generateApiHandleRequest Examples.plain Examples.posting None;
   Returned (prop "body" (request r)))
  = Returned (obj [("$", JStr "body"); ("encode", JStr "json")]).
Proof. reflexivity. Qed.


(** The URL of an operation with a cookie and a query parameter, evaluated. *)
Example query_expansion_of_example :
  (r ← generateApiHandleRequest Examples.plain Examples.cookieAndQuery None;
   Returned (prop "url" (request r)))
  = Returned (obj [("$uri", JStr "https://api.example.com/items{?id}")]).
Proof. reflexivity. Qed.


(** An empty name at the front adds nothing to the expansion, not even its
    comma. *)
Example empty_name_first_is_not_listed :
  map nameKey (List.filter (isQueryParameter Examples.plain)
                 (allParameters Examples.emptyNameQuery))
  = [""; "a"]
  /\ (r ← generateApiHandleRequest Examples.plain Examples.emptyNameQuery None;
      Returned (prop "url" (request r)))
     = Returned (obj [("$uri", JStr "https://api.example.com/items{?a}")]).
Proof. split; reflexivity. Qed.

Lemma cookie_parameters_not_in_request_witness :
  exists r,
    generateApiHandleRequest Examples.plain Examples.cookieAndQuery None = Returned r
    /\ request r
       = obj [("method", JStr "GET");
              ("url", obj [("$uri", JStr "https://api.example.com/items{?id}")])]
    /\ prop "required" (parameters r) = JArr [JStr "session"]
    /\ prop "session" (prop "properties" (parameters r)) = Examples.stringSchema.
Proof.
  destruct (cookie_parameters_not_in_request Examples.plain Examples.cookieAndQuery
              None Examples.exampleServer eq_refl)
    as (r & url & headerSlots & bodySlot & bodyRoots & Hr & _).
  exists r. split; [exact Hr |].
  injection Hr as <-. repeat split; reflexivity.
Defined.

(** C9 (as stated) fails: a header parameter named like the cookie parameter
    takes the property, and the schema of the cookie parameter is not among
    the properties. *)
Lemma cookie_schema_replaced_by_later_parameter :
  allParameters Examples.cookieThenHeader
    = [Examples.sessionCookie; Examples.sessionHeader]
  /\ (r ← generateApiHandleRequest Examples.plain Examples.cookieThenHeader None;
      Returned (prop "properties" (Request.parameters r)))
     = Returned (obj [("session", Examples.integerSchema)]).
Proof. split; reflexivity. Qed.

End RequestFacts.

(** ** The schema-to-template engine *)
Module SchemaFacts.
Import JS Run Schema Notions JSFacts.

(** Induction on values, with the parts of arrays and objects. *)
Lemma value_parts_ind (P : value -> Prop) :
  P JUndefined -> P JNull -> (forall b, P (JBool b)) ->
  (forall repr, P (JNum repr)) -> (forall s, P (JStr s)) ->
  (forall items, Forall P items -> P (JArr items)) ->
  (forall props target,
      Forall (fun entry => P (snd entry)) props ->
      (forall t, target = Some t -> P t) ->
      P (JObj props target)) ->
  forall v, P v.
Proof.
  intros Hu Hn Hb Hnum Hs Harr Hobj. fix IH 1. intros [| |b|repr|s|items|props target].
  - apply Hu.
  - apply Hn.
  - apply Hb.
  - apply Hnum.
  - apply Hs.
  - apply Harr. revert items. fix IHitems 1.
    intros [|x items]; constructor; [apply IH | apply IHitems].
  - apply Hobj.
    + revert props. fix IHprops 1.
      intros [|[k x] props]; constructor; [apply IH | apply IHprops].
    + destruct target as [t|]; intros t' Ht; [| discriminate].
      injection Ht as <-. apply IH.
Qed.

(** *** Heights *)

Lemma height_item items x : x ∈ items -> height x < height (JArr items).
Proof.
  simpl. induction items as [|y items IH]; intros H; [inversion H |].
  apply elem_of_cons in H as [->|H]; simpl; [lia |]. specialize (IH H). lia.
Qed.

Lemma height_prop props target k x :
  (k, x) ∈ props -> height x < height (JObj props target).
Proof.
  simpl. induction props as [|[k' y] props IH]; intros H; [inversion H |].
  apply elem_of_cons in H as [[= <- <-]|H]; simpl; [lia |]. specialize (IH H). lia.
Qed.

Lemma height_target props t : height t < height (JObj props (Some t)).
Proof. simpl. lia. Qed.

Lemma indexed_elem {A : Type} (l : list A) : forall i k x,
  (k, x) ∈ indexed i l -> x ∈ l.
Proof.
  induction l as [|y l IH]; intros i k x H; simpl in H; [inversion H |].
  apply elem_of_cons in H as [[= _ ->]|H]; [constructor |].
  constructor. by eapply IH.
Qed.

Lemma chars_strings s x : x ∈ chars s -> exists c, x = JStr c.
Proof.
  induction s as [|c s IH]; simpl; intros H; [inversion H |].
  apply elem_of_cons in H as [->|H]; eauto.
Qed.

(** A copied property is a string or lies deeper than the value copied. *)
Lemma ownProps_height v k x :
  (k, x) ∈ ownProps v -> (exists c, x = JStr c) \/ height x < height v.
Proof.
  destruct v as [| |b|repr|s|items|props target]; simpl; intros H;
    try (by inversion H).
  - left. apply indexed_elem in H. by apply chars_strings in H.
  - right. apply indexed_elem in H. by apply (height_item items).
  - right. by apply (height_prop props target k).
Qed.

Lemma annotate_get title description props k :
  k <> "title" -> k <> "description" ->
  js_get k (annotate title description props) = js_get k props.
Proof.
  intros Ht Hd. unfold annotate.
  destruct description as [d|], title as [t|]; rewrite ?js_get_set;
    repeat match goal with
    | |- context [String.eqb ?a k] => destruct (String.eqb_spec a k); [congruence |]
    end; done.
Qed.

(** The copy [traverseSchemaReference] returns is made from the end of the
    reference chain. *)
Lemma traverseFrom_shape isObj schema : forall title description,
  exists final title' description',
    height final <= height schema
    /\ traverseFrom isObj title description schema
       = obj (annotate title' description' (ownProps final)).
Proof.
  induction schema as [| |b|repr|s|items _|props target _ IH] using value_parts_ind;
    intros title description.
  7: destruct target as [t|].
  7: { destruct (IH t eq_refl (noteText isObj "title" title (JObj props (Some t)))
                   (noteText isObj "description" description (JObj props (Some t))))
         as (final & title' & description' & Hle & Heq).
       exists final, title', description'. split; [| exact Heq].
       pose proof (height_target props t). lia. }
  all: eexists _, _, _; split; [| reflexivity]; lia.
Qed.

Lemma traverseFrom_allOf isObj schema title description members :
  prop "allOf" (traverseFrom isObj title description schema) = JArr members ->
  forall m, m ∈ members -> S (S (height m)) <= height schema.
Proof.
  destruct (traverseFrom_shape isObj schema title description)
    as (final & title' & description' & Hle & ->).
  unfold prop, obj. rewrite annotate_get by done.
  destruct (js_get "allOf" (ownProps final)) as [x|] eqn:Hget; [| discriminate].
  intros -> m Hm.
  apply js_get_In, ownProps_height in Hget as [(c & Hc)|Hlt]; [discriminate |].
  pose proof (height_item members m Hm). lia.
Qed.

(** *** The reference chain *)

Lemma noteText_first isObj name seen v :
  noteText isObj name seen v
  = match seen with
    | Some _ => seen
    | None => firstText isObj name [v]
    end.
Proof.
  unfold noteText. simpl. destruct seen; [done |].
  destruct (isObj v); [| done]. by destruct (prop name v).
Qed.

Lemma traverseFrom_chain isObj schema : forall title description,
  traverseFrom isObj title description schema
  = obj (annotate
           (match title with
            | Some _ => title
            | None => firstText isObj "title" (chainOf schema)
            end)
           (match description with
            | Some _ => description
            | None => firstText isObj "description" (chainOf schema)
            end)
           (ownProps (chainEnd schema))).
Proof.
  induction schema as [| |b|repr|s|items _|props target _ IH] using value_parts_ind;
    intros title description.
  7: destruct target as [t|].
  7: { cbn [traverseFrom chainOf chainEnd]. rewrite (IH t eq_refl).
       rewrite !noteText_first. cbn [firstText].
       destruct title, description; try done;
         destruct (isObj (JObj props (Some t)));
         try destruct (prop "title" (JObj props (Some t)));
         try destruct (prop "description" (JObj props (Some t))); done. }
  all: cbn [traverseFrom chainOf chainEnd]; rewrite !noteText_first;
    by destruct title, description.
Qed.

Lemma annotate_title title description props :
  js_get "title" (annotate title description props)
  = match title with Some t => Some (JStr t) | None => js_get "title" props end.
Proof.
  unfold annotate. destruct description as [d|], title as [t|];
    rewrite ?js_get_set; done.
Qed.

Lemma annotate_description title description props :
  js_get "description" (annotate title description props)
  = match description with
    | Some d => Some (JStr d)
    | None => js_get "description" props
    end.
Proof.
  unfold annotate. destruct description as [d|], title as [t|];
    rewrite ?js_get_set; done.
Qed.

Section WithCollaborators.
Context (E : Collaborators).

(** *** Termination of [resolveSchema] *)

Lemma mergeMembers_fuel resolve schema members :
  (forall m, m ∈ members -> resolve m <> OutOfFuel) ->
  forall title description properties,
    mergeMembers E resolve schema title description properties members <> OutOfFuel.
Proof.
  induction members as [|m rest IH]; intros Hres title description properties; simpl.
  - done.
  - assert (resolve m <> OutOfFuel) as Hm by (apply Hres; constructor).
    destruct (resolve m) as [m'| |]; simpl; [| done | done].
    destruct (negb (isObjectSchema E m')); [done |].
    destruct (isDefined (prop "properties" m')); simpl.
    + destruct (entries (prop "properties" m')) as [declared| |] eqn:Hentries; simpl.
      * apply IH. intros x Hx. apply Hres. by constructor.
      * done.
      * by destruct (prop "properties" m').
    + apply IH. intros x Hx. apply Hres. by constructor.
Qed.

(** [resolveSchema] ends once the fuel exceeds the height of the schema. *)
Lemma resolveSchema_fuel fuel : forall schema,
  height schema < fuel -> resolveSchema E fuel schema <> OutOfFuel.
Proof.
  induction fuel as [|fuel IH]; intros schema Hfuel; [lia |].
  cbn [resolveSchema]. unfold resolveAllOfWith.
  destruct (negb (isObject E (traverseSchemaReference E schema))); [done |].
  destruct (prop "allOf" (traverseSchemaReference E schema)) eqn:Hall; try done.
  apply mergeMembers_fuel. intros m Hm. apply IH.
  pose proof (traverseFrom_allOf _ _ _ _ _ Hall m Hm). lia.
Qed.

(** *** Depth *)

(** C5 (as the code has it): in element mode, the mode array items are
    rendered in, a state deeper than six levels gets the raw JSON block
    whatever the shape of the schema: resolution of the schema ends, and when
    it returns the template is the fallback one, when it throws the element
    template throws the same. *)
Theorem element_deeper_than_six_is_raw_block fuel state schema :
  (6 < depth state)%Z ->
  height schema < fuel ->
  resolveSchema E fuel schema <> OutOfFuel
  /\ (forall resolved,
        resolveSchema E fuel schema = Returned resolved ->
        generateElementTemplate E fuel state schema
        = Returned (generateFallbackTemplate E state resolved))
  /\ (forall e,
        resolveSchema E fuel schema = Thrown e ->
        generateElementTemplate E fuel state schema = Thrown e).
Proof.
  intros Hdeep Hfuel. split; [by apply resolveSchema_fuel |].
  unfold generateElementTemplate. split.
  - intros resolved ->. simpl. apply Z.ltb_lt in Hdeep. by rewrite Hdeep.
  - intros e ->. done.
Qed.

(** *** [allOf] *)











(** *** What the engine throws: nothing but the [TypeError] of the runtime *)

Lemma noApiError_bind {A B : Type} (m : outcome A) (k : A -> outcome B) :
  noApiError m -> (forall a, noApiError (k a)) -> noApiError (m ≫= k).
Proof.
  intros Hm Hk message. destruct m as [a|e|]; simpl; [apply Hk | | done].
  intros [= ->]. by apply (Hm message).
Qed.

Lemma returns_or_TypeError {A : Type} (m : outcome A) :
  noApiError m -> m <> OutOfFuel -> (exists a, m = Returned a) \/ m = Thrown TypeError.
Proof.
  intros Hthrows Hends. destruct m as [a|[message|]|]; [eauto | | by right | done].
  by destruct (Hthrows message).
Qed.

Lemma noApiError_Returned {A : Type} (a : A) : noApiError (Returned a).
Proof. intros message. discriminate. Qed.

Lemma noApiError_entries v : noApiError (entries v).
Proof. intros message. by destruct v. Qed.

Lemma noApiError_firstLine v : noApiError (firstLine v).
Proof. intros message. by destruct v. Qed.

Lemma noApiError_propertySummary propName propSchema :
  noApiError (propertySummary propName propSchema).
Proof.
  unfold propertySummary. apply noApiError_bind; [| intros; apply noApiError_Returned].
  destruct (isDefined (prop "default" propSchema)); [| apply noApiError_Returned].
  destruct (toString (prop "default" propSchema)); [apply noApiError_Returned | done].
Qed.

Lemma noApiError_arrayTitle schema itemSchema :
  noApiError (arrayTitle schema itemSchema).
Proof.
  unfold arrayTitle.
  destruct (prop "title" schema); try apply noApiError_Returned;
    (destruct (isDefined (prop "title" itemSchema)); [| apply noApiError_Returned]);
    (destruct (toString (prop "title" itemSchema));
     [apply noApiError_Returned | done]).
Qed.

Lemma noApiError_mergeMembers resolve schema members :
  (forall v, noApiError (resolve v)) ->
  forall title description properties,
    noApiError (mergeMembers E resolve schema title description properties members).
Proof.
  intros Hresolve. induction members as [|m rest IH]; intros title description
    properties; cbn [mergeMembers].
  - apply noApiError_Returned.
  - apply noApiError_bind; [apply Hresolve |]. intros m'.
    destruct (negb (isObjectSchema E m')); [apply noApiError_Returned |].
    apply noApiError_bind; [| intros; apply IH].
    destruct (isDefined (prop "properties" m')); [| apply noApiError_Returned].
    apply noApiError_bind; [apply noApiError_entries |].
    intros. apply noApiError_Returned.
Qed.

Lemma noApiError_resolveSchema fuel : forall schema,
  noApiError (resolveSchema E fuel schema).
Proof.
  induction fuel as [|fuel IH]; intros schema; cbn [resolveSchema]; [done |].
  unfold resolveAllOfWith.
  destruct (negb (isObject E _)); [apply noApiError_Returned |].
  destruct (prop "allOf" _); try apply noApiError_Returned.
  by apply noApiError_mergeMembers.
Qed.

Lemma noApiError_generateKeyPropertyItems fuel : forall schema,
  noApiError (generateKeyPropertyItems E fuel schema).
Proof.
  induction fuel as [|fuel IH]; intros schema; cbn [generateKeyPropertyItems];
    [done |].
  destruct (negb (isDefined (prop "properties" schema)));
    [apply noApiError_Returned |].
  apply noApiError_bind; [apply noApiError_entries |].
  intros declared. generalize (@nil value).
  induction declared as [|[propName propSchema] rest IHrest]; intros propertyItems;
    cbn [eachProperty].
  - apply noApiError_Returned.
  - apply noApiError_bind; [apply noApiError_resolveSchema |]. intros resolved.
    destruct (negb (isObject E resolved)); [apply IHrest |].
    apply noApiError_bind; [apply noApiError_propertySummary |]. intros summary.
    apply noApiError_bind; [| intros; apply IHrest].
    destruct (isObjectSchema E resolved); [apply IH | apply noApiError_Returned].
Qed.

Lemma noApiError_generateElementTemplate fuel state schema :
  noApiError (generateElementTemplate E fuel state schema).
Proof.
  unfold generateElementTemplate.
  apply noApiError_bind; [apply noApiError_resolveSchema |]. intros resolved.
  destruct (6 <? depth state)%Z; [apply noApiError_Returned |].
  destruct (isObjectSchema E resolved); apply noApiError_Returned.
Qed.

Lemma noApiError_generateMasterTemplate fuel state schema :
  noApiError (generateMasterTemplate E fuel state schema).
Proof.
  unfold generateMasterTemplate.
  apply noApiError_bind; [apply noApiError_resolveSchema |]. intros resolved.
  destruct (isArraySchema E resolved); [| destruct (isObjectSchema E resolved)].
  - unfold generateArrayMasterTemplate.
    apply noApiError_bind; [apply noApiError_resolveSchema |]. intros itemSchema.
    apply noApiError_bind; [apply noApiError_arrayTitle |]. intros title.
    apply noApiError_bind; [apply noApiError_generateKeyPropertyItems |]. intros items.
    apply noApiError_bind; [apply noApiError_generateElementTemplate |]. intros item.
    apply noApiError_bind; [apply noApiError_firstLine |]. intros line.
    apply noApiError_Returned.
  - unfold generateObjectMasterTemplate.
    apply noApiError_bind; [apply noApiError_generateKeyPropertyItems |]. intros items.
    apply noApiError_bind; [apply noApiError_firstLine |]. intros line.
    apply noApiError_Returned.
  - apply noApiError_Returned.
Qed.

Lemma noApiError_generateSchemaTemplate fuel state schema :
  noApiError (generateSchemaTemplate E fuel state schema).
Proof.
  unfold generateSchemaTemplate.
  apply noApiError_bind; [apply noApiError_generateMasterTemplate |]. intros content.
  apply noApiError_Returned.
Qed.

End WithCollaborators.
(** *** At example schemas *)

Lemma element_deeper_than_six_is_raw_block_witness :
  generateElementTemplate Examples.plain 5 Examples.deep Examples.objectSchema
  = Returned (jsonBlock Examples.plain Examples.deep).
Proof.
  destruct (element_deeper_than_six_is_raw_block Examples.plain 5 Examples.deep
              Examples.objectSchema) as (_ & Hreturned & _).
  - reflexivity.
  - simpl. lia.
  - apply (Hreturned Examples.objectSchema). reflexivity.
Defined.

(** C5 (as stated) fails: in master mode an object schema at depth seven gets
    a heading and a block, not the raw JSON block alone. *)
Lemma master_deeper_than_six_is_not_raw_block :
  generateMasterTemplate Examples.plain 5 Examples.deep (obj [("type", JStr "object")])
  = Returned (obj [("$block",
                    JArr [obj [("$h7", JStr "Object")];
                          jsonBlock Examples.plain Examples.deep])])
  /\ generateMasterTemplate Examples.plain 5 Examples.deep
       (obj [("type", JStr "object")])
     <> Returned (generateFallbackTemplate Examples.plain Examples.deep
                    (obj [("type", JStr "object")]))
  /\ generateSchemaTemplate Examples.plain 5 Examples.deep
       (obj [("type", JStr "object")])
     = Returned (obj [("$encode", JStr "markdown");
                      ("$block",
                       JArr [obj [("$h7", JStr "Object")];
                             jsonBlock Examples.plain Examples.deep])]).
Proof. split; [reflexivity | split; [discriminate | reflexivity]]. Qed.




(** The merge of the specification's two-member example, evaluated. *)
Example both_merged :
  resolveAllOfSchema Examples.plain 1 Examples.both
  = Returned
      (obj [("type", JStr "object"); ("title", JStr "First");
            ("description", JStr "Second");
            ("properties",
             obj [("a", Examples.stringSchema); ("b", Examples.integerSchema);
                  ("c", Examples.integerSchema)])]).
Proof. reflexivity. Qed.

(** The scenario of C6: the schema comes back as it was and is rendered as the
    raw JSON block. *)
Example mixed_allOf_falls_through (state : ApiSchemaState) :
  resolveSchema Examples.plain 2 Examples.mixed = Returned Examples.mixed
  /\ generateMasterTemplate Examples.plain 2 state Examples.mixed
     = Returned (jsonBlock Examples.plain state).
Proof. split; reflexivity. Qed.

End SchemaFacts.

(** ** The handle assembler *)
Module GenerateFacts.
Import JS OpenApi31 Api Run Request Schema Responses Generate Notions.
Import JSFacts RequestFacts SchemaFacts.

Lemma sanitize_get (s : string) : forall i,
  String.get i (sanitize s)
  = match String.get i s with
    | Some c => Some (if isNameChar c then c else "_"%char)
    | None => None
    end.
Proof.
  induction s as [|c s IH]; intros i; simpl; [done |].
  destruct i as [|i]; [done | apply IH].
Qed.

Lemma sanitize_length (s : string) : String.length (sanitize s) = String.length s.
Proof. unfold sanitize. induction s as [|c s IH]; simpl; [done | by rewrite IH]. Qed.

Lemma sanitize_name_chars (s : string) i c :
  String.get i (sanitize s) = Some c -> isNameChar c = true.
Proof.
  rewrite sanitize_get. destruct (String.get i s) as [d|]; [| discriminate].
  intros [= <-]. destruct (isNameChar d) eqn:Hd; [done | reflexivity].
Qed.

Section WithCollaborators.
Context (E : Collaborators).

Lemma noApiError_buildResponses fuel result todo : forall responses,
  noApiError (buildResponses E fuel result todo responses).
Proof.
  induction todo as [|[code [index response]] rest IH]; intros responses;
    cbn [buildResponses].
  - apply noApiError_Returned.
  - apply noApiError_bind; [apply noApiError_generateSchemaTemplate |].
    intros template. apply IH.
Qed.

Lemma noApiError_generateApiHandleResponses fuel operation options :
  noApiError (generateApiHandleResponses E fuel operation options).
Proof.
  unfold generateApiHandleResponses.
  destruct (collectResponses E _ [] []) as [responseIndex schemaRoots].
  apply noApiError_bind; [apply noApiError_buildResponses |].
  intros. apply noApiError_Returned.
Qed.

(** The synthesizer of the request throws for one reason only. *)
Lemma generateApiHandleRequest_throws operation options e :
  generateApiHandleRequest E operation options = Thrown e ->
  e = ApiError "No servers defined for operation".
Proof.
  destruct (generateApiHandleRequest_unfold E operation options) as (st & _ & ->).
  rewrite selectServer_cases.
  destruct (optionServer options); [discriminate |].
  destruct (declaredServers operation) as [[|]|]; congruence.
Qed.

(** The name of the handle whenever a handle is returned. *)
Lemma generateApiHandle_name fuel operation options handle :
  generateApiHandle E fuel operation options = Returned handle ->
  handleName operation = Returned (name handle).
Proof.
  unfold generateApiHandle.
  destruct (handleName operation) as [n| |]; simpl; [| discriminate..].
  destruct (generateApiHandleRequest E operation options) as [req| |]; simpl;
    [| discriminate..].
  destruct (generateApiHandleResponses E fuel operation options) as [resp| |]; simpl;
    [| discriminate..].
  by intros [= <-].
Qed.

(** C7: the name step of [generateApiHandle] returns the operationId when
    there is one, else the upper-cased method, a space and the path; in either
    case with every character outside [A-Za-z0-9_-] replaced by an underscore,
    position by position; this is the name of every handle generated. *)
Theorem handle_name_is_sanitized_id_or_method_path fuel operation options :
  let raw :=
    match op_operationId (node operation) with
    | Some id => id
    | None => toUpperCase (key operation) +:+ " " +:+ pathItem_key (pathItem operation)
    end in
  handleName operation = Returned (sanitize raw)
  /\ (forall handle,
        generateApiHandle E fuel operation options = Returned handle ->
        name handle = sanitize raw)
  /\ String.length (sanitize raw) = String.length raw
  /\ (forall i,
        String.get i (sanitize raw)
        = match String.get i raw with
          | Some c => Some (if isNameChar c then c else "_"%char)
          | None => None
          end)
  /\ (forall i c, String.get i (sanitize raw) = Some c -> isNameChar c = true).
Proof.
  intros raw.
  assert (handleName operation = Returned (sanitize raw)) as Hname.
  { unfold handleName, rawName, operationId, method, path. subst raw.
    by destruct (op_operationId (node operation)). }
  split; [exact Hname |]. split.
  - intros handle Hgen. apply generateApiHandle_name in Hgen.
    rewrite Hname in Hgen. by injection Hgen.
  - split; [apply sanitize_length |].
    split; [apply sanitize_get | apply sanitize_name_chars].
Qed.

(** C10: a raw name always exists, so the name step returns and generation
    never throws "Unnamed operation". *)
Theorem unnamed_operation_is_unreachable fuel operation options :
  rawName operation <> None
  /\ handleName operation
     = Returned (sanitize
                   (match op_operationId (node operation) with
                    | Some id => id
                    | None => method operation +:+ " " +:+ path operation
                    end))
  /\ generateApiHandle E fuel operation options
     <> Thrown (ApiError "Unnamed operation").
Proof.
  assert (handleName operation
          = Returned (sanitize
                        (match op_operationId (node operation) with
                         | Some id => id
                         | None => method operation +:+ " " +:+ path operation
                         end))) as Hname.
  { unfold handleName, rawName, operationId.
    by destruct (op_operationId (node operation)). }
  split; [| split; [exact Hname |]].
  - unfold rawName. by destruct (operationId operation).
  - unfold generateApiHandle. rewrite Hname. simpl.
    destruct (generateApiHandleRequest E operation options) as [req|e|] eqn:Hreq;
      simpl; [| | done].
    + pose proof (noApiError_generateApiHandleResponses fuel operation options) as Hresp.
      destruct (generateApiHandleResponses E fuel operation options) as [resp|e|];
        simpl; [done | | done].
      intros [= ->]. by apply (Hresp "Unnamed operation").
    + apply generateApiHandleRequest_throws in Hreq as ->. discriminate.
Qed.

End WithCollaborators.

(** *** At an example operation *)

(** The scenario of C7. *)
Lemma handle_name_is_sanitized_id_or_method_path_witness :
  handleName Examples.getUser = Returned "GET__users__id_"
  /\ exists handle,
       generateApiHandle Examples.plain 5 Examples.getUser None = Returned handle
       /\ name handle = "GET__users__id_".
Proof.
  destruct (handle_name_is_sanitized_id_or_method_path Examples.plain 5
              Examples.getUser None) as (Hname & Hhandle & _).
  split; [exact Hname |].
  eexists. split; [reflexivity |]. apply Hhandle. reflexivity.
Defined.

End GenerateFacts.

(** ** Paths, the operations of an API, and the method getters *)
Module GraphFacts.
Import JS OpenApi31 Api Graph JSFacts ApiFacts.

Lemma pathItemsOf_elem api entries item :
  item ∈ pathItemsOf api entries <->
  (pathItem_key item, pathItem_node item) ∈ entries
  /\ startsWith "x-" (pathItem_key item) = false
  /\ pathItem_api item = api.
Proof.
  induction entries as [|[k v] rest IH]; simpl.
  - split; [intros H; inversion H | intros (H & _); inversion H].
  - destruct (startsWith "x-" k) eqn:Hx.
    + rewrite IH. split.
      * intros (Hin & Hkey & Hapi). split; [by constructor | done].
      * intros (Hin & Hkey & Hapi). split; [| done].
        apply elem_of_cons in Hin as [[= Hk _]|Hin]; [congruence | done].
    + rewrite elem_of_cons, IH. split.
      * intros [->|(Hin & Hkey & Hapi)]; simpl.
        -- split; [constructor | done].
        -- split; [by constructor | done].
      * intros (Hin & Hkey & Hapi).
        apply elem_of_cons in Hin as [[= Hk Hv]|Hin]; [left | right; done].
        destruct item as [k' v' api']. simpl in *. by subst.
Qed.

Lemma pathItemsOf_keys api entries :
  NoDup (js_keys entries) -> NoDup (map pathItem_key (pathItemsOf api entries)).
Proof.
  unfold js_keys. induction entries as [|[k v] rest IH]; simpl; intros Hnd.
  - constructor.
  - apply NoDup_cons in Hnd as [Hfresh Hnd].
    destruct (startsWith "x-" k); [by apply IH |]. simpl.
    constructor; [| by apply IH].
    intros Hin. apply list_elem_of_fmap in Hin as (item & -> & Hitem).
    apply pathItemsOf_elem in Hitem as (Hin & _). apply Hfresh.
    apply list_elem_of_fmap. by exists (pathItem_key item, pathItem_node item).
Qed.

Lemma pathItems_get (paths : ApiPaths) :
  NoDup (js_keys (pathEntries paths)) ->
  (forall item,
      item ∈ pathItems paths <-> pathsGet paths (pathItem_key item) = Some item)
  /\ (forall item, item ∈ pathItems paths ->
        startsWith "x-" (pathItem_key item) = false).
Proof.
  intros Hnd. unfold pathItems, pathsGet, pathEntries in *.
  destruct (paths_node paths) as [entries|]; simpl.
  2: { split; [| intros item H; inversion H].
       intros item. split; [intros H; inversion H | discriminate]. }
  split.
  - intros item. rewrite pathItemsOf_elem. split.
    + intros (Hin & Hkey & Hapi). rewrite (js_get_NoDup _ _ _ Hnd Hin), Hkey.
      destruct item as [k v api]. simpl in *. by subst.
    + destruct (js_get (pathItem_key item) entries) as [v|] eqn:Hget; [| discriminate].
      destruct (startsWith "x-" (pathItem_key item)); [discriminate |].
      intros [= Heq]. rewrite <- Heq. simpl. split; [| done].
      by apply js_get_In.
  - intros item Hitem. by apply pathItemsOf_elem in Hitem as (_ & Hkey & _).
Qed.

Lemma pathsGet_key paths k item :
  pathsGet paths k = Some item -> pathItem_key item = k.
Proof.
  unfold pathsGet.
  destruct (match paths_node paths with
            | Some entries => js_get k entries
            | None => None
            end); [| discriminate].
  destruct (startsWith "x-" k); [discriminate |]. by intros [= <-].
Qed.

(** X1: lookup and iteration of the paths agree on the keys of the paths
    node, and both hide the extension keys: when the keys are distinct, a path
    item the iterator yields is the one [get] returns for its key, and its key
    does not start with [x-]; what [get] returns for a key of the node is
    yielded by the iterator; [get] returns nothing for a key that starts with
    [x-]. *)
Theorem paths_get_agrees_with_iteration (paths : ApiPaths) :
  NoDup (js_keys (pathEntries paths)) ->
  (forall item,
      item ∈ pathItems paths ->
      pathsGet paths (pathItem_key item) = Some item
      /\ startsWith "x-" (pathItem_key item) = false)
  /\ (forall k item,
        k ∈ js_keys (pathEntries paths) -> pathsGet paths k = Some item ->
        item ∈ pathItems paths /\ pathItem_key item = k)
  /\ (forall k, startsWith "x-" k = true -> pathsGet paths k = None).
Proof.
  intros Hnd. destruct (pathItems_get paths Hnd) as (Hget & Hx).
  split; [| split].
  - intros item Hitem. split; [by apply Hget | by apply Hx].
  - intros k item _ Hitem. pose proof (pathsGet_key _ _ _ Hitem) as <-.
    split; [by apply Hget | done].
  - unfold pathsGet. intros k ->.
    by destruct (match paths_node paths with
                 | Some entries => js_get k entries
                 | None => None
                 end).
Qed.

(** What every operation of a path item carries. *)
Lemma operations_elem this o :
  o ∈ operations this ->
  key o ∈ OPERATIONS /\ pathItem o = this
  /\ operationAt (key o) (pathItem_node this) = Some (node o).
Proof.
  intros Ho. unfold operations in Ho.
  destruct (operationsFrom_spec this (pathItem_node this) ∅) as (_ & Hsound & _).
  destruct (Hsound o Ho) as (_ & Hop & Hthis & Hat). split; [| done].
  unfold inOPERATIONS in Hop. apply existsb_exists in Hop as (x & Hx & Heq).
  apply String.eqb_eq in Heq as ->. by apply list_elem_of_In.
Qed.

Lemma operations_keys this : NoDup (map key (operations this)).
Proof. apply (operationsFrom_spec this (pathItem_node this) ∅). Qed.

Lemma flat_map_operations_distinct items :
  NoDup (map pathItem_key items) ->
  NoDup (map (fun o => (path o, key o)) (flat_map operations items)).
Proof.
  induction items as [|item rest IH]; simpl; intros Hnd; [constructor |].
  apply NoDup_cons in Hnd as [Hfresh Hnd].
  rewrite map_app. apply NoDup_app. split; [| split; [| by apply IH]].
  - apply (NoDup_fmap_2_strong _ (operations item)); [| apply NoDup_fmap_1 with key, operations_keys].
    intros o1 o2 Ho1 Ho2 [= _ Hkey].
    destruct (operations_elem _ _ Ho1) as (_ & Hthis1 & Hat1).
    destruct (operations_elem _ _ Ho2) as (_ & Hthis2 & Hat2).
    destruct o1 as [k1 n1 p1], o2 as [k2 n2 p2]. simpl in *. subst.
    rewrite Hat1 in Hat2. by injection Hat2 as ->.
  - intros pair Hhere Hthere.
    apply list_elem_of_fmap in Hhere as (o & -> & Ho).
    apply list_elem_of_fmap in Hthere as (o' & [= Hpath _] & Ho').
    apply list_elem_of_In, in_flat_map in Ho' as (item' & Hitem' & Ho').
    apply list_elem_of_In in Hitem', Ho'.
    destruct (operations_elem _ _ Ho) as (_ & Hthis & _).
    destruct (operations_elem _ _ Ho') as (_ & Hthis' & _).
    unfold path in Hpath. rewrite Hthis, Hthis' in Hpath.
    apply Hfresh. rewrite Hpath. by apply list_elem_of_fmap_2.
Qed.

(** X2: the operations of an API are those of its path items, in path order;
    each belongs to a path item that [get] returns for its path, which is not
    an extension key, and has one of the eight methods; when the keys of the
    paths node are distinct no two operations have the same path and method. *)
Theorem api_operations_are_distinct (paths : ApiPaths) :
  NoDup (js_keys (pathEntries paths)) ->
  NoDup (map (fun o => (path o, key o)) (apiOperations paths))
  /\ (forall o, o ∈ apiOperations paths ->
        key o ∈ OPERATIONS
        /\ startsWith "x-" (path o) = false
        /\ pathsGet paths (path o) = Some (pathItem o)
        /\ o ∈ operations (pathItem o)).
Proof.
  intros Hnd. split.
  - unfold apiOperations, pathItems, pathEntries in *.
    destruct (paths_node paths) as [entries|]; [| constructor].
    by apply flat_map_operations_distinct, pathItemsOf_keys.
  - intros o Ho. unfold apiOperations in Ho.
    apply list_elem_of_In, in_flat_map in Ho as (item & Hitem & Ho).
    apply list_elem_of_In in Hitem, Ho.
    destruct (operations_elem _ _ Ho) as (Hkey & Hthis & _).
    destruct (pathItems_get paths Hnd) as (Hget & Hx).
    unfold path. rewrite Hthis. split; [done |].
    split; [by apply Hx |]. split; [by apply Hget | done].
Qed.

(** *** The method getters *)

Lemma getterFrom_spec m template api n :
  match getterFrom m template api n with
  | Some g =>
      key g = m /\ pathItem_key (pathItem g) = template
      /\ pathItem_api (pathItem g) = api
      /\ js_get m (pi_methods (pathItem_node (pathItem g))) = Some (node g)
      /\ operationAt m n = Some (node g)
  | None => operationAt m n = None
  end.
Proof.
  induction n as [methods servers parameters|methods servers parameters target IH]
    using PathItemObject_chain_ind; simpl.
  - destruct (js_get m methods) as [v|] eqn:Hget; simpl; [by rewrite Hget | done].
  - destruct (js_get m methods) as [v|] eqn:Hget; simpl; [by rewrite Hget | done].
Qed.

(** X3: each method getter of a path item agrees with [operations()] on the
    operation a method denotes: the getter returns an operation exactly when
    [operations()] yields one for the method, with the same node, path and API.
    The operation of the getter belongs to the path item of the chain that
    declares the method, the one yielded by [operations()] to the path item
    asked. *)
Theorem method_getter_agrees_with_operations (this : ApiPathItem) (m : string) :
  m ∈ OPERATIONS ->
  match methodGetter m this with
  | Some g =>
      key g = m /\ path g = pathItem_key this
      /\ pathItem_api (pathItem g) = pathItem_api this
      /\ js_get m (pi_methods (pathItem_node (pathItem g))) = Some (node g)
      /\ {| key := m; node := node g; pathItem := this |} ∈ operations this
  | None => forall o, o ∈ operations this -> key o <> m
  end.
Proof.
  intros Hm. unfold methodGetter.
  pose proof (getterFrom_spec m (pathItem_key this) (pathItem_api this)
                (pathItem_node this)) as Hspec.
  destruct (operationsFrom_spec this (pathItem_node this) ∅)
    as (_ & Hsound & Hcomplete).
  assert (inOPERATIONS m = true) as Hop.
  { unfold inOPERATIONS. apply existsb_exists. exists m.
    split; [by apply list_elem_of_In | apply String.eqb_refl]. }
  destruct (getterFrom m _ _ _) as [g|].
  - destruct Hspec as (Hkey & Htemplate & Hapi & Hdeclares & Hat).
    split; [done |]. split; [done |]. split; [done |]. split; [done |].
    apply Hcomplete; [done | set_solver | done].
  - intros o Ho Hkey. destruct (Hsound o Ho) as (_ & _ & _ & Hat).
    rewrite Hkey in Hat. congruence.
Qed.

(** *** At example paths *)

Lemma paths_get_agrees_with_iteration_witness :
  map pathItem_key (pathItems MoreExamples.somePaths) = ["/items"; "/users"]
  /\ pathsGet MoreExamples.somePaths "x-internal" = None
  /\ forall item,
       item ∈ pathItems MoreExamples.somePaths ->
       pathsGet MoreExamples.somePaths (pathItem_key item) = Some item
       /\ startsWith "x-" (pathItem_key item) = false.
Proof.
  split; [reflexivity |]. split; [reflexivity |].
  apply (paths_get_agrees_with_iteration MoreExamples.somePaths).
  unfold js_keys. simpl. repeat constructor; set_solver.
Defined.

Lemma api_operations_are_distinct_witness :
  map (fun o => (path o, key o)) (apiOperations MoreExamples.somePaths)
  = [("/items", "get"); ("/items", "post"); ("/users", "post")]
  /\ NoDup (map (fun o => (path o, key o)) (apiOperations MoreExamples.somePaths)).
Proof.
  split; [vm_compute; reflexivity |].
  apply (api_operations_are_distinct MoreExamples.somePaths).
  unfold js_keys. simpl. repeat constructor; set_solver.
Defined.

(** The getter at a path item that refers to the one defining [get]: the
    operation is found, and it inherits the parameters of the path item
    referred to, whereas the operation yielded by [operations()] inherits those
    of the referring one. *)
Lemma method_getter_agrees_with_operations_witness :
  (exists g,
      methodGetter "get" MoreExamples.referringWithParameters = Some g
      /\ allParameters g = [MoreExamples.limitQuery])
  /\ map allParameters (operations MoreExamples.referringWithParameters)
     = [[Examples.idQuery]]
  /\ match methodGetter "get" MoreExamples.referringWithParameters with
     | Some g =>
         {| key := "get"; node := node g;
            pathItem := MoreExamples.referringWithParameters |}
         ∈ operations MoreExamples.referringWithParameters
     | None => False
     end.
Proof.
  split; [eexists; split; reflexivity |]. split; [vm_compute; reflexivity |].
  pose proof (method_getter_agrees_with_operations
                MoreExamples.referringWithParameters "get") as H.
  destruct (methodGetter "get" MoreExamples.referringWithParameters) as [g|] eqn:Hg;
    [| discriminate].
  apply H. unfold OPERATIONS. set_solver.
Defined.

End GraphFacts.

(** ** The parameters schema and the slots of the request *)
Module ParametersFacts.
Import JS OpenApi31 Api Run Request Notions MoreNotions JSFacts ApiFacts RequestFacts.

Section WithCollaborators.
Context (E : Collaborators).

(** *** Header slots *)

(** X4: once a server is selected the synthesizer returns; the request
    template has [headers] exactly when some header parameter has an object
    schema, and then [headers] has one slot per name of such a parameter, the
    slot holding the variable of that name; the name [__proto__] gets no
    slot. *)
Theorem header_slots_of_header_parameters operation options selected :
  selectServer operation options = Returned selected ->
  exists r,
    generateApiHandleRequest E operation options = Returned r
    /\ (prop "headers" (request r) = JUndefined
        <-> existsb (isHeaderParameter E) (allParameters operation) = false)
    /\ NoDup (js_keys (ownProps (prop "headers" (request r))))
    /\ (forall k,
          k ∈ js_keys (ownProps (prop "headers" (request r)))
          <-> k <> "__proto__"
              /\ exists p, p ∈ allParameters operation
                           /\ isHeaderParameter E p = true /\ nameKey p = k)
    /\ (forall k slot,
          js_get k (ownProps (prop "headers" (request r))) = Some slot ->
          exists p, p ∈ allParameters operation
                    /\ isHeaderParameter E p = true /\ nameKey p = k
                    /\ slot = obj [("$", nameValue p)]).
Proof.
  intros Hserver.
  destruct (generateApiHandleRequest_unfold E operation options) as (st & Hst & ->).
  rewrite Hserver. eexists. split; [reflexivity |].
  rewrite assemble_headers.
  destruct (collectBody_returns E (collectParameters E (allParameters operation))
              (op_requestBody (node operation)))
    as (st' & Hst' & _ & Hheaders & _).
  rewrite Hst in Hst'. injection Hst' as <-.
  destruct (collect_headers E (allParameters operation) start)
    as (Hnone & Hkeys & Hnd & Hval).
  fold (collectParameters E (allParameters operation)) in Hnone, Hkeys, Hnd, Hval.
  rewrite <- Hheaders in Hnone, Hkeys, Hnd, Hval. simpl in Hnone, Hkeys, Hnd, Hval.
  assert (ownProps (match headers st with Some h => obj h | None => JUndefined end)
          = slotsOf (headers st)) as -> by by destruct (headers st).
  split; [| split; [apply Hnd; constructor | split]].
  - split.
    + intros Hundefined. destruct (headers st) as [h|]; [discriminate |].
      by apply Hnone.
    + intros Hnot. destruct (headers st) as [h|]; [| done].
      assert (Some h = None) as Habsurd by by apply Hnone.
      discriminate.
  - intros k. rewrite Hkeys. split; [| auto]. intros [H|H]; [inversion H | done].
  - intros k slot Hget. by apply Hval in Hget as [Hget|Hget].
Qed.

(** *** Required names *)

(** X5: once a server is selected the synthesizer returns, and [required]
    lists the names of the required parameters that have an object schema, in
    the order and as many times as the operation lists them, followed by the
    body key when the request body is required and the request has a body
    slot; [required] is absent when there is no such name. *)
Theorem required_lists_required_names_in_order operation options selected :
  selectServer operation options = Returned selected ->
  exists r,
    generateApiHandleRequest E operation options = Returned r
    /\ let names :=
         map nameValue
           (List.filter isRequired (collected E (allParameters operation)))
         ++ match op_requestBody (node operation) with
            | Some requestBody =>
                match body_required requestBody, prop "body" (request r) with
                | Some true, JObj _ _ => [prop "$" (prop "body" (request r))]
                | _, _ => []
                end
            | None => []
            end in
       prop "required" (parameters r)
       = match names with [] => JUndefined | _ => JArr names end.
Proof.
  intros Hserver.
  destruct (generateApiHandleRequest_unfold E operation options) as (st & Hst & ->).
  rewrite Hserver. eexists. split; [reflexivity |].
  rewrite assemble_required, assemble_body.
  destruct (collected_state E operation) as (_ & Hbody & _ & _ & Hrequired).
  set (st0 := collectParameters E (allParameters operation)) in *.
  set (required0 := map nameValue _) in *.
  destruct (op_requestBody (node operation)) as [requestBody|].
  - destruct (collectBody_spec E st0 requestBody) as (bodyKey & _ & _ & Hspec).
    rewrite Hst in Hspec. injection Hspec as ->.
    destruct (selectContent E bodyKey _ _) as [[template schema]|] eqn:Hselect; simpl.
    + apply (selectContent_Some E) in Hselect
        as (_ & _ & _ & _ & encode & _ & _ & _ & _ & -> & _).
      simpl. rewrite Hrequired.
      destruct (body_required requestBody) as [[]|]; simpl.
      * destruct required0; simpl; [done |]. unfold pushRequired. done.
      * rewrite app_nil_r. by destruct required0.
      * rewrite app_nil_r. by destruct required0.
    + rewrite Hbody, Hrequired. simpl.
      assert (match body_required requestBody with
              | Some true => @nil value
              | _ => []
              end = []) as -> by by destruct (body_required requestBody) as [[]|].
      rewrite app_nil_r. by destruct required0.
  - simpl in Hst. injection Hst as <-. rewrite Hrequired, app_nil_r.
    by destruct required0.
Qed.

(** *** Properties *)

(** X6: once a server is selected the synthesizer returns a parameters
    schema of type object whose [properties] has one property per name, other
    than [__proto__], of a parameter with an object schema, and one under the
    body key when the request has a body slot; [properties] is absent exactly
    when no parameter with an object schema has a name other than [__proto__]
    and there is no body slot. *)
Theorem properties_of_collected_names operation options selected :
  selectServer operation options = Returned selected ->
  exists r,
    generateApiHandleRequest E operation options = Returned r
    /\ prop "type" (parameters r) = JStr "object"
    /\ NoDup (js_keys (ownProps (prop "properties" (parameters r))))
    /\ (forall k,
          k ∈ js_keys (ownProps (prop "properties" (parameters r)))
          <-> (k <> "__proto__" /\ named E (allParameters operation) k)
              \/ prop "$" (prop "body" (request r)) = JStr k)
    /\ (prop "properties" (parameters r) = JUndefined
        <-> (forall k, named E (allParameters operation) k -> k = "__proto__")
            /\ prop "body" (request r) = JUndefined).
Proof.
  intros Hserver.
  destruct (generateApiHandleRequest_unfold E operation options) as (st & Hst & ->).
  rewrite Hserver. eexists. split; [reflexivity |].
  split; [reflexivity |].
  rewrite assemble_properties, assemble_body.
  set (result := treeShakeReferences E _ _ _).
  destruct (collected_state E operation) as (Hroots & Hbody & Hnd & Hkeys & _).
  set (st0 := collectParameters E (allParameters operation)) in *.
  assert ("__proto__" ∉ js_keys (paramIndex st0)) as Hout.
  { intros Hin. apply Hkeys in Hin as [? _]. done. }
  assert (ownProps (match buildProperties result (paramIndex st) with
                    | Some properties => obj properties
                    | None => JUndefined
                    end) = slotsOf (buildProperties result (paramIndex st))) as ->
    by by destruct (buildProperties result (paramIndex st)).
  assert ((forall k, named E (allParameters operation) k -> k = "__proto__")
          <-> paramIndex st0 = [])
    as Hempty.
  { split.
    - intros Hnone. destruct (paramIndex st0) as [|[k i] rest] eqn:Hindex; [done |].
      assert (k <> "__proto__" /\ named E (allParameters operation) k) as (Hk & Hnamed)
        by (apply Hkeys; unfold js_keys; simpl; constructor).
      by apply Hnone in Hnamed.
    - intros Hnil k Hnamed. destruct (decide (k = "__proto__")) as [|Hk]; [done |].
      assert (k ∈ js_keys (paramIndex st0)) as Hin by by apply Hkeys.
      rewrite Hnil in Hin. inversion Hin. }
  assert (forall st1,
            paramIndex st1 = paramIndex st0 -> body st1 = None ->
            NoDup (js_keys (slotsOf (buildProperties result (paramIndex st1))))
            /\ (forall k,
                  k ∈ js_keys (slotsOf (buildProperties result (paramIndex st1)))
                  <-> (k <> "__proto__" /\ named E (allParameters operation) k)
                      \/ prop "$" (match body st1 with
                                   | Some b => b
                                   | None => JUndefined
                                   end) = JStr k)
            /\ (match buildProperties result (paramIndex st1) with
                | Some properties => obj properties
                | None => JUndefined
                end = JUndefined
                <-> (forall k, named E (allParameters operation) k -> k = "__proto__")
                    /\ match body st1 with
                       | Some b => b
                       | None => JUndefined
                       end = JUndefined)) as Hsame.
  { intros st1 Hindex Hnone. rewrite Hindex, Hnone.
    split; [apply buildProperties_NoDup; constructor |]. split.
    - intros k. rewrite buildProperties_keys, Hkeys by done.
      split; [auto |]. by intros [H|H].
    - rewrite Hempty, <- (buildProperties_None result).
      destruct (buildProperties result (paramIndex st0)); split; try done.
      by intros [? _]. }
  destruct (op_requestBody (node operation)) as [requestBody|].
  - destruct (collectBody_spec E st0 requestBody) as (bodyKey & Hfresh & Hleast & Hspec).
    rewrite Hst in Hspec. injection Hspec as Hspec.
    destruct (selectContent E bodyKey _ _) as [[template schema]|] eqn:Hselect.
    + apply (selectContent_Some E) in Hselect
        as (_ & _ & _ & _ & encode & _ & _ & _ & _ & -> & _).
      rewrite Hspec. simpl.
      assert (bodyKey <> "__proto__") as Hbody'.
      { destruct Hleast as [->|(n & _ & -> & _)]; discriminate. }
      assert (NoDup (js_keys (js_set bodyKey (length (schemaRoots st0))
                                (paramIndex st0)))) as Hnd'
        by by apply js_keys_set_NoDup.
      assert ("__proto__" ∉ js_keys (js_set bodyKey (length (schemaRoots st0))
                                      (paramIndex st0))) as Hout'.
      { intros [?|?]%js_keys_set; done. }
      split; [apply buildProperties_NoDup; constructor |]. split.
      * intros k. rewrite buildProperties_keys, js_keys_set, Hkeys by done.
        simpl. split.
        -- intros [->|H]; [by right | by left].
        -- intros [H|[= ->]]; [by right | by left].
      * split; [| by intros [_ ?]]. intros Hnone.
        destruct (buildProperties result _) eqn:Hprops; [done |].
        apply buildProperties_None in Hprops.
        assert (bodyKey ∈ js_keys (@nil (string * nat))) as Hin.
        { rewrite <- Hprops. apply js_keys_set. by left. }
        inversion Hin.
    + rewrite Hspec. by apply Hsame.
  - simpl in Hst. injection Hst as <-. by apply Hsame.
Qed.

(** *** The body key *)

(** X7: when the request returned has a body slot, the operation has a
    request body, the slot is that of its first content type with an object
    schema and a supported media type, and the body key is the first of
    [body], [body1], [body2], ... that no parameter with an object schema is
    named; the property under the body key is the rewritten root the schema of
    that content type was submitted as, after the roots of the parameters. *)
Theorem body_key_is_first_unused_candidate operation options r :
  generateApiHandleRequest E operation options = Returned r ->
  prop "body" (request r) <> JUndefined ->
  exists requestBody before mediaType contentType after encode bodyKey,
    op_requestBody (node operation) = Some requestBody
    /\ contentOf requestBody = before ++ (mediaType, contentType) :: after
    /\ Forall (passedOver E) before
    /\ isObject E (media_schema contentType) = true
    /\ encodingOf mediaType = Some encode
    /\ prop "body" (request r) = obj [("$", JStr bodyKey); ("encode", JStr encode)]
    /\ ~ named E (allParameters operation) bodyKey
    /\ (bodyKey = "body"
        \/ exists n : N,
             (1 <= n)%N /\ bodyKey = "body" +:+ pretty n
             /\ forall candidate,
                  candidate ∈ earlierCandidates n ->
                  named E (allParameters operation) candidate)
    /\ prop bodyKey (prop "properties" (parameters r))
       = rootAt
           (treeShakeReferences E
              (map rootOf (collected E (allParameters operation))
               ++ [withDescription (media_schema contentType)
                     (body_description requestBody)])
              "#/$defs"
              (match options with Some o => transform o | None => None end))
           (length (collected E (allParameters operation))).
Proof.
  destruct (generateApiHandleRequest_unfold E operation options) as (st & Hst & ->).
  destruct (selectServer operation options) as [selected| |]; [| discriminate..].
  intros [= <-]. rewrite assemble_properties, assemble_body.
  destruct (collected_state E operation) as (Hroots & Hbody & Hnd & Hkeys & _).
  set (st0 := collectParameters E (allParameters operation)) in *.
  destruct (op_requestBody (node operation)) as [requestBody|];
    [| simpl in Hst; injection Hst as <-; by rewrite Hbody].
  destruct (collectBody_spec E st0 requestBody) as (bodyKey & Hfresh & Hleast & Hspec).
  rewrite Hst in Hspec. injection Hspec as Hspec.
  destruct (selectContent E bodyKey _ _) as [[template schema]|] eqn:Hselect;
    [| rewrite Hspec, Hbody; done].
  apply (selectContent_Some E) in Hselect
    as (before & mediaType & contentType & after & encode
        & Hcontent & Hbefore & Hobject & Hencode & -> & ->).
  intros _. exists requestBody, before, mediaType, contentType, after, encode, bodyKey.
  split; [done |]. split; [done |]. split; [done |]. split; [done |].
  assert (bodyKey <> "__proto__") as Hbody'.
  { destruct Hleast as [->|(n & _ & -> & _)]; discriminate. }
  split; [done |]. rewrite Hspec. simpl. split; [done |]. split; [| split].
  - intros Hnamed.
    assert (bodyKey ∈ js_keys (paramIndex st0)) as Hin by by apply Hkeys.
    apply js_has_keys in Hin. congruence.
  - destruct Hleast as [->|(n & Hn & -> & Htaken)]; [by left | right].
    exists n. split; [done |]. split; [done |].
    intros candidate Hcandidate. by apply Hkeys, js_has_keys, Htaken.
  - rewrite Hroots, length_map.
    set (result := treeShakeReferences E _ _ _).
    assert (NoDup (js_keys (js_set bodyKey (length (collected E (allParameters operation)))
                              (paramIndex st0)))) as Hnd'
      by by apply js_keys_set_NoDup.
    assert ("__proto__" ∉ js_keys (js_set bodyKey
                                      (length (collected E (allParameters operation)))
                                      (paramIndex st0))) as Hout'.
    { intros [?|Hin]%js_keys_set; [done |]. apply Hkeys in Hin as [? _]. done. }
    pose proof (buildProperties_lookup result _ None Hnd' Hout' bodyKey) as Hget.
    rewrite js_get_set, String.eqb_refl in Hget.
    match type of Hget with
    | js_get _ (slotsOf ?built) = _ =>
        change built with (buildProperties result
                             (js_set bodyKey
                                (length (collected E (allParameters operation)))
                                (paramIndex st0))) in Hget
    end.
    destruct (buildProperties result _) as [properties|]; [| discriminate].
    simpl in *. by rewrite Hget.
Qed.

(** *** Descriptions *)

(** X8: the schema submitted for a parameter is the schema of the parameter
    when the parameter has no description; when it has one, it is a copy of
    the own properties of the schema in which [description] is the description
    of the parameter and every other property is as in the schema. *)
Theorem parameter_description_takes_precedence ps i p :
  collected E ps !! i = Some p ->
  exists root,
    schemaRoots (collectParameters E ps) !! i = Some root
    /\ match param_description p with
       | Some d =>
           prop "description" root = JStr d
           /\ (forall k, k <> "description" ->
                 js_get k (ownProps root) = js_get k (ownProps (param_schema p)))
           /\ forall k, k ∈ js_keys (ownProps root)
                        <-> k = "description" \/ k ∈ js_keys (ownProps (param_schema p))
       | None => root = param_schema p
       end.
Proof.
  intros Hp. exists (rootOf p). split.
  - unfold collectParameters. rewrite (collect_roots E ps start). simpl.
    by rewrite list_lookup_fmap, Hp.
  - unfold rootOf, withDescription. destruct (param_description p) as [d|]; [| done].
    unfold prop, obj. simpl. split; [by rewrite js_get_set, String.eqb_refl |].
    split.
    + intros k Hk. rewrite js_get_set.
      destruct (String.eqb_spec "description" k); [congruence | done].
    + intros k. apply js_keys_set.
Qed.

End WithCollaborators.

(** *** At example operations *)

Lemma header_slots_of_header_parameters_witness :
  exists r,
    generateApiHandleRequest Examples.plain Examples.cookieThenHeader None = Returned r
    /\ prop "headers" (request r) = obj [("session", obj [("$", JStr "session")])]
    /\ forall k,
         k ∈ js_keys (ownProps (prop "headers" (request r)))
         <-> k <> "__proto__"
             /\ exists p, p ∈ allParameters Examples.cookieThenHeader
                          /\ isHeaderParameter Examples.plain p = true
                          /\ nameKey p = k.
Proof.
  destruct (header_slots_of_header_parameters Examples.plain Examples.cookieThenHeader
              None Examples.exampleServer eq_refl) as (r & Hr & _ & _ & Hkeys & _).
  exists r. split; [exact Hr |]. split; [| exact Hkeys].
  injection Hr as <-. reflexivity.
Defined.

Lemma required_lists_required_names_in_order_witness :
  exists r,
    generateApiHandleRequest Examples.plain MoreExamples.postingBody None = Returned r
    /\ prop "required" (parameters r) = JArr [JStr "body"; JStr "body2"].
Proof.
  destruct (required_lists_required_names_in_order Examples.plain
              MoreExamples.postingBody None Examples.exampleServer eq_refl)
    as (r & Hr & Hrequired).
  exists r. split; [exact Hr |]. rewrite Hrequired.
  injection Hr as <-. reflexivity.
Defined.

Lemma properties_of_collected_names_witness :
  exists r,
    generateApiHandleRequest Examples.plain MoreExamples.postingBody None = Returned r
    /\ js_keys (ownProps (prop "properties" (parameters r)))
       = ["body"; "body1"; "body2"]
    /\ forall k,
         k ∈ js_keys (ownProps (prop "properties" (parameters r)))
         <-> (k <> "__proto__"
              /\ named Examples.plain (allParameters MoreExamples.postingBody) k)
             \/ prop "$" (prop "body" (request r)) = JStr k.
Proof.
  destruct (properties_of_collected_names Examples.plain MoreExamples.postingBody
              None Examples.exampleServer eq_refl) as (r & Hr & _ & _ & Hkeys & _).
  exists r. split; [exact Hr |]. split; [| exact Hkeys].
  injection Hr as <-. reflexivity.
Defined.

Lemma body_key_is_first_unused_candidate_witness :
  exists r,
    generateApiHandleRequest Examples.plain MoreExamples.postingBody None = Returned r
    /\ prop "body" (request r) = obj [("$", JStr "body2"); ("encode", JStr "json")]
    /\ exists bodyKey,
         prop "$" (prop "body" (request r)) = JStr bodyKey
         /\ ~ named Examples.plain (allParameters MoreExamples.postingBody) bodyKey.
Proof.
  eexists. split; [reflexivity |]. split; [reflexivity |].
  destruct (body_key_is_first_unused_candidate Examples.plain MoreExamples.postingBody
              None _ eq_refl)
    as (requestBody & before & mediaType & contentType & after & encode & bodyKey
        & _ & _ & _ & _ & _ & Hslot & Hfresh & _).
  - discriminate.
  - exists bodyKey. split; [| exact Hfresh]. by rewrite Hslot.
Defined.

Lemma parameter_description_takes_precedence_witness :
  exists root,
    schemaRoots (collectParameters Examples.plain
                   [MoreExamples.noSchema; MoreExamples.describedQuery])
      !! 0 = Some root
    /\ root = obj [("type", JStr "string"); ("description", JStr "of the parameter");
                   ("format", JStr "uuid")].
Proof.
  destruct (parameter_description_takes_precedence Examples.plain
              [MoreExamples.noSchema; MoreExamples.describedQuery] 0
              MoreExamples.describedQuery eq_refl) as (root & Hroot & _).
  exists root. split; [exact Hroot |]. by injection Hroot as <-.
Defined.

End ParametersFacts.

(** ** Resolution of schemas *)
Module ResolutionFacts.
Import JS Run Schema Notions MoreNotions JSFacts SchemaFacts.

(** A schema that is an object without a reference is its own copy. *)
Lemma traverseFrom_object isObj props :
  traverseFrom isObj None None (JObj props None) = JObj props None.
Proof.
  cbn [traverseFrom]. unfold noteText, annotate, obj, prop. simpl. f_equal.
  assert (forall name (copy : list (string * value)),
            match (match isObj (JObj props None),
                         match js_get name copy with Some x => x | None => JUndefined end
                   with
                   | true, JStr text => Some text
                   | _, _ => None
                   end) with
            | Some t => js_set name (JStr t) copy
            | None => copy
            end = copy) as Hsame.
  { intros name copy. destruct (isObj (JObj props None)); [| done].
    destruct (js_get name copy) as [[]|] eqn:Hget; try done.
    by apply js_set_same. }
  rewrite (Hsame "title" props). apply (Hsame "description" props).
Qed.

Section WithCollaborators.
Context (E : Collaborators).

(** X9: [traverseSchemaReference] returns an object without a reference
    that has the own properties of the end of the reference chain, except
    that its title is the first string title found in the objects of the
    chain, starting from the schema itself, and likewise its description; the
    other properties of the schemas before the end of the chain are dropped. *)
Theorem reference_chain_keeps_nearest_title_and_description schema :
  let resolved := traverseSchemaReference E schema in
  resolved = obj (ownProps resolved)
  /\ (forall name, name = "title" \/ name = "description" ->
        js_get name (ownProps resolved)
        = match firstText (isObject E) name (chainOf schema) with
          | Some text => Some (JStr text)
          | None => js_get name (ownProps (chainEnd schema))
          end)
  /\ (forall k, k <> "title" -> k <> "description" ->
        js_get k (ownProps resolved) = js_get k (ownProps (chainEnd schema))).
Proof.
  unfold traverseSchemaReference. rewrite traverseFrom_chain. simpl.
  split; [done |]. split.
  - intros name [-> | ->]; [apply annotate_title | apply annotate_description].
  - intros k Ht Hd. by apply annotate_get.
Qed.

(** *** The first line *)

Lemma beforeNewline_spec (text : string) :
  includesChar "010" (beforeNewline text) = false
  /\ (text = beforeNewline text
      \/ exists rest, text = beforeNewline text +:+ String "010" rest).
Proof.
  induction text as [|c text [IHno IH]]; simpl; [auto |].
  destruct (Ascii.eqb_spec c "010") as [->|Hne]; simpl.
  - split; [done |]. right. by exists text.
  - destruct (Ascii.eqb_spec c "010") as [|_]; [done |]. split; [done |].
    destruct IH as [IH|(rest & IH)]; [left; by f_equal | right; exists rest].
    by rewrite IH at 1.
Qed.

(** X10: [firstLine] of a string is the text before its first line feed:
    it has no line feed, and the string is it, or it followed by a line feed
    and more; of [undefined] it is [undefined]. *)
Theorem first_line_is_text_before_first_line_feed (text : string) :
  firstLine JUndefined = Returned JUndefined
  /\ exists line,
       firstLine (JStr text) = Returned (JStr line)
       /\ includesChar "010" line = false
       /\ (text = line \/ exists rest, text = line +:+ String "010" rest).
Proof.
  split; [done |]. exists (beforeNewline text). split; [done |].
  apply beforeNewline_spec.
Qed.

(** *** What [resolveSchema] returns *)

Lemma traverse_object schema :
  exists props, traverseSchemaReference E schema = JObj props None.
Proof. unfold traverseSchemaReference. rewrite traverseFrom_chain. by eexists. Qed.

(** The loop over the members returns the schema it was given or the merged
    object. *)
Lemma mergeMembers_result resolve schema members : forall title description properties r,
  mergeMembers E resolve schema title description properties members = Returned r ->
  r = schema
  \/ exists title' description' properties',
       r = obj ([("type", JStr "object")]
                ++ match title' with Some t => [("title", JStr t)] | None => [] end
                ++ match description' with
                   | Some d => [("description", JStr d)]
                   | None => []
                   end
                ++ [("properties", obj properties')]).
Proof.
  induction members as [|m rest IH]; intros title description properties r;
    cbn [mergeMembers].
  - intros [= <-]. right. by eexists _, _, _.
  - destruct (resolve m) as [m'| |]; simpl; [| discriminate..].
    destruct (negb (isObjectSchema E m')); [intros [= <-]; by left |].
    destruct (isDefined (prop "properties" m')); simpl; [| apply IH].
    destruct (entries (prop "properties" m')) as [declared| |]; simpl;
      [apply IH | discriminate..].
Qed.

Lemma resolveSchema_object fuel schema r :
  resolveSchema E fuel schema = Returned r -> exists props, r = JObj props None.
Proof.
  destruct fuel as [|fuel]; [discriminate |]. cbn [resolveSchema].
  destruct (traverse_object schema) as (props & ->). unfold resolveAllOfWith.
  destruct (negb (isObject E (JObj props None))); [intros [= <-]; eauto |].
  destruct (prop "allOf" (JObj props None)) as [| | | | |members|] eqn:Hall;
    try (intros [= <-]; eauto).
  intros [->|(t & d & p & ->)]%mergeMembers_result; eauto.
Qed.

(** *** More fuel changes nothing *)

Lemma mergeMembers_mono resolve1 resolve2 schema members :
  (forall m r, m ∈ members -> resolve1 m = r -> r <> OutOfFuel -> resolve2 m = r) ->
  forall title description properties r,
    mergeMembers E resolve1 schema title description properties members = r ->
    r <> OutOfFuel ->
    mergeMembers E resolve2 schema title description properties members = r.
Proof.
  induction members as [|m rest IH]; intros Hres title description properties r;
    cbn [mergeMembers]; [done |].
  destruct (resolve1 m) as [m'| |] eqn:Hm; simpl.
  - rewrite (Hres m (Returned m')); [| constructor | done | done]. simpl.
    destruct (negb (isObjectSchema E m')); [done |].
    destruct (isDefined (prop "properties" m')); simpl.
    + destruct (entries (prop "properties" m')) as [declared| |]; simpl; [| done..].
      apply IH. intros x rx Hx. apply Hres. by constructor.
    + apply IH. intros x rx Hx. apply Hres. by constructor.
  - rewrite (Hres m (Thrown e)); [done | constructor | done | done].
  - by intros <-.
Qed.

Lemma resolveSchema_mono fuel : forall schema r fuel',
  resolveSchema E fuel schema = r -> r <> OutOfFuel -> fuel <= fuel' ->
  resolveSchema E fuel' schema = r.
Proof.
  induction fuel as [|fuel IH]; intros schema r fuel' Hr Hne Hle.
  - simpl in Hr. congruence.
  - destruct fuel' as [|fuel']; [lia |]. cbn [resolveSchema] in *.
    unfold resolveAllOfWith in *.
    destruct (negb (isObject E (traverseSchemaReference E schema))); [done |].
    destruct (prop "allOf" (traverseSchemaReference E schema)); try done.
    eapply mergeMembers_mono; [| exact Hr | done].
    intros m rm _ Hm Hnm. apply (IH m rm fuel' Hm Hnm). lia.
Qed.

(** With enough fuel for both, two runs agree. *)
Lemma resolveSchema_agree fuel fuel' schema r :
  resolveSchema E fuel schema = r -> r <> OutOfFuel ->
  height schema < fuel' ->
  resolveSchema E fuel' schema = r.
Proof.
  intros Hr Hne Hfuel.
  pose proof (resolveSchema_fuel E fuel' schema Hfuel) as Hne'.
  rewrite <- (resolveSchema_mono fuel schema r (Nat.max fuel fuel') Hr Hne)
    by lia.
  symmetry.
  apply (resolveSchema_mono fuel' schema _ (Nat.max fuel fuel') eq_refl Hne'). lia.
Qed.

(** *** Resolution twice *)

(** Resolving a resolved schema again changes nothing. *)
Lemma resolveSchema_again fuel schema resolved fuel' :
  resolveSchema E fuel schema = Returned resolved ->
  height resolved < fuel' ->
  resolveSchema E fuel' resolved = Returned resolved.
Proof.
  intros Hresolved Hfuel'. destruct fuel' as [|fuel']; [lia |].
  destruct fuel as [|fuel]; [discriminate |]. cbn [resolveSchema] in *.
  destruct (traverse_object schema) as (props & Htraverse).
  rewrite Htraverse in Hresolved. unfold resolveAllOfWith in Hresolved.
  assert (forall props', resolveAllOfWith E (resolveSchema E fuel')
                           (traverseSchemaReference E (JObj props' None))
                         = resolveAllOfWith E (resolveSchema E fuel') (JObj props' None))
    as Hcopy.
  { intros props'. unfold traverseSchemaReference. by rewrite traverseFrom_object. }
  simpl negb in Hresolved. cbv iota in Hresolved.
  destruct (prop "allOf" (JObj props None)) as [| | | | |members|] eqn:Hall.
  1-5, 7: injection Hresolved as <-; rewrite Hcopy; unfold resolveAllOfWith;
    simpl negb; cbv iota; by rewrite Hall.
  pose proof Hresolved as Hresult.
  apply mergeMembers_result in Hresult as [->|(t & d & p & ->)].
  - rewrite Hcopy. unfold resolveAllOfWith. simpl negb. cbv iota. rewrite Hall.
    eapply mergeMembers_mono; [| exact Hresolved | done].
    intros m rm Hm Hrm Hne. eapply resolveSchema_agree; [exact Hrm | done |].
    assert (S (S (height m)) <= height (JObj props None)); [| lia].
    unfold prop in Hall.
    destruct (js_get "allOf" props) as [x|] eqn:Hget; [| discriminate].
    subst x. apply js_get_In in Hget.
    pose proof (height_prop props None _ _ Hget).
    pose proof (height_item members m Hm). lia.
  - unfold obj. rewrite Hcopy. by destruct t, d.
Qed.

(** X11: what [resolveSchema] returns is an object without a reference,
    and resolving it again returns it unchanged (the engine resolves the items
    of an array twice). *)
Theorem resolved_schema_resolves_to_itself fuel schema resolved :
  resolveSchema E fuel schema = Returned resolved ->
  (exists props, resolved = JObj props None)
  /\ forall fuel',
       height resolved < fuel' -> resolveSchema E fuel' resolved = Returned resolved.
Proof.
  intros Hresolved. split.
  - by eapply resolveSchema_object.
  - intros fuel' Hfuel'. by eapply resolveSchema_again.
Qed.

End WithCollaborators.

(** *** At an example schema *)

Lemma resolved_schema_resolves_to_itself_witness :
  exists resolved,
    resolveSchema Examples.plain 5 Examples.both = Returned resolved
    /\ prop "allOf" resolved = JUndefined
    /\ resolveSchema Examples.plain 5 resolved = Returned resolved.
Proof.
  eexists. split; [reflexivity |]. split; [reflexivity |].
  apply (resolved_schema_resolves_to_itself Examples.plain 5 Examples.both);
    [reflexivity | simpl; lia].
Defined.

End ResolutionFacts.

(** ** Templates *)
Module TemplateFacts.
Import JS Run Schema Notions MoreNotions JSFacts SchemaFacts ResolutionFacts.

(** *** Index keys are numerals *)

Lemma pretty_N_go_digits x : forall s c,
  (forall d, includesChar d s = true -> isDigit d = true) ->
  includesChar c (pretty_N_go x s) = true -> isDigit c = true.
Proof.
  induction (N.lt_wf_0 x) as [x _ IH]; intros s c Hs.
  assert (x = 0 \/ 0 < x)%N as [->|Hpos] by lia.
  - rewrite pretty_N_go_0. apply Hs.
  - rewrite pretty_N_go_step by done. apply IH.
    + by apply N.div_lt.
    + intros d. simpl.
      destruct (Ascii.eqb_spec (pretty_N_char (x `mod` 10)) d) as [<-|_]; [| apply Hs].
      intros _. unfold pretty_N_char. by repeat case_match.
Qed.

Lemma pretty_digits (n : N) c : includesChar c (pretty n) = true -> isDigit c = true.
Proof.
  unfold pretty, pretty_N. case_decide.
  - cbn [includesChar]. by destruct (Ascii.eqb_spec "0" c) as [<-|].
  - by apply pretty_N_go_digits.
Qed.

Lemma indexed_keys {A : Type} (l : list A) : forall i k,
  k ∈ js_keys (indexed i l) -> exists n : N, k = pretty n.
Proof.
  unfold js_keys. induction l as [|x l IH]; intros i k; simpl; [by inversion 1 |].
  intros [->|H]%elem_of_cons; eauto.
Qed.

(** A key with a character that is no digit is not an index. *)
Lemma indexed_no_name {A : Type} (l : list A) i k c :
  includesChar c k = true -> isDigit c = false -> js_get k (indexed i l) = None.
Proof.
  intros Hc Hd. apply js_get_None. intros (n & ->)%indexed_keys.
  apply pretty_digits in Hc. congruence.
Qed.

(** *** Heights *)

Lemma js_replace_elem {A : Type} k (v : A) o k' v' :
  (k', v') ∈ js_replace k v o -> (k', v') = (k, v) \/ (k', v') ∈ o.
Proof.
  induction o as [|[k0 v0] r IH]; simpl; [auto |].
  destruct (String.eqb_spec k0 k) as [->|Hne].
  - intros [->|H]%elem_of_cons; [by left | right; by constructor].
  - intros [->|H]%elem_of_cons; [right; constructor |].
    destruct (IH H); [by left | right; by constructor].
Qed.

Lemma js_insertIndex_elem {A : Type} n k (v : A) o k' v' :
  (k', v') ∈ js_insertIndex n k v o -> (k', v') = (k, v) \/ (k', v') ∈ o.
Proof.
  induction o as [|[k0 v0] r IH]; simpl.
  - intros [->|H]%elem_of_cons; [by left | by right].
  - destruct (arrayIndex k0) as [n'|]; [destruct (n' <? n)%N |].
    + intros [->|H]%elem_of_cons; [right; constructor |].
      destruct (IH H); [by left | right; by constructor].
    + intros [->|H]%elem_of_cons; [by left | by right].
    + intros [->|H]%elem_of_cons; [by left | by right].
Qed.

Lemma js_set_elem {A : Type} k (v : A) o k' v' :
  (k', v') ∈ js_set k v o -> (k', v') = (k, v) \/ (k', v') ∈ o.
Proof.
  unfold js_set. destruct (js_has k o); [apply js_replace_elem |].
  destruct (arrayIndex k); [apply js_insertIndex_elem |].
  intros [H|H]%elem_of_app; [by right | left].
  by apply list_elem_of_singleton in H.
Qed.

Lemma js_assign_elem {A : Type} k (v : A) o k' v' :
  (k', v') ∈ js_assign k v o -> (k', v') = (k, v) \/ (k', v') ∈ o.
Proof.
  unfold js_assign. destruct (String.eqb k "__proto__"); [by right |].
  apply js_set_elem.
Qed.

Lemma fold_assign_elem (declared : list (string * value)) : forall properties k x,
  (k, x) ∈ fold_left (fun o entry => js_assign (fst entry) (snd entry) o)
             declared properties ->
  (k, x) ∈ declared \/ (k, x) ∈ properties.
Proof.
  induction declared as [|[k0 x0] rest IH]; intros properties k x; simpl; [auto |].
  intros [H|H]%IH; [left; by constructor |].
  apply js_assign_elem in H as [->|H]; [left; constructor | by right].
Qed.

Lemma annotate_elem title description props k x :
  (k, x) ∈ annotate title description props ->
  (exists s, x = JStr s) \/ (k, x) ∈ props.
Proof.
  unfold annotate. destruct description as [d|], title as [t|]; intros H;
    repeat (apply js_set_elem in H as [[= _ ->]|H]; [eauto |]); auto.
Qed.

Lemma height_obj props n :
  (forall k x, (k, x) ∈ props -> height x <= n) -> height (obj props) <= S n.
Proof.
  intros H. simpl. apply le_n_S.
  induction props as [|[k x] props IH]; simpl; [lia |].
  pose proof (H k x ltac:(constructor)).
  assert (forall k x, (k, x) ∈ props -> height x <= n) as H'
    by (intros k' x' Hin; apply (H k'); by constructor).
  specialize (IH H'). lia.
Qed.

Lemma height_prop_value k v : height (prop k v) <= Nat.pred (height v).
Proof.
  unfold prop. destruct v as [| | | | | |props target]; simpl; try lia.
  destruct (js_get k props) as [x|] eqn:Hget; simpl; [| lia].
  apply js_get_In in Hget. pose proof (height_prop props target k x Hget). simpl in *. lia.
Qed.

Lemma height_traverse isObj schema title description :
  height (traverseFrom isObj title description schema) <= Nat.max 1 (height schema).
Proof.
  destruct (traverseFrom_shape isObj schema title description)
    as (final & title' & description' & Hle & ->).
  assert (height (obj (annotate title' description' (ownProps final)))
          <= S (Nat.pred (height final))); [| lia].
  apply height_obj. intros k x [(s & ->)|Hin]%annotate_elem; [simpl; lia |].
  apply ownProps_height in Hin as [(c & ->)|Hlt]; [simpl; lia | lia].
Qed.

Lemma traverseFrom_allOf_height isObj schema title description members :
  prop "allOf" (traverseFrom isObj title description schema) = JArr members ->
  2 <= height schema.
Proof.
  destruct (traverseFrom_shape isObj schema title description)
    as (final & title' & description' & Hle & ->).
  unfold prop, obj. rewrite annotate_get by done.
  destruct (js_get "allOf" (ownProps final)) as [x|] eqn:Hget; [| discriminate].
  intros ->.
  apply js_get_In, ownProps_height in Hget as [(c & Hc)|Hlt]; [discriminate |].
  simpl in Hlt. lia.
Qed.

Lemma entries_Returned v declared :
  entries v = Returned declared -> declared = ownProps v.
Proof. destruct v; simpl; congruence. Qed.

Section WithCollaborators.
Context (E : Collaborators).

Lemma mergeMembers_height resolve schema members n :
  (forall m r, m ∈ members -> resolve m = Returned r -> height r <= Nat.max 1 n) ->
  forall title description properties r,
    (forall k x, (k, x) ∈ properties -> height x <= n - 2) ->
    mergeMembers E resolve schema title description properties members = Returned r ->
    r = schema \/ height r <= Nat.max 2 n.
Proof.
  induction members as [|m rest IH]; intros Hres title description properties r Hprops;
    cbn [mergeMembers].
  - intros [= <-]. right.
    assert (height (obj properties) <= S (n - 2)) as Hinner by by apply height_obj.
    etrans; [apply (height_obj _ (S (n - 2))) | lia].
    intros k x Hin. destruct title, description; simpl in Hin;
      repeat (apply elem_of_cons in Hin as [[= _ ->]|Hin];
              [first [exact Hinner | simpl; lia] |]);
      inversion Hin.
  - destruct (resolve m) as [m'| |] eqn:Hm; simpl; [| discriminate..].
    destruct (negb (isObjectSchema E m')); [intros [= <-]; by left |].
    assert (forall x0 r0, x0 ∈ rest -> resolve x0 = Returned r0 ->
                          height r0 <= Nat.max 1 n) as Hrest
      by (intros x0 r0 Hin; apply Hres; by constructor).
    pose proof (Hres m m' ltac:(constructor) Hm) as Hheight.
    destruct (isDefined (prop "properties" m')); simpl; [| by apply IH].
    destruct (entries (prop "properties" m')) as [declared| |] eqn:Hentries; simpl;
      [| discriminate..].
    apply IH; [done |]. intros k x [Hin|Hin]%fold_assign_elem; [| by apply (Hprops k)].
    apply entries_Returned in Hentries as ->.
    pose proof (height_prop_value "properties" m').
    apply ownProps_height in Hin as [(c & ->)|Hlt]; [simpl; lia | lia].
Qed.

(** Resolution does not deepen a schema. *)
Lemma height_resolve fuel : forall schema r,
  resolveSchema E fuel schema = Returned r -> height r <= Nat.max 1 (height schema).
Proof.
  induction fuel as [|fuel IH]; intros schema r; [discriminate |].
  cbn [resolveSchema]. unfold resolveAllOfWith, traverseSchemaReference.
  pose proof (height_traverse (isObject E) schema None None) as Htraverse.
  destruct (negb (isObject E _)); [by intros [= <-] |].
  destruct (prop "allOf" _) as [| | | | |members|] eqn:Hall; try by intros [= <-].
  intros Hmerge.
  pose proof (traverseFrom_allOf_height _ _ _ _ _ Hall).
  apply (mergeMembers_height _ _ _ (height schema - 2)) in Hmerge as [->|Hle];
    [done | lia | |].
  - intros m r' Hm Hr'. apply IH in Hr'.
    pose proof (traverseFrom_allOf _ _ _ _ _ Hall m Hm). lia.
  - intros k x Hin. inversion Hin.
Qed.

(** A value that is no array and no object resolves to an object that is no
    object schema. *)
Lemma resolveSchema_flat fuel schema r :
  height schema = 0 -> resolveSchema E fuel schema = Returned r ->
  isObjectSchema E r = false.
Proof.
  intros Hflat. destruct fuel as [|fuel]; [discriminate |]. cbn [resolveSchema].
  assert (exists props,
            traverseSchemaReference E schema = obj props
            /\ js_get "allOf" props = None /\ js_get "type" props = None
            /\ js_get "properties" props = None) as (props & -> & Hall & Htype & Hprops).
  { destruct schema as [| |b|repr|s|items|props target]; try discriminate;
      try (by exists []).
    exists (indexed 0 (chars s)). split; [done |].
    split; [| split].
    - by apply (indexed_no_name _ _ _ "a"%char).
    - by apply (indexed_no_name _ _ _ "t"%char).
    - by apply (indexed_no_name _ _ _ "p"%char). }
  unfold resolveAllOfWith, prop, obj. simpl negb. cbv iota. rewrite Hall.
  intros [= <-]. unfold isObjectSchema, prop. by rewrite Htype, Hprops.
Qed.

(** *** Termination of the key properties *)

Lemma propertySummary_ends propName propSchema :
  propertySummary propName propSchema <> OutOfFuel.
Proof.
  unfold propertySummary.
  destruct (isDefined (prop "default" propSchema)); [| done].
  by destruct (toString (prop "default" propSchema)).
Qed.

Lemma eachProperty_fuel resolve nested todo :
  (forall name p,
      (name, p) ∈ todo ->
      resolve p <> OutOfFuel
      /\ forall r, resolve p = Returned r -> isObjectSchema E r = true ->
                   nested r <> OutOfFuel) ->
  forall items, eachProperty E resolve nested todo items <> OutOfFuel.
Proof.
  induction todo as [|[name p] rest IH]; intros Hsteps items; cbn [eachProperty];
    [done |].
  destruct (Hsteps name p ltac:(constructor)) as [Hresolve Hnested].
  assert (forall name' p', (name', p') ∈ rest ->
            resolve p' <> OutOfFuel
            /\ forall r, resolve p' = Returned r -> isObjectSchema E r = true ->
                         nested r <> OutOfFuel) as Hrest
    by (intros name' p' Hin; apply (Hsteps name'); by constructor).
  destruct (resolve p) as [r| |]; simpl; [| done..].
  destruct (negb (isObject E r)); [by apply IH |].
  destruct (propertySummary name r) as [summary| |] eqn:Hsummary; simpl;
    [| done | by apply propertySummary_ends in Hsummary].
  destruct (isObjectSchema E r) eqn:Hschema; simpl; [| by apply IH].
  specialize (Hnested r eq_refl Hschema).
  destruct (nested r) as [sub| |]; simpl; [by apply IH | done..].
Qed.

Lemma generateKeyPropertyItems_fuel fuel : forall schema,
  height schema + 2 < fuel -> generateKeyPropertyItems E fuel schema <> OutOfFuel.
Proof.
  induction fuel as [|fuel IH]; intros schema Hfuel; [lia |].
  cbn [generateKeyPropertyItems].
  destruct (negb (isDefined (prop "properties" schema))); [done |].
  pose proof (height_prop_value "properties" schema) as Hprops.
  destruct (entries (prop "properties" schema)) as [declared| |] eqn:Hentries; simpl;
    [| done | by destruct (prop "properties" schema)].
  apply entries_Returned in Hentries as ->.
  apply eachProperty_fuel. intros name p Hin.
  assert (height p = 0 \/ height p + 2 <= height schema) as Hp.
  { apply ownProps_height in Hin as [(c & ->)|Hlt]; [by left | right; lia]. }
  split; [apply resolveSchema_fuel; lia |].
  intros r Hr Hschema. apply IH. pose proof (height_resolve _ _ _ Hr).
  destruct Hp as [Hflat|Hp]; [| lia].
  apply (resolveSchema_flat _ _ _ Hflat) in Hr. congruence.
Qed.

(** *** The key properties *)


Lemma prefix_append a b : String.prefix a (a +:+ b) = true.
Proof.
  induction a as [|c a IH]; [by destruct b |].
  rewrite append_cons. simpl. destruct (ascii_dec c c); [done | congruence].
Qed.

(** The summary of a property starts with its name in bold. *)
Lemma propertySummary_prefix propName propSchema summary :
  propertySummary propName propSchema = Returned summary ->
  String.prefix ("**" +:+ propName +:+ "**") summary = true.
Proof.
  unfold propertySummary.
  change ("" +:+ "**" +:+ propName +:+ "**") with ("**" +:+ propName +:+ "**").
  set (name := "**" +:+ propName +:+ "**").
  assert (forall s, (String.length (name +:+ s) =? 0)%nat = false) as Hlength by done.
  assert ((String.length name =? 0)%nat = false) as Hlength0 by done.
  assert (String.prefix name name = true) as Hsame.
  { clear. induction name as [|c name IH]; [done |]. simpl.
    destruct (ascii_dec c c); [done | congruence]. }
  destruct (prop "description" propSchema), (isDefined (prop "default" propSchema));
    try destruct (toString (prop "default" propSchema)); simpl;
    try discriminate; intros [= <-];
    rewrite ?append_assoc, ?Hlength, ?Hlength0;
    first [apply prefix_append | exact Hsame].
Qed.

Lemma eachProperty_items fuel todo :
  forall propertyItems items,
    eachProperty E (resolveSchema E fuel) (generateKeyPropertyItems E fuel) todo
      propertyItems = Returned items ->
    exists new,
      items = propertyItems ++ new /\ Forall2 (keyPropertyItem E fuel) todo new.
Proof.
  induction todo as [|[name p] rest IH]; intros propertyItems items;
    cbn [eachProperty].
  - intros [= <-]. exists []. by rewrite app_nil_r.
  - destruct (resolveSchema E fuel p) as [r| |] eqn:Hr; simpl; [| discriminate..].
    destruct (resolveSchema_object E _ _ _ Hr) as (props & Hprops).
    assert (isObject E r = true) as -> by by rewrite Hprops.
    simpl.
    destruct (propertySummary name r) as [summary| |] eqn:Hsummary; simpl;
      [| discriminate..].
    destruct (if isObjectSchema E r then generateKeyPropertyItems E fuel r
              else Returned []) as [sub| |] eqn:Hsub; simpl; [| discriminate..].
    intros (new & -> & Hnew)%IH. eexists (_ :: new).
    split; [by rewrite <- app_assoc |]. constructor; [| done].
    exists r, summary, sub. split; [done |].
    split; [by apply (propertySummary_prefix name r) |]. split.
    + destruct (isObjectSchema E r); [done | by injection Hsub as <-].
    + by destruct sub.
Qed.

(** X12: the key properties of a schema, when they are computed, are one
    item per property of [properties], in the order of the properties: a
    summary that starts with the name of the property in bold, followed, when
    the resolved property is an object schema with key properties of its own,
    by the list of those.  No [ApiError] is thrown, and for a schema without
    references the computation ends: the list is returned or a [TypeError] is
    thrown. *)
Theorem key_properties_list_every_property fuel schema :
  (forall items,
     generateKeyPropertyItems E (S fuel) schema = Returned items ->
     Forall2 (keyPropertyItem E fuel) (ownProps (prop "properties" schema)) items)
  /\ noApiError (generateKeyPropertyItems E fuel schema)
  /\ (referenceFree schema = true ->
      height schema + 2 < fuel ->
      (exists items, generateKeyPropertyItems E fuel schema = Returned items)
      \/ generateKeyPropertyItems E fuel schema = Thrown TypeError).
Proof.
  split; [| split].
  - intros items Hitems. cbn [generateKeyPropertyItems] in Hitems.
    destruct (isDefined (prop "properties" schema)) eqn:Hdefined; simpl in Hitems.
    + destruct (entries (prop "properties" schema)) as [declared| |] eqn:Hentries;
        simpl in Hitems; [| discriminate..].
      apply entries_Returned in Hentries as ->.
      by apply eachProperty_items in Hitems as (new & -> & Hnew).
    + injection Hitems as <-. by destruct (prop "properties" schema).
  - apply noApiError_generateKeyPropertyItems.
  - intros _ Hfuel. apply returns_or_TypeError.
    + apply noApiError_generateKeyPropertyItems.
    + by apply generateKeyPropertyItems_fuel.
Qed.

(** *** The shape of a template *)

Lemma firstLine_ends text : firstLine text <> OutOfFuel.
Proof. by destruct text. Qed.

Lemma arrayTitle_ends schema itemSchema : arrayTitle schema itemSchema <> OutOfFuel.
Proof.
  unfold arrayTitle.
  destruct (prop "title" schema); try done;
    (destruct (isDefined (prop "title" itemSchema)); [| done]);
    by destruct (toString (prop "title" itemSchema)).
Qed.

Lemma generateElementTemplate_ends fuel state schema :
  height schema < fuel -> generateElementTemplate E fuel state schema <> OutOfFuel.
Proof.
  intros Hfuel. unfold generateElementTemplate.
  pose proof (resolveSchema_fuel E fuel schema Hfuel).
  destruct (resolveSchema E fuel schema) as [r| |]; simpl; [| done..].
  destruct (6 <? depth state)%Z; [done |]. by destruct (isObjectSchema E r).
Qed.

(** The content the master template returns: a block for an array or object
    schema, the fenced JSON otherwise. *)
Lemma generateMasterTemplate_Returned fuel state schema content :
  generateMasterTemplate E fuel state schema = Returned content ->
  exists resolved,
    resolveSchema E fuel schema = Returned resolved
    /\ if isArraySchema E resolved || isObjectSchema E resolved
       then exists blocks, content = obj [("$block", JArr blocks)]
       else content = jsonBlock E state.
Proof.
  unfold generateMasterTemplate.
  destruct (resolveSchema E fuel schema) as [r| |] eqn:Hr; simpl; [| discriminate..].
  intros Hcontent. exists r. split; [done |].
  destruct (isArraySchema E r) eqn:Harray; simpl.
  - unfold generateArrayMasterTemplate in Hcontent.
    destruct (resolveSchema E fuel (prop "items" r)) as [itemSchema| |];
      simpl in Hcontent; [| discriminate..].
    destruct (arrayTitle r itemSchema) as [title| |]; simpl in Hcontent;
      [| discriminate..].
    destruct (generateKeyPropertyItems E fuel itemSchema) as [keyPropertyItems| |];
      simpl in Hcontent; [| discriminate..].
    destruct (generateElementTemplate E fuel _ itemSchema) as [itemTemplate| |];
      simpl in Hcontent; [| discriminate..].
    destruct (firstLine title) as [line| |]; simpl in Hcontent; [| discriminate..].
    injection Hcontent as <-. by eexists.
  - destruct (isObjectSchema E r) eqn:Hobject; simpl.
    + unfold generateObjectMasterTemplate in Hcontent.
      destruct (generateKeyPropertyItems E fuel r) as [keyPropertyItems| |];
        simpl in Hcontent; [| discriminate..].
      destruct (firstLine _) as [line| |]; simpl in Hcontent; [| discriminate..].
      injection Hcontent as <-. by eexists.
    + by injection Hcontent as <-.
Qed.

Lemma generateMasterTemplate_ends fuel state schema :
  height schema + 3 < fuel -> generateMasterTemplate E fuel state schema <> OutOfFuel.
Proof.
  intros Hfuel. unfold generateMasterTemplate.
  pose proof (resolveSchema_fuel E fuel schema ltac:(lia)) as Hends.
  destruct (resolveSchema E fuel schema) as [r| |] eqn:Hr; simpl; [| done..].
  apply height_resolve in Hr as Hheight.
  destruct (isArraySchema E r) eqn:Harray; simpl.
  - unfold generateArrayMasterTemplate.
    pose proof (height_prop_value "items" r) as Hitems.
    pose proof (resolveSchema_fuel E fuel (prop "items" r) ltac:(lia)) as Hends'.
    destruct (resolveSchema E fuel (prop "items" r)) as [itemSchema| |] eqn:Hitem;
      simpl; [| done..].
    apply height_resolve in Hitem.
    pose proof (arrayTitle_ends r itemSchema) as Htitle.
    destruct (arrayTitle r itemSchema) as [title| |]; simpl; [| done..].
    pose proof (generateKeyPropertyItems_fuel fuel itemSchema ltac:(lia)) as Hkeys.
    destruct (generateKeyPropertyItems E fuel itemSchema) as [keyPropertyItems| |];
      simpl; [| done..].
    pose proof (generateElementTemplate_ends fuel
                  {| varname := "item"; depth := depth state + 1 |} itemSchema
                  ltac:(lia)) as Helement.
    destruct (generateElementTemplate E fuel _ itemSchema) as [itemTemplate| |];
      simpl; [| done..].
    pose proof (firstLine_ends title) as Hline.
    by destruct (firstLine title) as [line| |].
  - destruct (isObjectSchema E r) eqn:Hobject; simpl; [| done].
    unfold generateObjectMasterTemplate.
    pose proof (generateKeyPropertyItems_fuel fuel r ltac:(lia)) as Hkeys.
    destruct (generateKeyPropertyItems E fuel r) as [keyPropertyItems| |];
      simpl; [| done..].
    match goal with
    | |- context [firstLine ?text] =>
        pose proof (firstLine_ends text) as Hline;
        by destruct (firstLine text) as [line| |]
    end.
Qed.

Lemma generateSchemaTemplate_ends fuel state schema :
  height schema + 3 < fuel -> generateSchemaTemplate E fuel state schema <> OutOfFuel.
Proof.
  intros Hfuel. unfold generateSchemaTemplate.
  pose proof (generateMasterTemplate_ends fuel state schema Hfuel) as Hmaster.
  by destruct (generateMasterTemplate E fuel state schema).
Qed.

Lemma generateSchemaTemplate_total fuel state schema :
  height schema + 3 < fuel ->
  (exists template, generateSchemaTemplate E fuel state schema = Returned template)
  \/ generateSchemaTemplate E fuel state schema = Thrown TypeError.
Proof.
  intros Hfuel. apply returns_or_TypeError.
  - apply noApiError_generateSchemaTemplate.
  - by apply generateSchemaTemplate_ends.
Qed.

(** X13: the template of a schema, when it is computed, is a markdown
    template: a block when the resolved schema is an array or object schema,
    else the fenced JSON block of the current value; the template of the
    schema is never wrapped in a block of its own.  No [ApiError] is thrown,
    and for a schema without references the computation ends: the template is
    returned or a [TypeError] is thrown. *)
Theorem schema_template_is_markdown_block_or_code fuel state schema :
  (forall template,
     generateSchemaTemplate E fuel state schema = Returned template ->
     exists resolved,
       resolveSchema E fuel schema = Returned resolved
       /\ if isArraySchema E resolved || isObjectSchema E resolved
          then exists blocks,
                 template = obj [("$encode", JStr "markdown"); ("$block", JArr blocks)]
          else template
               = obj (("$encode", JStr "markdown") :: ownProps (jsonBlock E state)))
  /\ noApiError (generateSchemaTemplate E fuel state schema)
  /\ (referenceFree schema = true ->
      height schema + 3 < fuel ->
      (exists template, generateSchemaTemplate E fuel state schema = Returned template)
      \/ generateSchemaTemplate E fuel state schema = Thrown TypeError).
Proof.
  split; [| split].
  - intros template. unfold generateSchemaTemplate.
    destruct (generateMasterTemplate E fuel state schema) as [content| |] eqn:Hcontent;
      simpl; [| discriminate..].
    intros [= <-].
    apply generateMasterTemplate_Returned in Hcontent as (resolved & Hresolved & Hshape).
    exists resolved. split; [done |].
    destruct (isArraySchema E resolved || isObjectSchema E resolved).
    + destruct Hshape as (blocks & ->). by exists blocks.
    + by rewrite Hshape.
  - apply noApiError_generateSchemaTemplate.
  - intros _. apply generateSchemaTemplate_total.
Qed.

(** *** Arrays *)



(** *** Titles *)

(** X20: an object schema without references whose title, once resolved, is
    a number, a boolean or an object has no template: generation throws a
    [TypeError]. *)
Theorem title_that_is_no_text_throws fuel state schema resolved :
  referenceFree schema = true ->
  height schema + 3 < fuel ->
  resolveSchema E fuel schema = Returned resolved ->
  isArraySchema E resolved = false ->
  isObjectSchema E resolved = true ->
  noText (prop "title" resolved) ->
  generateSchemaTemplate E fuel state schema = Thrown TypeError.
Proof.
  intros _ Hfuel Hresolved Harray Hobject Htitle.
  pose proof (height_resolve _ _ _ Hresolved) as Hheight.
  pose proof (noApiError_generateSchemaTemplate E fuel state schema) as Hthrows.
  unfold generateSchemaTemplate, generateMasterTemplate in *.
  rewrite Hresolved in *. simpl in *. rewrite Harray, Hobject in *.
  unfold generateObjectMasterTemplate in *.
  pose proof (generateKeyPropertyItems_fuel fuel resolved ltac:(lia)) as Hkeys.
  destruct (generateKeyPropertyItems E fuel resolved) as [keyPropertyItems|e|];
    simpl in *; [| by destruct e as [message|]; [destruct (Hthrows message) |] | done].
  by destruct (prop "title" resolved).
Qed.

End WithCollaborators.

(** *** At example schemas *)

Lemma key_properties_list_every_property_witness :
  generateKeyPropertyItems Examples.plain 8 MoreExamples.account
  = Returned [JStr "**id**: The identifier";
              JArr [JStr "**owner**"; obj [("$ul", JArr [JStr "**name**"])]]]
  /\ (exists items,
        generateKeyPropertyItems Examples.plain 8 MoreExamples.account = Returned items
        /\ Forall2 (keyPropertyItem Examples.plain 7)
             (ownProps (prop "properties" MoreExamples.account)) items)
  /\ ((exists items,
         generateKeyPropertyItems Examples.plain 8 MoreExamples.account
         = Returned items)
      \/ generateKeyPropertyItems Examples.plain 8 MoreExamples.account
         = Thrown TypeError).
Proof.
  split; [reflexivity |].
  destruct (key_properties_list_every_property Examples.plain 7 MoreExamples.account)
    as (Hitems & _ & _).
  destruct (key_properties_list_every_property Examples.plain 8 MoreExamples.account)
    as (_ & _ & Hends).
  split.
  - eexists. split; [reflexivity |]. apply Hitems. reflexivity.
  - apply Hends; [reflexivity | simpl; lia].
Defined.

Lemma schema_template_is_markdown_block_or_code_witness :
  (exists template blocks,
     generateSchemaTemplate Examples.plain 9 {| varname := "body"; depth := 1 |}
       MoreExamples.account = Returned template
     /\ template = obj [("$encode", JStr "markdown"); ("$block", JArr blocks)])
  /\ ((exists template,
         generateSchemaTemplate Examples.plain 9 {| varname := "body"; depth := 1 |}
           MoreExamples.account = Returned template)
      \/ generateSchemaTemplate Examples.plain 9 {| varname := "body"; depth := 1 |}
           MoreExamples.account = Thrown TypeError).
Proof.
  destruct (schema_template_is_markdown_block_or_code Examples.plain 9
              {| varname := "body"; depth := 1 |} MoreExamples.account)
    as (Hshape & _ & Hends).
  split; [| apply Hends; [reflexivity | simpl; lia]].
  destruct (generateSchemaTemplate Examples.plain 9 _ MoreExamples.account)
    as [template| |] eqn:Htemplate; [| discriminate..].
  destruct (Hshape template eq_refl) as (resolved & Hresolved & Hblocks).
  injection Hresolved as <-. destruct Hblocks as (blocks & ->).
  exists (obj [("$encode", JStr "markdown"); ("$block", JArr blocks)]), blocks.
  by split.
Defined.


(** The template of the example array, evaluated. *)
Example accounts_template :
  generateSchemaTemplate Examples.plain 10 responseState MoreExamples.accounts
  = Returned
      (obj [("$encode", JStr "markdown");
            ("$block",
             JArr [obj [("$h1", JStr "Account list")];
                   JStr "**Key properties:**";
                   obj [("$ul",
                         JArr [JStr "**id**: The identifier";
                               JArr [JStr "**owner**";
                                     obj [("$ul", JArr [JStr "**name**"])]]])];
                   obj [("$each", JStr "$['body'][*]"); ("$as", JStr "item");
                        ("$block",
                         JArr [obj [("$h2", obj [("$", JStr "$['item']['id']")])];
                               jsonBlock Examples.plain
                                 {| varname := "item"; depth := 2%Z |}])]])]).
Proof. reflexivity. Qed.

Lemma title_that_is_no_text_throws_witness :
  generateSchemaTemplate Examples.plain 5 responseState MoreExamples.numbered
  = Thrown TypeError.
Proof.
  apply (title_that_is_no_text_throws Examples.plain 5 responseState
           MoreExamples.numbered MoreExamples.numbered).
  - reflexivity.
  - simpl. lia.
  - reflexivity.
  - reflexivity.
  - reflexivity.
  - exact I.
Defined.

End TemplateFacts.

(** ** The response template synthesizer *)
Module ResponsesFacts.
Import JS OpenApi31 Api Run Request Schema Responses Notions MoreNotions.
Import JSFacts SchemaFacts TemplateFacts GenerateFacts.

Section WithCollaborators.
Context (E : Collaborators).

(** *** The schema of a response *)

(** The schema taken from a response is that of its first content type with
    an object schema, whatever the media type. *)
Lemma firstObjectSchema_Some content schema :
  firstObjectSchema E content = Some schema ->
  exists before mediaType contentType after,
    content = before ++ (mediaType, contentType) :: after
    /\ Forall (fun entry => isObject E (media_schema (snd entry)) = false) before
    /\ isObject E (media_schema contentType) = true
    /\ schema = media_schema contentType.
Proof.
  induction content as [|[mt ct] rest IH]; simpl; [discriminate |].
  destruct (isObject E (media_schema ct)) eqn:Hobject; simpl.
  - intros [= <-]. by exists [], mt, ct, rest.
  - intros H. destruct (IH H) as (before & mt' & ct' & after & -> & Hbefore & Hrest).
    exists ((mt, ct) :: before), mt', ct', after. split; [done |].
    split; [by constructor | done].
Qed.

Lemma responseSchemas_elem declared code schema :
  (code, schema) ∈ responseSchemas E declared
  <-> exists response,
        (code, response) ∈ declared /\ startsWith "x-" code = false
        /\ firstObjectSchema E (responseContent response) = Some schema.
Proof.
  induction declared as [|[code' response'] rest IH]; simpl.
  - split; [by inversion 1 | intros (response & H & _); inversion H].
  - assert ((exists response,
               (code, response) ∈ rest /\ startsWith "x-" code = false
               /\ firstObjectSchema E (responseContent response) = Some schema)
            -> exists response,
                 (code, response) ∈ (code', response') :: rest
                 /\ startsWith "x-" code = false
                 /\ firstObjectSchema E (responseContent response) = Some schema)
      as Hlater.
    { intros (response & Hin & Hrest). exists response. split; [by constructor | done]. }
    destruct (startsWith "x-" code') eqn:Hx;
      [| destruct (firstObjectSchema E (responseContent response')) as [schema'|]
           eqn:Hfirst].
    + rewrite IH. split; [done |].
      intros (response & [[= -> ->]|Hin]%elem_of_cons & Hnox & Hschema);
        [congruence | by exists response].
    + rewrite elem_of_cons, IH. split.
      * intros [[= -> ->]|H]; [by exists response'; split; [constructor |] | auto].
      * intros (response & [[= -> ->]|Hin]%elem_of_cons & Hnox & Hschema).
        -- left. congruence.
        -- right. by exists response.
    + rewrite IH. split; [done |].
      intros (response & [[= -> ->]|Hin]%elem_of_cons & Hnox & Hschema);
        [congruence | by exists response].
Qed.

(** *** The two loops *)

Lemma collectResponses_spec todo : forall responseIndex schemaRoots index' roots',
  collectResponses E todo responseIndex schemaRoots = (index', roots') ->
  roots' = schemaRoots ++ map snd (responseSchemas E todo)
  /\ (NoDup (js_keys responseIndex) -> NoDup (js_keys index'))
  /\ (forall code,
        code ∈ js_keys index'
        <-> code ∈ js_keys responseIndex
            \/ (code <> "__proto__" /\ code ∈ map fst (responseSchemas E todo)))
  /\ (forall code i response,
        js_get code index' = Some (i, response) ->
        js_get code responseIndex = Some (i, response)
        \/ exists schema,
             length schemaRoots <= i
             /\ responseSchemas E todo !! (i - length schemaRoots) = Some (code, schema)).
Proof.
  induction todo as [|[code response] rest IH];
    intros responseIndex schemaRoots index' roots'; simpl.
  - intros [= <- <-]. rewrite app_nil_r. split; [done |]. split; [done |].
    split; [| auto]. intros code. split; [auto |].
    intros [H|[_ H]]; [done | inversion H].
  - fold (responseContent response).
    destruct (startsWith "x-" code); [apply IH |].
    destruct (firstObjectSchema E (responseContent response)) as [schema|];
      [| apply IH].
    intros (-> & Hnd & Hkeys & Hget)%IH. split; [by rewrite <- app_assoc |].
    split; [intros H; by apply Hnd, js_keys_assign_NoDup |]. split.
    + intros code'. rewrite Hkeys, js_keys_assign. simpl. rewrite elem_of_cons.
      split.
      * intros [[[-> ?]|?]|[? ?]]; auto.
      * intros [?|[? [->|?]]]; auto.
    + intros code' i response' [Hhere|(schema' & Hle & Hlater)]%Hget.
      * rewrite js_get_assign in Hhere.
        destruct (String.eqb code "__proto__"); [by left |].
        destruct (String.eqb_spec code code') as [->|Hne]; [| by left].
        injection Hhere as <- <-. right. exists schema. split; [done |].
        by rewrite Nat.sub_diag.
      * right. exists schema'. rewrite length_app in Hle, Hlater. simpl in *.
        split; [lia |].
        replace (i - length schemaRoots) with (S (i - (length schemaRoots + 1)))
          by lia.
        done.
Qed.

Lemma buildResponses_spec fuel result todo : forall responses out,
  buildResponses E fuel result todo responses = Returned out ->
  (NoDup (js_keys responses) -> NoDup (js_keys out))
  /\ (forall code,
        code ∈ js_keys out
        <-> code ∈ js_keys responses \/ (code <> "__proto__" /\ code ∈ js_keys todo))
  /\ (forall code template,
        js_get code out = Some template ->
        js_get code responses = Some template
        \/ exists i response,
             (code, (i, response)) ∈ todo
             /\ generateSchemaTemplate E fuel responseState (rootAt result i)
                = Returned template).
Proof.
  induction todo as [|[code [index response]] rest IH]; intros responses out;
    cbn [buildResponses].
  - intros [= <-]. split; [done |]. split; [| auto].
    intros code. split; [auto |]. intros [H|[_ H]]; [done | inversion H].
  - fold responseState.
    destruct (generateSchemaTemplate E fuel responseState (rootAt result index))
      as [template| |] eqn:Htemplate; simpl; [| discriminate..].
    intros (Hnd & Hkeys & Hget)%IH.
    split; [intros H; by apply Hnd, js_keys_assign_NoDup |]. split.
    + intros code'. rewrite Hkeys, js_keys_assign. unfold js_keys at 4. simpl.
      rewrite elem_of_cons. split.
      * intros [[[-> ?]|?]|[? ?]]; auto.
      * intros [?|[? [->|?]]]; auto.
    + intros code' template' [Hhere|(i & response' & Hin & Hmade)]%Hget.
      * rewrite js_get_assign in Hhere.
        destruct (String.eqb code "__proto__"); [by left |].
        destruct (String.eqb_spec code code') as [->|Hne]; [| by left].
        injection Hhere as <-. right. exists index, response.
        split; [constructor | done].
      * right. exists i, response'. split; [by constructor | done].
Qed.

Lemma buildResponses_ends fuel result todo :
  (forall i, generateSchemaTemplate E fuel responseState (rootAt result i)
             <> OutOfFuel) ->
  forall responses, buildResponses E fuel result todo responses <> OutOfFuel.
Proof.
  intros Hends. induction todo as [|[code [index response]] rest IH];
    intros responses; cbn [buildResponses]; [done |].
  fold responseState. specialize (Hends index).
  destruct (generateSchemaTemplate E fuel responseState (rootAt result index));
    simpl; [apply IH | done..].
Qed.

Lemma rootAt_height result i : height (rootAt result i) <= max_list (map height (roots result)).
Proof.
  unfold rootAt. destruct (decide (i < length (roots result))) as [Hlt|Hge].
  - apply max_list_elem_of_le, list_elem_of_fmap. eexists. split; [done |].
    apply list_elem_of_In, nth_In, Hlt.
  - rewrite nth_overflow by lia. simpl. lia.
Qed.

(** The response synthesizer ends once the fuel exceeds the heights of the
    rewritten roots. *)
Lemma generateApiHandleResponses_ends operation options fuel :
  max_list
    (map height
       (roots
          (treeShakeReferences E
             (map snd
                (responseSchemas E
                   (match op_responses (node operation) with
                    | Some r => r
                    | None => []
                    end)))
             "#/$defs"
             (match options with Some o => transform o | None => None end))))
  + 4 <= fuel ->
  generateApiHandleResponses E fuel operation options <> OutOfFuel.
Proof.
  intros Hfuel. unfold generateApiHandleResponses.
  destruct (collectResponses E _ [] []) as [responseIndex schemaRoots] eqn:Hcollect.
  apply collectResponses_spec in Hcollect as (-> & _). simpl in *.
  match goal with
  | |- context [buildResponses E fuel ?result responseIndex []] =>
      pose proof (buildResponses_ends fuel result responseIndex) as Hends;
      destruct (buildResponses E fuel result responseIndex []) eqn:Hbuild;
      simpl; [done | done |];
      intros _; refine (Hends _ [] Hbuild); intros i;
      pose proof (rootAt_height result i)
  end.
  apply generateSchemaTemplate_ends. lia.
Qed.

(** *** The responses of a handle *)

(** X14: the response templates of an operation, when they are computed,
    are one template per response code, other than [__proto__], that is no
    extension and has a content type with an object schema.  The schema of a
    response is that of its first content type with an object schema, whatever
    the media type; the schemas are submitted to the tree shaker in the order
    of the responses, and the template of a code is the template of the
    rewritten root of its schema, for the variable [body] at depth 1.  No
    [ApiError] is thrown, and when the rewritten roots have no references the
    computation ends: the templates are returned or a [TypeError] is thrown. *)
Theorem response_templates_of_object_schemas operation options fuel :
  let declared :=
    match op_responses (node operation) with Some r => r | None => [] end in
  let submitted := responseSchemas E declared in
  let result :=
    treeShakeReferences E (map snd submitted) "#/$defs"
      (match options with Some o => transform o | None => None end) in
  (forall i code schema,
      submitted !! i = Some (code, schema) ->
      exists response before mediaType contentType after,
        (code, response) ∈ declared /\ startsWith "x-" code = false
        /\ responseContent response = before ++ (mediaType, contentType) :: after
        /\ Forall (fun entry => isObject E (media_schema (snd entry)) = false) before
        /\ isObject E (media_schema contentType) = true
        /\ schema = media_schema contentType)
  /\ (forall r,
        generateApiHandleResponses E fuel operation options = Returned r ->
        exists templates,
          responses r = obj templates
          /\ NoDup (js_keys templates)
          /\ (forall code,
                code ∈ js_keys templates
                <-> code <> "__proto__"
                    /\ exists response,
                         (code, response) ∈ declared
                         /\ startsWith "x-" code = false
                         /\ firstObjectSchema E (responseContent response) <> None)
          /\ (forall code template,
                js_get code templates = Some template ->
                exists i schema,
                  submitted !! i = Some (code, schema)
                  /\ generateSchemaTemplate E fuel responseState (rootAt result i)
                     = Returned template))
  /\ noApiError (generateApiHandleResponses E fuel operation options)
  /\ (forallb referenceFree (roots result) = true ->
      max_list (map height (roots result)) + 4 <= fuel ->
      (exists r, generateApiHandleResponses E fuel operation options = Returned r)
      \/ generateApiHandleResponses E fuel operation options = Thrown TypeError).
Proof.
  intros declared submitted result. split; [| split; [| split]].
  - intros i code schema Hi. apply list_elem_of_lookup_2, responseSchemas_elem in Hi
      as (response & Hin & Hnox & Hfirst).
    apply firstObjectSchema_Some in Hfirst
      as (before & mediaType & contentType & after & Hcontent & Hrest).
    by exists response, before, mediaType, contentType, after.
  - intros r. unfold generateApiHandleResponses. fold declared.
    destruct (collectResponses E declared [] []) as [responseIndex schemaRoots]
      eqn:Hcollect.
    pose proof Hcollect as (-> & Hnd & Hkeys & Hget)%collectResponses_spec.
    simpl. fold submitted. fold result.
    destruct (buildResponses E fuel result responseIndex []) as [templates| |]
      eqn:Hbuild; simpl; [| discriminate..].
    intros [= <-].
    apply buildResponses_spec in Hbuild as (Hnd' & Hkeys' & Hget').
    exists templates. split; [done |].
    split; [apply Hnd', NoDup_nil_2 |]. split.
    + intros code. rewrite Hkeys', Hkeys. split.
      * intros [H|[Hproto [H|[_ H]]]]; [inversion H | inversion H |].
        split; [done |].
        apply list_elem_of_fmap in H as ([code' schema] & -> & Hin).
        apply responseSchemas_elem in Hin as (response & Hin & Hnox & Hfirst).
        exists response. split; [done |]. split; [done | congruence].
      * intros (Hproto & response & Hin & Hnox & Hfirst). right.
        split; [done |]. right. split; [done |].
        destruct (firstObjectSchema E (responseContent response)) as [schema|]
          eqn:Hschema; [| done].
        apply list_elem_of_fmap. exists (code, schema). split; [done |].
        apply responseSchemas_elem. by exists response.
    + intros code template [Hhere|(i & response & Hin & Hmade)]%Hget';
        [discriminate |].
      assert (js_get code responseIndex = Some (i, response)) as Hindex
        by (apply js_get_NoDup; [apply Hnd, NoDup_nil_2 | done]).
      apply Hget in Hindex as [Hindex|(schema & _ & Hi)]; [discriminate |].
      rewrite Nat.sub_0_r in Hi. by exists i, schema.
  - apply noApiError_generateApiHandleResponses.
  - intros _ Hfuel. apply returns_or_TypeError.
    + apply noApiError_generateApiHandleResponses.
    + by apply generateApiHandleResponses_ends.
Qed.

End WithCollaborators.

(** *** At an example operation *)

(** The responses [200] and [default] get a template, the first from the
    schema of its XML content; the extension and the response without content
    get none. *)
Lemma response_templates_of_object_schemas_witness :
  (r ← generateApiHandleResponses Examples.plain 9 MoreExamples.listing None;
   Returned (js_keys (ownProps (responses r))))
  = Returned ["200"; "default"]
  /\ (exists response before mediaType contentType after,
        responseContent response = before ++ (mediaType, contentType) :: after
        /\ Forall (fun entry =>
                     isObject Examples.plain (media_schema (snd entry)) = false)
             before
        /\ isObject Examples.plain (media_schema contentType) = true
        /\ MoreExamples.account = media_schema contentType)
  /\ ((exists r,
         generateApiHandleResponses Examples.plain 9 MoreExamples.listing None
         = Returned r)
      \/ generateApiHandleResponses Examples.plain 9 MoreExamples.listing None
         = Thrown TypeError).
Proof.
  split; [vm_compute; reflexivity |].
  destruct (response_templates_of_object_schemas Examples.plain MoreExamples.listing
              None 9) as (Hsubmitted & _ & _ & Hends).
  split.
  - destruct (Hsubmitted 0 "200" MoreExamples.account eq_refl)
      as (response & before & mediaType & contentType & after
          & _ & _ & Hcontent & Hbefore & Hobject & Hschema).
    by exists response, before, mediaType, contentType, after.
  - apply Hends; [reflexivity | vm_compute; lia].
Defined.

End ResponsesFacts.

(** ** Handles *)
Module HandleFacts.
Import JS OpenApi31 Api Run Request Schema Responses Generate Notions MoreNotions.
Import JSFacts ApiFacts RequestFacts SchemaFacts GenerateFacts GraphFacts ResponsesFacts.

(** *** Names *)

Lemma isNameChar_underscore c :
  isNameChar (if isNameChar c then c else "_"%char) = true.
Proof. by destruct (isNameChar c) eqn:Hc. Qed.

(** X15: sanitizing a name twice is sanitizing it once, and a name is kept
    as it is exactly when all its characters are letters, digits, underscores
    or hyphens. *)
Theorem sanitized_name_is_kept (name : string) :
  sanitize (sanitize name) = sanitize name
  /\ (sanitize name = name
      <-> forall i c, String.get i name = Some c -> isNameChar c = true).
Proof.
  unfold sanitize. split.
  - induction name as [|c name IH]; simpl; [done |].
    rewrite IH. by rewrite isNameChar_underscore.
  - induction name as [|c name IH]; simpl.
    + split; [intros _ i c H; by destruct i | done].
    + split.
      * intros [= Hc Hname] [|i] c'; simpl.
        -- intros [= <-]. rewrite <- Hc. apply isNameChar_underscore.
        -- by apply IH.
      * intros Hall. rewrite (Hall 0 c eq_refl). f_equal.
        apply IH. intros i c'. apply (Hall (S i)).
Qed.

Section WithCollaborators.
Context (E : Collaborators).

(** *** The method of a request *)

(** X16: an operation yielded by a path item has one of the eight method
    names in upper case as its method, and once a server is selected this is
    the method of the request generated for it. *)
Theorem request_method_of_yielded_operation this operation options selected :
  operation ∈ operations this ->
  selectServer operation options = Returned selected ->
  method operation
    ∈ ["GET"; "PUT"; "POST"; "DELETE"; "OPTIONS"; "HEAD"; "PATCH"; "TRACE"]
  /\ exists r,
       generateApiHandleRequest E operation options = Returned r
       /\ prop "method" (Request.request r) = JStr (method operation).
Proof.
  intros Hyielded Hserver. split.
  - apply operations_elem in Hyielded as (Hkey & _). unfold method, OPERATIONS in *.
    repeat (apply elem_of_cons in Hkey as [->|Hkey]; [set_solver |]).
    inversion Hkey.
  - destruct (generateApiHandleRequest_unfold E operation options) as (st & _ & ->).
    rewrite Hserver. by eexists.
Qed.

(** *** Generation as a whole *)

Lemma generateApiHandleRequest_ends operation options :
  generateApiHandleRequest E operation options <> OutOfFuel.
Proof.
  destruct (generateApiHandleRequest_unfold E operation options) as (st & _ & ->).
  rewrite selectServer_cases.
  destruct (optionServer options); [done |].
  by destruct (declaredServers operation) as [[|]|].
Qed.

(** X17: the generator of handles returns a handle when the request and
    the response templates are generated: the handle has their parts, the
    handler [http], and the description of the operation or else its summary.
    It throws the [ApiError] of the request synthesizer when no server is
    available, whatever the responses are, and a [TypeError] only when the
    request is generated and the response templates throw it; it can only fail
    to end where the response templates do, and it ends when the rewritten
    roots of the responses have no references. *)
Theorem handle_combines_request_and_responses operation options fuel :
  match generateApiHandle E fuel operation options with
  | Returned handle =>
      exists req resp,
        generateApiHandleRequest E operation options = Returned req
        /\ generateApiHandleResponses E fuel operation options = Returned resp
        /\ Generate.parameters handle = Request.parameters req
        /\ Generate.request handle = Request.request req
        /\ Generate.responses handle = Responses.responses resp
        /\ handler handle = "http"
        /\ description handle
           = match op_description (node operation) with
             | Some d => Some d
             | None => op_summary (node operation)
             end
  | Thrown (ApiError message) =>
      message = "No servers defined for operation"
      /\ generateApiHandleRequest E operation options = Thrown (ApiError message)
  | Thrown TypeError =>
      (exists req, generateApiHandleRequest E operation options = Returned req)
      /\ generateApiHandleResponses E fuel operation options = Thrown TypeError
  | OutOfFuel =>
      (exists req, generateApiHandleRequest E operation options = Returned req)
      /\ generateApiHandleResponses E fuel operation options = OutOfFuel
  end
  /\ let result :=
       treeShakeReferences E
         (map snd
            (responseSchemas E
               (match op_responses (node operation) with
                | Some r => r
                | None => []
                end)))
         "#/$defs"
         (match options with Some o => transform o | None => None end) in
     forallb referenceFree (roots result) = true ->
     max_list (map height (roots result)) + 4 <= fuel ->
     generateApiHandle E fuel operation options <> OutOfFuel.
Proof.
  pose proof (noApiError_generateApiHandleResponses E fuel operation options)
    as Hthrows.
  pose proof (generateApiHandleRequest_ends operation options) as Hends'.
  assert (match generateApiHandle E fuel operation options with
          | Returned handle =>
              exists req resp,
                generateApiHandleRequest E operation options = Returned req
                /\ generateApiHandleResponses E fuel operation options = Returned resp
                /\ Generate.parameters handle = Request.parameters req
                /\ Generate.request handle = Request.request req
                /\ Generate.responses handle = Responses.responses resp
                /\ handler handle = "http"
                /\ description handle
                   = match op_description (node operation) with
                     | Some d => Some d
                     | None => op_summary (node operation)
                     end
          | Thrown (ApiError message) =>
              message = "No servers defined for operation"
              /\ generateApiHandleRequest E operation options
                 = Thrown (ApiError message)
          | Thrown TypeError =>
              (exists req, generateApiHandleRequest E operation options = Returned req)
              /\ generateApiHandleResponses E fuel operation options = Thrown TypeError
          | OutOfFuel =>
              (exists req, generateApiHandleRequest E operation options = Returned req)
              /\ generateApiHandleResponses E fuel operation options = OutOfFuel
          end) as Hcases.
  { unfold generateApiHandle, handleName, rawName.
    destruct (operationId operation); simpl.
    all: destruct (generateApiHandleRequest E operation options) as [req|e|] eqn:Hreq;
      simpl; [| apply generateApiHandleRequest_throws in Hreq as ->; by split | done].
    all: destruct (generateApiHandleResponses E fuel operation options)
           as [resp|[message|]|]; simpl;
      [by exists req, resp | by destruct (Hthrows message)
      | split; [by exists req | done] | split; [by exists req | done]]. }
  split; [exact Hcases |].
  intros result _ Hfuel Hout. rewrite Hout in Hcases. destruct Hcases as [_ Hresp].
  by apply (generateApiHandleResponses_ends E operation options fuel Hfuel).
Qed.

End WithCollaborators.

(** *** At example operations *)

Lemma request_method_of_yielded_operation_witness :
  map method (operations Examples.referring) = ["GET"; "POST"]
  /\ exists r,
       generateApiHandleRequest Examples.plain
         {| key := "post"; node := Examples.farPost; pathItem := Examples.referring |}
         (Some {| server := Some Examples.exampleServer; transform := None |})
       = Returned r
       /\ prop "method" (Request.request r) = JStr "POST".
Proof.
  split; [vm_compute; reflexivity |].
  apply (request_method_of_yielded_operation Examples.plain Examples.referring
           {| key := "post"; node := Examples.farPost; pathItem := Examples.referring |}
           (Some {| server := Some Examples.exampleServer; transform := None |})
           Examples.exampleServer).
  - vm_compute. set_solver.
  - reflexivity.
Defined.

Lemma handle_combines_request_and_responses_witness :
  (exists handle,
     generateApiHandle Examples.plain 9 MoreExamples.listing None = Returned handle
     /\ handler handle = "http")
  /\ generateApiHandle Examples.plain 9 MoreExamples.listing None <> OutOfFuel.
Proof.
  destruct (handle_combines_request_and_responses Examples.plain MoreExamples.listing
              None 9) as (Hcases & Hends).
  split; [| apply Hends; [reflexivity | vm_compute; lia]].
  destruct (generateApiHandle Examples.plain 9 MoreExamples.listing None)
    as [handle| |] eqn:Hhandle; [| discriminate..].
  destruct Hcases as (req & resp & _ & _ & _ & _ & _ & Hhandler & _).
  by exists handle.
Defined.

End HandleFacts.

(** ** The validators *)
Module ParserFacts.
Import JS Run Parser MoreNotions.

Lemma eachItem_spec parseItem items : forall index,
  (forall item i, parseItem item i = Returned tt \/ exists e, parseItem item i = Thrown e) ->
  (eachItem parseItem items index = Returned tt
   <-> forall k item, items !! k = Some item -> item <> JUndefined ->
         parseItem item (index + N.of_nat k)%N = Returned tt)
  /\ eachItem parseItem items index <> OutOfFuel.
Proof.
  intros index Hends. revert index.
  induction items as [|item rest IH]; intros index; simpl.
  - split; [| done]. split; [intros _ k item H; inversion H | done].
  - destruct (IH (index + 1)%N) as (IHiff & IHends).
    assert ((forall k x, rest !! k = Some x -> x <> JUndefined ->
               parseItem x (index + 1 + N.of_nat k)%N = Returned tt)
            <-> (forall k x, rest !! k = Some x -> x <> JUndefined ->
                   parseItem x (index + N.of_nat (S k))%N = Returned tt)) as Hshift.
    { split; intros H k x Hk Hx; specialize (H k x Hk Hx);
        by replace (index + N.of_nat (S k))%N with (index + 1 + N.of_nat k)%N in *
          by lia. }
    assert (forall done', done' = Returned tt \/ (exists e, done' = Thrown e) ->
              ((done' ≫= λ _ : unit, eachItem parseItem rest (index + 1)%N) = Returned tt
               <-> done' = Returned tt
                   /\ eachItem parseItem rest (index + 1)%N = Returned tt)
              /\ (done' ≫= λ _ : unit, eachItem parseItem rest (index + 1)%N) <> OutOfFuel)
      as Hbind.
    { intros done' [->|(e & ->)]; simpl; [| split; [| done]; split; [done | by intros [? _]]].
      split; [| done]. split; [done | by intros [_ ?]]. }
    assert (item = JUndefined \/ item <> JUndefined) as [->|Hdefined]
      by (destruct item; auto).
    + split; [| done]. rewrite IHiff, Hshift. split.
      * intros H [|k] x Hk Hx; simpl in Hk; [congruence | by apply H].
      * intros H k x Hk Hx. by apply (H (S k)).
    + destruct (Hbind (parseItem item index) (Hends item index)) as (Hiff & Hne).
      assert (match item with
              | JUndefined => eachItem parseItem rest (index + 1)%N
              | _ => parseItem item index ≫= λ _ : unit,
                       eachItem parseItem rest (index + 1)%N
              end = (parseItem item index ≫= λ _ : unit,
                       eachItem parseItem rest (index + 1)%N)) as ->
        by by destruct item.
      split; [| done]. rewrite Hiff, IHiff, Hshift. split.
      * intros [Hhere Hrest] [|k] x Hk Hx; simpl in Hk; [| by apply Hrest].
        injection Hk as <-. by rewrite N.add_0_r.
      * intros H. split; [| intros k x Hk Hx; by apply (H (S k))].
        specialize (H 0 item eq_refl Hdefined). by rewrite N.add_0_r in H.
Qed.

Lemma parseString_cases item key :
  parseString item key = Returned tt \/ exists e, parseString item key = Thrown e.
Proof. destruct item; simpl; eauto. Qed.

Lemma parseString_Returned item key :
  parseString item key = Returned tt <-> exists s, item = JStr s.
Proof. destruct item; simpl; split; try done; eauto; by intros (s & ?). Qed.

(** What the field validator accepts. *)
Lemma parseSecurityRequirementField_spec value key :
  (parseSecurityRequirementField value key = Returned tt <-> stringList value)
  /\ parseSecurityRequirementField value key <> OutOfFuel
  /\ ((forall items, value <> JArr items) ->
      parseSecurityRequirementField value key
      = Thrown (ApiError (key +:+ " must be an array"))).
Proof.
  unfold parseSecurityRequirementField, parseArray, stringList.
  destruct value as [| | | | |items|]; try (split; [| split]; [| done | done];
    split; [done | by intros (items & ? & _)]).
  destruct (eachItem_spec (fun item index => parseString item (Some (pretty index)))
              items 0) as (Hiff & Hends); [intros; apply parseString_cases |].
  split; [| split; [done | intros H; by destruct (H items)]].
  rewrite Hiff. split.
  - intros H. exists items. split; [done |]. apply Forall_lookup. intros k item Hk.
    assert (item = JUndefined \/ item <> JUndefined) as [->|Hdefined]
      by (destruct item; auto); [by left | right].
    by apply (parseString_Returned item (Some (pretty (0 + N.of_nat k)%N))), H.
  - intros (items' & [= <-] & Hall) k item Hk Hdefined.
    apply parseString_Returned.
    by destruct (proj1 (Forall_lookup _ _) Hall k item Hk).
Qed.

Lemma eachEntry_spec parseProperty todo :
  (forall value key, parseProperty value key <> OutOfFuel) ->
  (eachEntry parseProperty todo = Returned tt
   <-> Forall (fun entry => snd entry = JUndefined
                            \/ parseProperty (snd entry) (fst entry) = Returned tt)
         todo)
  /\ eachEntry parseProperty todo <> OutOfFuel
  /\ forall before key value after,
       todo = before ++ (key, value) :: after ->
       Forall (fun entry => snd entry = JUndefined
                            \/ parseProperty (snd entry) (fst entry) = Returned tt)
         before ->
       value <> JUndefined ->
       forall e, parseProperty value key = Thrown e ->
                 eachEntry parseProperty todo = Thrown e.
Proof.
  intros Hends. induction todo as [|[key value] rest (IHiff & IHends & IHfirst)];
    simpl.
  - split; [split; [constructor | done] |]. split; [done |].
    intros before key value after H. by destruct before.
  - assert (value = JUndefined \/ value <> JUndefined) as [->|Hdefined]
      by (destruct value; auto).
    + split; [| split; [done |]].
      * rewrite IHiff, Forall_cons. simpl. tauto.
      * intros [|[key' value'] before] k v after Heq; injection Heq as ? ? ?; subst; [done |].
        intros [_ Hbefore]%Forall_cons. by apply (IHfirst before k v after).
    + assert (match value with
              | JUndefined => eachEntry parseProperty rest
              | _ => parseProperty value key ≫= λ _ : unit,
                       eachEntry parseProperty rest
              end = (parseProperty value key ≫= λ _ : unit,
                       eachEntry parseProperty rest)) as ->
        by by destruct value.
      specialize (Hends value key).
      destruct (parseProperty value key) as [[]|e|] eqn:Hparse; simpl; [| | done].
      * split; [| split; [done |]].
        -- rewrite IHiff, Forall_cons. simpl. rewrite Hparse. tauto.
        -- intros [|[key' value'] before] k v after Heq; injection Heq as ? ? ?; subst.
           ++ intros _ _ e. congruence.
           ++ intros [_ Hbefore]%Forall_cons. by apply (IHfirst before k v after).
      * split; [| split; [done |]].
        -- rewrite Forall_cons. simpl. rewrite Hparse. split; [done |].
           by intros [[?|?] _].
        -- intros [|[key' value'] before] k v after Heq; injection Heq as ? ? ?; subst.
           ++ intros _ _ e'. congruence.
           ++ intros [[?|Hok] _]%Forall_cons; simpl in *; [done | congruence].
Qed.

Section WithCollaborators.
Context (E : Collaborators).

(** X18: the validator of a Security Requirement Object accepts exactly the
    objects whose every defined property is an array whose defined items are
    strings.  It does not run forever, and it fails with an [ApiError]: of the
    object when the node is no object, of the first defined property that is
    no array under the key of the property. *)
Theorem security_requirement_is_map_of_string_lists node :
  (parseSecurityRequirementObject E node = Returned tt
   <-> isObject E node = true
       /\ Forall (fun entry => snd entry = JUndefined \/ stringList (snd entry))
            (ownProps node))
  /\ parseSecurityRequirementObject E node <> OutOfFuel
  /\ parseSecurityRequirementObject E node <> Thrown TypeError
  /\ (isObject E node = false ->
      parseSecurityRequirementObject E node
      = Thrown (ApiError "Security Requirement Object must be an object"))
  /\ (forall before key value after,
        isObject E node = true ->
        ownProps node = before ++ (key, value) :: after ->
        Forall (fun entry => snd entry = JUndefined \/ stringList (snd entry)) before ->
        value <> JUndefined -> (forall items, value <> JArr items) ->
        parseSecurityRequirementObject E node
        = Thrown (ApiError (key +:+ " must be an array"))).
Proof.
  unfold parseSecurityRequirementObject, parseObject.
  assert (forall todo,
            Forall (fun entry => snd entry = JUndefined \/ stringList (snd entry)) todo
            <-> Forall (fun entry =>
                          snd entry = JUndefined
                          \/ parseSecurityRequirementField (snd entry) (fst entry)
                             = Returned tt) todo) as Hsame.
  { intros todo. apply Forall_proper; [| done]. intros [key value]. simpl.
    destruct (parseSecurityRequirementField_spec value key) as (-> & _). done. }
  destruct (eachEntry_spec parseSecurityRequirementField (ownProps node))
    as (Hiff & Hends & Hfirst).
  { intros value key. apply parseSecurityRequirementField_spec. }
  destruct (isObject E node); simpl.
  - split; [rewrite Hiff, Hsame; tauto |]. split; [done |]. split.
    + assert (forall todo,
                eachEntry parseSecurityRequirementField todo <> Thrown TypeError)
        as Hno; [| apply Hno].
      induction todo as [|[key value] rest IH]; simpl; [done |].
      destruct value as [| | | | |items|]; simpl; try done.
      unfold parseSecurityRequirementField at 1, parseArray.
      assert (forall index,
                eachItem (fun item i => parseString item (Some (pretty i))) items index
                <> Thrown TypeError) as Hitems.
      { induction items as [|item items IHitems]; intros index; simpl; [done |].
        destruct item; simpl; try done; apply IHitems. }
      specialize (Hitems 0%N).
      destruct (eachItem _ items 0) as [[]|[]|]; simpl; done.
    + split; [done |]. intros before key value after _ Hprops Hbefore Hdefined Hno.
      apply (Hfirst before key value after Hprops); [by apply Hsame | done |].
      by apply parseSecurityRequirementField_spec.
  - split; [split; [done | by intros [? _]] |]. split; [done |]. split; [done |].
    split; [done | by intros]. 
Qed.

End WithCollaborators.

(** *** At example nodes *)

Lemma security_requirement_is_map_of_string_lists_witness :
  parseSecurityRequirementObject Examples.plain
    (obj [("oauth", JArr [JStr "read"; JStr "write"]); ("key", JArr [])])
  = Returned tt
  /\ parseSecurityRequirementObject Examples.plain
       (obj [("oauth", JArr [JStr "read"]); ("key", JStr "any")])
     = Thrown (ApiError "key must be an array").
Proof.
  split; [reflexivity |].
  destruct (security_requirement_is_map_of_string_lists Examples.plain
              (obj [("oauth", JArr [JStr "read"]); ("key", JStr "any")]))
    as (_ & _ & _ & _ & Hfirst).
  apply (Hfirst [("oauth", JArr [JStr "read"])] "key" (JStr "any") []).
  - reflexivity.
  - reflexivity.
  - constructor; [| constructor]. right. exists [JStr "read"]. split; [done |].
    constructor; [| constructor]. right. by exists "read".
  - discriminate.
  - discriminate.
Defined.

End ParserFacts.
